(** * type-stack: the structural parser and the stack-type verifier

    A shallow embedding of [class Parser] ([parse], [#parseStatement],
    [#isAtEnd], [#peek], [#increment], [#expect], [#checkFunctions] and
    the [traverse] nested in it), with the properties the specification
    states of the parser and of the verifier.

    Conventions of the embedding
    - a JS object used as a dictionary ([Record<string, _>]) is the
      [gmap] of its own properties, keyed by [string], under the
      prototype of an object literal: [k in m] and [m[k]] also answer to
      the names of [Object.prototype], and [m["__proto__"] = v] is the
      setter of [Object.prototype], which replaces the prototype by an
      object [v] and ignores a [v] that is not an object;
    - the mutable fields of the [Parser] object are threaded explicitly;
    - a method that returns [Error | T] returns an [Outcome T]: [Fail e]
      is the [Error] returned, [Throw] is the [TypeError] of reading a
      property of [undefined];
    - the [while] loop of [#parseStatement] and the recursive calls in it
      are driven by fuel; [parse] takes enough of it ([parse_fuel]). *)

From Stdlib Require Import ZArith String List Bool Lia.
From stdpp Require Import base option gmap strings list fin_maps.

#[local] Set Warnings "-notation-for-abbreviation,-register-all".

#[local] Open Scope Z_scope.

(** ** Data model *)

(** Modelled from the spec: [enum TokenType] of [scan.ts], which is not
    among the sources.  The kinds are those of the specification's token
    model, under the names [parse.ts] uses. *)
Module TokenType.
Inductive t :=
| Int | Float | Str | Bool | Identifier | Keyword
| OpenBracket | CloseBracket | OpenParen | CloseParen | Colon.

#[global] Instance eq_dec : EqDecision t.
Proof. solve_decision. Defined.
End TokenType.
Notation TokenType := TokenType.t.

(** Modelled from the spec: [enum StackType] of [stack.ts], which is not
    among the sources: the closed enumeration Int, Float, Str, Bool,
    Any. *)
Module StackType.
Inductive t := Int | Float | Str | Bool | Any.

#[global] Instance eq_dec : EqDecision t.
Proof. solve_decision. Defined.
End StackType.
Notation StackType := StackType.t.

(** Modelled from the spec: [type Pos] of [scan.ts], a line and a column,
    read by [parse.ts] as [pos.line] and [pos.char]. *)
Record Pos := { line : Z; char : Z }.

(** The payload of a token and of an [Expression],
    [string | number | boolean].  Neither the parser nor the verifier
    computes with a number: it is only compared with strings (never
    equal), printed, or used as a property key, so a number is carried by
    its canonical decimal rendering [String(n)]. *)
Inductive Value :=
| VStr (s : string)
| VNum (rendering : string)
| VBool (b : bool).

(** Modelled from the spec: [type Token] of [scan.ts], with the four
    fields [parse.ts] reads and [type Expression] repeats. *)
Record Token := {
  type : TokenType;
  startPos : Pos;
  endPos : Pos;
  value : Value;
}.

(** [enum StatementType { ForLoop, WhileLoop, Loop, If }]. *)
Inductive StatementType := ForLoop | WhileLoop | Loop | If.

(** [type Program = Array<Expression | Statement>].  An [Expression] is a
    token pushed as it is ([current as Expression]); a [Statement] has a
    [type], a [block] and an optional [else]. *)
Inductive Item :=
| Expression (e : Token)
| Statement (stype : StatementType) (block : list Item)
            (else_ : option (list Item)).

Notation Program := (list Item).

(** Modelled from the spec: [type StackFunction] of [functions.ts], with
    the three fields a declaration stores and [#checkFunctions] reads. *)
Record StackFunction := {
  stack : StackType;
  params : gmap string StackType;
  body : Program;
}.

(** What the variable [stack] of [traverse] holds: a member of
    [StackType], or, once [otherIdentifiers[value]] was answered by the
    prototype, the value [Object.prototype[key]] (a built-in function,
    or for [__proto__] the prototype itself), which is no member of
    [StackType]. *)
Inductive StackValue :=
| OfType (ty : StackType)
| Inherited (key : string).
Coercion OfType : StackType >-> StackValue.

#[global] Instance StackValue_eq_dec : EqDecision StackValue.
Proof. solve_decision. Defined.

(** The text of an error, after its [line:char] prefix.  Each constructor
    stands for one template string of the source. *)
Inductive Message :=
| UnexpectedCharacter (v : Value)
    (* Unexpected character: `v` *)
| UnexpectedReturnMarker (v : Value)
    (* Unexpected keyword `v`. Keyword `v` must only be found after
       function declarations *)
| UnexpectedElse
    (* Unexpected keyword `else`. Keyword `else` must only be found after
       an if statement *)
| UnexpectedAny
    (* Unexpected keyword `any`. Keyword `any` must only be found in `any`
       functions *)
| UnexpectedBreak
    (* Unexpected keyword `break`. Keyword `break` must only be found in
       loops *)
| UnexpectedContinue
    (* Unexpected keyword `continue`. Keyword `continue` must only be
       found in loops *)
| ExpectedBracketAfterLoop
    (* Expected an opening bracket (`{`) after a loop statement *)
| ExpectedLoopAfterFor
    (* Expected a `loop` keyword after a `for` keyword *)
| ExpectedBracketAfterFor
    (* Expected an opening bracket (`{`) after a for loop statement *)
| ExpectedLoopAfterWhile
    (* Expected a `loop` keyword after a `while` keyword *)
| ExpectedBracketAfterWhile
    (* Expected an opening bracket (`{`) after a while loop statement *)
| ExpectedBracketAfterIf
    (* Expected an opening bracket (`{`) after an if statement *)
| ExpectedBracketAfterElse
    (* Expected an opening bracket (`{`) after an else statement *)
| NestedFunction
    (* Function declarations must not be nestles in other statements *)
| ExpectedIdentifierAfterFn
    (* Expected a identifier after a `fn` keyword *)
| ExpectedParenAfterName
    (* Expected an opening parenthesis (`(`) after a function identifier *)
| ExpectedIdentifierOrParen
    (* Expected an identifier or parenthesis (`(`) after a opening
       parenthesis (`(`) of a function *)
| ExpectedEndingParenPair
    (* Expected ending parenthesis pair *)
| ExpectedFunctionType
    (* Expected a function type (`@int`, `@str`, `@float`, `@bool`,
       `@any`) after a function declaration *)
| ExpectedBracketAfterFunction
    (* Expected an opening bracket (`{`) after a function declaration *)
| UnknownKeyword (v : Value)
    (* Unknown keyword: `v` *)
| UnknownToken (v : Value)
    (* Unknown token: `v` *)
| ExpectedEndingBracketPair
    (* Expected ending bracket pair *)
| CallNotFoundAtStack (s : StackValue) (v : Value)
    (* Attempt to call function not found at stack s: `v` *)
| UndeclaredIdentifier (v : Value).
    (* Undeclared identifier: `v` *)

(** [new Error(`${pos.line}:${pos.char} message`)]. *)
Record Error := { at_ : Pos; message : Message }.

Definition error (pos : Pos) (msg : Message) : Error :=
  {| at_ := pos; message := msg |}.

(** ** Values as strings and property keys *)

(** [v === s] for a string literal [s]. *)
Definition value_is (v : Value) (s : string) : bool :=
  match v with
  | VStr s' => bool_decide (s' = s)
  | _ => false
  end.

(** [[s1, ..., sn].includes(v)]. *)
Definition includes (l : list string) (v : Value) : bool :=
  existsb (value_is v) l.

(** The property key an object is indexed with: [obj[v]], [v in obj]. *)
Definition propKey (v : Value) : string :=
  match v with
  | VStr s => s
  | VNum rendering => rendering
  | VBool true => "true"
  | VBool false => "false"
  end.

(** ** Objects used as dictionaries *)

(** The own properties of [Object.prototype] (ECMAScript, Annex B
    included): the names every object literal answers to. *)
Definition objectPrototypeKeys : list string :=
  ["constructor"; "__defineGetter__"; "__defineSetter__";
   "hasOwnProperty"; "__lookupGetter__"; "__lookupSetter__";
   "isPrototypeOf"; "propertyIsEnumerable"; "toString"; "valueOf";
   "__proto__"; "toLocaleString"].

Definition inherited (key : string) : bool :=
  bool_decide (key ∈ objectPrototypeKeys).

(** [value in otherIdentifiers], and [otherIdentifiers[value]] where it
    holds: an own property, or else a property of [Object.prototype]. *)
Definition readIdentifier (otherIdentifiers : gmap string StackType)
  (key : string) : option StackValue :=
  match otherIdentifiers !! key with
  | Some declared => Some (OfType declared)
  | None => if inherited key then Some (Inherited key) else None
  end.

(** [params[name] = ty], where [ty] is a member of [StackType], which is
    no object: for [__proto__] the assignment reaches the setter of
    [Object.prototype] and changes nothing. *)
Definition assign (name : string) (ty : StackType)
  (params : gmap string StackType) : gmap string StackType :=
  if bool_decide (name = "__proto__") && bool_decide (params !! name = None)
  then params
  else <[name := ty]> params.

(** [this.functions]: the own properties of the object, and the
    declaration its prototype was replaced by, if it was
    ([this.functions["__proto__"] = {...}]); the prototype of that
    object literal is [Object.prototype] again. *)
Record Table := {
  own : gmap string StackFunction;
  proto : option StackFunction;
}.

(** An object with these own properties and the prototype of an object
    literal. *)
Definition plain (properties : gmap string StackFunction) : Table :=
  {| own := properties; proto := None |}.

#[global] Instance Table_empty : Empty Table := plain ∅.

(** [this.functions[name] = fn]. *)
Definition setFunction (name : string) (fn : StackFunction) (t : Table)
  : Table :=
  if bool_decide (name = "__proto__") && bool_decide (own t !! name = None)
  then {| own := own t; proto := Some fn |}
  else {| own := <[name := fn]> (own t); proto := proto t |}.

(** [this.functions[name]] where it is a declaration: an own property,
    or for [__proto__] the declaration the prototype was replaced by. *)
Definition getFunction (t : Table) (name : string) : option StackFunction :=
  match own t !! name with
  | Some fn => Some fn
  | None => if bool_decide (name = "__proto__") then proto t else None
  end.

#[global] Instance Table_lookup : Lookup string StackFunction Table :=
  fun name t => getFunction t name.

(** [value in this.functions], and [this.functions[value].stack] where
    it holds ([None] inside for [undefined]).  Besides the declarations,
    the table answers to the three properties of a declaration its
    prototype was replaced by ([stack], a member of [StackType];
    [params], whose [.stack] is a parameter of that name; [body], an
    array) and to the names of [Object.prototype]. *)
Definition calleeStack (t : Table) (key : string)
  : option (option StackType) :=
  match getFunction t key with
  | Some fn => Some (Some (stack fn))
  | None =>
      match proto t with
      | Some replaced =>
          if bool_decide (key = "params")
          then Some (params replaced !! "stack")
          else if bool_decide (key ∈ ["stack"; "body"]) then Some None
          else if inherited key then Some None else None
      | None => if inherited key then Some None else None
      end
  end.

(** [declared !== stack]. *)
Definition differs (declared : option StackType) (stack : StackValue)
  : bool :=
  bool_decide (OfType <$> declared <> Some stack).

(** ** The stack-type verifier: [traverse] *)

(** What one turn of the [for (const item of program)] loop does: it
    leaves the loop with [return error], or goes on with a stack-type. *)
Inductive Step :=
| Next (stack : StackValue)
| Return (e : Error).

(** The [for ... of] loop of [traverse], over the body of one turn. *)
Definition forOf (turn : Item -> StackValue -> Step)
  : Program -> StackValue -> option Error :=
  fix loop (program : Program) (stack : StackValue) : option Error :=
    match program with
    | [] => None
    | item :: rest =>
        match turn item stack with
        | Return e => Some e
        | Next stack' => loop rest stack'
        end
    end.

Section Traverse.
(** [this.functions], the table [traverse] is bound to. *)
Variable functions : Table.
Variable otherIdentifiers : gmap string StackType.

(** An item for which ["value" in item] holds. *)
Definition traverseExpression (item : Token) (stack : StackValue) : Step :=
  match type item with
  | TokenType.Identifier =>
      let key := propKey (value item) in
      match readIdentifier otherIdentifiers key with
      | Some declared => Next declared
      | None =>
          match calleeStack functions key with
          | Some declared =>
              if differs declared stack
                 && bool_decide (declared <> Some StackType.Any)
              then Return (error (startPos item)
                             (CallNotFoundAtStack stack (value item)))
              else Next stack
          | None =>
              Return (error (startPos item)
                        (UndeclaredIdentifier (value item)))
          end
      end
  | TokenType.Keyword =>
      if value_is (value item) "int" then Next StackType.Int
      else if value_is (value item) "float" then Next StackType.Float
      else if value_is (value item) "str" then Next StackType.Str
      else if value_is (value item) "bool" then Next StackType.Bool
      else if value_is (value item) "any" then Next StackType.Any
      else Next stack
  | TokenType.Int => Next StackType.Int
  | TokenType.Float => Next StackType.Float
  | TokenType.Str => Next StackType.Str
  | TokenType.Bool => Next StackType.Bool
  | _ => Next stack
  end.

(** The body of the [for ... of] loop of [traverse]. *)
Fixpoint traverseItem (item : Item) (stack : StackValue) {struct item} : Step :=
  match item with
  | Expression e => traverseExpression e stack
  | Statement Loop block _ =>
      match forOf traverseItem block stack with
      | Some result => Return result
      | None => Next stack
      end
  | Statement ForLoop block _ =>
      match forOf traverseItem block StackType.Int with
      | Some result => Return result
      | None => Next StackType.Int
      end
  | Statement WhileLoop block _ =>
      match forOf traverseItem block StackType.Bool with
      | Some result => Return result
      | None => Next StackType.Bool
      end
  | Statement If block else_ =>
      let firstBlock := forOf traverseItem block StackType.Bool in
      match else_ with
      | Some _ =>
          (* the second walk is over [item.block] again *)
          let secondBlock := forOf traverseItem block StackType.Bool in
          match secondBlock, firstBlock with
          | Some e, _ => Return e
          | None, Some e => Return e
          | None, None => Next StackType.Bool
          end
      | None =>
          match firstBlock with
          | Some e => Return e
          | None => Next StackType.Bool
          end
      end
  end.

(** [traverse(program, otherIdentifiers, stack)]. *)
Definition traverse (program : Program) (stack : StackValue) : option Error :=
  forOf traverseItem program stack.
End Traverse.

(** ** Outcomes *)

(** The result of a method that returns [Error | A].  [Fail e] is the
    returned [Error] object (every caller hands it on at once), [Throw]
    a [TypeError] raised while reading a property of [undefined], and
    [OutOfFuel] belongs to the model only. *)
Inductive Outcome (A : Type) :=
| Ret (a : A)
| Fail (e : Error)
| Throw
| OutOfFuel.
Arguments Ret {A} a.
Arguments Fail {A} e.
Arguments Throw {A}.
Arguments OutOfFuel {A}.

(** Sequencing: anything but a value ends the method. *)
Definition bind {A B : Type} (m : Outcome A) (f : A -> Outcome B)
  : Outcome B :=
  match m with
  | Ret a => f a
  | Fail e => Fail e
  | Throw => Throw
  | OutOfFuel => OutOfFuel
  end.

Notation "x <- m ; k" := (bind m (fun x => k))
  (at level 20, m at level 100, k at level 200, only parsing).
Notation "' p <- m ; k" := (bind m (fun x => match x with p => k end))
  (at level 20, p pattern, m at level 100, k at level 200, only parsing).

(** ** The parser object *)

(** The mutable fields of [class Parser]; [tokens] never changes and is
    kept apart. *)
Record Parser := {
  pointer : Z;
  functions : Table;
  newFunctions : list string;
  program : Program;
}.

(** [new Parser(tokens, functions)]. *)
Definition newParser (functions : Table) : Parser :=
  {| pointer := 0; functions := functions; newFunctions := [];
     program := [] |}.

Definition setPointer (p : Z) (this : Parser) : Parser :=
  {| pointer := p; functions := functions this;
     newFunctions := newFunctions this; program := program this |}.

(** [this.#increment()]. *)
Definition increment (this : Parser) : Parser :=
  setPointer (pointer this + 1) this.

(** [this.pointer -= 1]. *)
Definition decrement (this : Parser) : Parser :=
  setPointer (pointer this - 1) this.

(** [this.newFunctions.push(name); this.functions[name] = fn]. *)
Definition declare (name : string) (fn : StackFunction) (this : Parser)
  : Parser :=
  {| pointer := pointer this;
     functions := setFunction name fn (functions this);
     newFunctions := newFunctions this ++ [name];
     program := program this |}.

(** [this.program = block]. *)
Definition setProgram (block : Program) (this : Parser) : Parser :=
  {| pointer := pointer this; functions := functions this;
     newFunctions := newFunctions this; program := block |}.

(** The object literals that translate a type keyword.  Both are only
    applied under a guard that lists exactly their five keys. *)
Definition paramTypeOf (v : Value) : StackType :=
  if value_is v "int" then StackType.Int
  else if value_is v "float" then StackType.Float
  else if value_is v "str" then StackType.Str
  else if value_is v "bool" then StackType.Bool
  else StackType.Any.

Definition functionTypeOf (v : Value) : StackType :=
  if value_is v "@int" then StackType.Int
  else if value_is v "@float" then StackType.Float
  else if value_is v "@str" then StackType.Str
  else if value_is v "@bool" then StackType.Bool
  else StackType.Any.

(** The [for (const fn of this.newFunctions)] loop of [#checkFunctions].
    [this.functions[fn]] is read for its [body], [params] and [stack].
    Where it is no declaration, [traverse] is entered with a [program]
    that is [undefined] (the [body] of [undefined], of a built-in
    function, of an array or of a parameter object is), or that is a
    member of [StackType] (a parameter named [body]), and its
    [for ... of], or the ["value" in item] of its first turn, raises a
    [TypeError]. *)
Fixpoint checkNewFunctions (functions : Table)
  (names : list string) : Outcome unit :=
  match names with
  | [] => Ret tt
  | fn :: rest =>
      match functions !! fn with
      | None => Throw
      | Some {| stack := stack; params := params; body := body |} =>
          match traverse functions params body stack with
          | Some posError => Fail posError
          | None => checkNewFunctions functions rest
          end
      end
  end.

(** [this.#checkFunctions()]. *)
Definition checkFunctions (this : Parser) : Outcome unit :=
  match traverse (functions this) ∅ (program this) StackType.Int with
  | Some isValidCodeError => Fail isValidCodeError
  | None => checkNewFunctions (functions this) (newFunctions this)
  end.

Section Parse.
Variable tokens : list Token.

(** [this.tokens[i]], [undefined] out of range. *)
Definition tokenAt (i : Z) : option Token :=
  if bool_decide (0 <= i) then tokens !! Z.to_nat i else None.

(** [this.#isAtEnd()]. *)
Definition isAtEnd (this : Parser) : bool :=
  bool_decide (Z.of_nat (length tokens) <= pointer this).

(** [this.#peek()].  Every caller reads a property of the result at once,
    so an [undefined] result is the [TypeError] it leads to. *)
Definition peek (this : Parser) : Outcome Token :=
  if isAtEnd this then
    match tokenAt (pointer this - 1) with
    | None => Throw
    | Some latestToken =>
        let pos := {| line := line (endPos latestToken);
                      char := char (endPos latestToken) + 1 |} in
        Ret {| type := TokenType.CloseBracket; startPos := pos;
               endPos := pos; value := VStr "" |}
    end
  else
    match tokenAt (pointer this) with
    | None => Throw
    | Some token => Ret token
    end.

(** [this.#expect(type, value?)]: the answer and the parser after the
    increment. *)
Definition expect (ty : TokenType) (val : option string) (this : Parser)
  : Outcome (bool * Parser) :=
  let this := increment this in
  if isAtEnd this then Ret (false, this)
  else
    token <- peek this;
    Ret (bool_decide (type token = ty)
         && match val with
            | None => true
            | Some v => bool_decide (v = "") || value_is (value token) v
            end,
         this).

(** [return new Error(`${this.#peek().startPos...} msg`)]. *)
Definition failAtPeek {A} (msg : Message) (this : Parser) : Outcome A :=
  token <- peek this;
  Fail (error (startPos token) msg).

(** The [while] loop that reads the parameters of a function
    declaration; it yields [params] and the parser the loop ends with. *)
Fixpoint parseParams (fuel : nat) (params : gmap string StackType)
  (this : Parser) : Outcome (gmap string StackType * Parser) :=
  match fuel with
  | O => OutOfFuel
  | S fuel =>
      if isAtEnd this then Ret (params, this)
      else
        '(closed, this) <- expect TokenType.CloseParen None this;
        if closed then Ret (params, this)
        else
          let this := decrement this in
          '(ok, this) <- expect TokenType.Identifier None this;
          if negb ok then failAtPeek ExpectedIdentifierOrParen this
          else
            token <- peek this;
            let name := propKey (value token) in
            '(colon, this) <- expect TokenType.Colon None this;
            if colon then
              let this := increment this in
              ty <- peek this;
              if bool_decide (type ty = TokenType.Keyword)
                 && includes ["int"; "str"; "float"; "bool"; "any"] (value ty)
              then parseParams fuel
                     (assign name (paramTypeOf (value ty)) params) this
              else parseParams fuel params this
            else
              let this := decrement this in
              parseParams fuel (assign name StackType.Any params) this
  end.

(** The signature of the loop of [#parseStatement]: the four flags, the
    position the block started at, the block so far, the parser. *)
Notation BlockLoop :=
  (bool -> bool -> bool -> bool -> Pos -> Program -> Parser ->
   Outcome (Program * Parser)).

(** [#parseStatement(isInRoot, isInLoop, isInIf, isInFunction)] up to its
    loop, which is [whileLoop]. *)
Definition parseStatementWith (whileLoop : BlockLoop)
  (isInRoot isInLoop isInIf isInFunction : bool) (this : Parser)
  : Outcome (Program * Parser) :=
  token <- peek this;
  let startPos := startPos token in
  let this := if negb isInRoot then increment this else this in
  whileLoop isInRoot isInLoop isInIf isInFunction startPos [] this.

(** The [while (!this.#isAtEnd())] loop of [#parseStatement] and what
    follows it.  [block] is the array built so far; a [continue] of the
    source is the recursive call; [blockPos] is the [startPos] taken
    when [#parseStatement] was entered. *)
Fixpoint whileLoop (fuel : nat)
  (isInRoot isInLoop isInIf isInFunction : bool) (blockPos : Pos)
  (block : Program) (this : Parser) {struct fuel}
  : Outcome (Program * Parser) :=
  match fuel with
  | O => OutOfFuel
  | S fuel =>
    let parseStatement := parseStatementWith (whileLoop fuel) in
    let continue :=
      whileLoop fuel isInRoot isInLoop isInIf isInFunction blockPos in
    if isAtEnd this then
      if isAtEnd this && negb isInRoot
      then Fail (error blockPos ExpectedEndingBracketPair)
      else Ret (block, this)
    else
    current <- peek this;
    if bool_decide (type current ∈
         [TokenType.OpenBracket; TokenType.CloseParen;
          TokenType.OpenParen; TokenType.Colon])
    then Fail (error (startPos current)
                 (UnexpectedCharacter (value current)))
    else if bool_decide (type current ∈
         [TokenType.Int; TokenType.Float; TokenType.Str; TokenType.Bool;
          TokenType.Identifier])
    then continue (block ++ [Expression current]) (increment this)
    else if bool_decide (type current = TokenType.CloseBracket)
    then Ret (block, increment this)
    else if bool_decide (type current = TokenType.Keyword) then
      if includes ["int"; "bool"; "str"; "float"] (value current)
      then continue (block ++ [Expression current]) (increment this)
      else if includes ["@int"; "@bool"; "@str"; "@float"; "@any"]
                (value current)
      then Fail (error (startPos current)
                   (UnexpectedReturnMarker (value current)))
      else if value_is (value current) "else"
      then Fail (error (startPos current) UnexpectedElse)
      else if value_is (value current) "any" then
        if isInFunction
        then continue (block ++ [Expression current]) (increment this)
        else Fail (error (startPos current) UnexpectedAny)
      else if value_is (value current) "break" then
        if isInLoop
        then continue (block ++ [Expression current]) (increment this)
        else Fail (error (startPos current) UnexpectedBreak)
      else if value_is (value current) "continue" then
        if isInLoop
        then continue (block ++ [Expression current]) (increment this)
        else Fail (error (startPos current) UnexpectedContinue)
      else if value_is (value current) "loop" then
        '(ok, this) <- expect TokenType.OpenBracket None this;
        if negb ok then failAtPeek ExpectedBracketAfterLoop this
        else
          '(innerBlock, this) <-
            parseStatement false isInIf isInFunction true this;
          continue (block ++ [Statement Loop innerBlock None]) this
      else if value_is (value current) "for" then
        '(ok, this) <- expect TokenType.Keyword (Some "loop") this;
        if negb ok then failAtPeek ExpectedLoopAfterFor this
        else
          '(ok, this) <- expect TokenType.OpenBracket None this;
          if negb ok then failAtPeek ExpectedBracketAfterFor this
          else
            '(innerBlock, this) <-
              parseStatement false isInIf isInFunction true this;
            continue (block ++ [Statement ForLoop innerBlock None]) this
      else if value_is (value current) "while" then
        '(ok, this) <- expect TokenType.Keyword (Some "loop") this;
        if negb ok then failAtPeek ExpectedLoopAfterWhile this
        else
          '(ok, this) <- expect TokenType.OpenBracket None this;
          if negb ok then failAtPeek ExpectedBracketAfterWhile this
          else
            '(innerBlock, this) <-
              parseStatement false isInIf isInFunction true this;
            continue (block ++ [Statement WhileLoop innerBlock None]) this
      else if value_is (value current) "if" then
        '(ok, this) <- expect TokenType.OpenBracket None this;
        if negb ok then failAtPeek ExpectedBracketAfterIf this
        else
          '(innerBlock, this) <-
            parseStatement false true isInFunction isInLoop this;
          let this := decrement this in
          '(isElse, this) <- expect TokenType.Keyword (Some "else") this;
          if isElse then
            '(ok, this) <- expect TokenType.OpenBracket None this;
            if negb ok then failAtPeek ExpectedBracketAfterElse this
            else
              '(elseBlock, this) <-
                parseStatement false true isInFunction isInLoop this;
              continue
                (block ++ [Statement If innerBlock (Some elseBlock)]) this
          else continue (block ++ [Statement If innerBlock None]) this
      else if value_is (value current) "fn" then
        if negb isInRoot
        then Fail (error (startPos current) NestedFunction)
        else
          '(ok, this) <- expect TokenType.Identifier None this;
          if negb ok then failAtPeek ExpectedIdentifierAfterFn this
          else
            identifier <- peek this;
            let name := propKey (value identifier) in
            '(ok, this) <- expect TokenType.OpenParen None this;
            if negb ok then failAtPeek ExpectedParenAfterName this
            else
              paren <- peek this;
              let parenStartPos := startPos paren in
              '(params, this) <- parseParams fuel ∅ this;
              if isAtEnd this
              then Fail (error parenStartPos ExpectedEndingParenPair)
              else
                let this := increment this in
                marker <- peek this;
                if negb (isAtEnd this)
                   && bool_decide (type marker = TokenType.Keyword)
                   && includes ["@int"; "@str"; "@float"; "@bool"; "@any"]
                        (value marker)
                then
                  let functionType := functionTypeOf (value marker) in
                  '(ok, this) <- expect TokenType.OpenBracket None this;
                  if negb ok
                  then failAtPeek ExpectedBracketAfterFunction this
                  else
                    '(innerBlock, this) <-
                      parseStatement false isInIf true isInLoop this;
                    continue block
                      (declare name
                         {| stack := functionType; params := params;
                            body := innerBlock |} this)
                else Fail (error (startPos marker)
                             ExpectedFunctionType)
      else Fail (error (startPos current)
                   (UnknownKeyword (value current)))
    else Fail (error (startPos current)
                 (UnknownToken (value current)))
  end.

(** [this.#parseStatement(isInRoot, isInLoop, isInIf, isInFunction)]. *)
Definition parseStatement (fuel : nat)
  (isInRoot isInLoop isInIf isInFunction : bool) (this : Parser)
  : Outcome (Program * Parser) :=
  parseStatementWith (whileLoop fuel)
    isInRoot isInLoop isInIf isInFunction this.

(** [this.parse()]: the parser it leaves behind, or the error.  The loop
    needs one unit of fuel for each token and one to leave. *)
Definition parse (this : Parser) : Outcome Parser :=
  '(block, this) <-
    parseStatement (S (length tokens)) true false false false this;
  let this := setProgram block this in
  _ <- checkFunctions this;
  Ret this.
End Parse.

(** The walk over the body of a declared function, as
    [#checkFunctions] starts it. *)
Definition bodyWalk (functions : Table)
  (fn : StackFunction) : option Error :=
  traverse functions (params fn) (body fn) (stack fn).

(** ** Outcomes and fuel *)

(** [m'] is what [m] is once the fuel suffices. *)
Definition approx {A : Type} (m m' : Outcome A) : Prop :=
  m = OutOfFuel \/ m = m'.

(** [m] ends within its fuel, and a value it returns satisfies [P]. *)
Definition ends {A : Type} (P : A -> Prop) (m : Outcome A) : Prop :=
  match m with
  | Ret a => P a
  | Fail _ | Throw => True
  | OutOfFuel => False
  end.

(** A computation indexed by its fuel yields [r] with some fuel. *)
Definition yields {A : Type} (c : nat -> Outcome A) (r : Outcome A) : Prop :=
  exists fuel, c fuel = r /\ r <> OutOfFuel.

(** The tokens the cursor has not passed. *)
Definition remaining (tokens : list Token) (this : Parser) : nat :=
  Z.to_nat (Z.of_nat (length tokens) - pointer this).

(** ** Token sequences with a block left open *)

(** The flags [isInLoop], [isInIf] and [isInFunction] of a call of
    [#parseStatement], in this order. *)
Notation Flags := (bool * bool * bool)%type.

(** The flags of [parse]'s call, [this.#parseStatement(true)]. *)
Definition rootFlags : Flags := (false, false, false).

(** The flags a statement parses its block with. *)
Definition nestedFlags (ty : StatementType) (isInLoop isInIf isInFunction : bool)
  : Flags :=
  match ty with
  | If => (true, isInFunction, isInLoop)
  | _ => (isInIf, isInFunction, true)
  end.

Definition nested (ty : StatementType) (c : Flags) : Flags :=
  nestedFlags ty c.1.1 c.1.2 c.2.

(** The flags a function declaration parses its body with:
    [this.#parseStatement(false, isInIf, true, isInLoop)]. *)
Definition bodyFlags (c : Flags) : Flags := (c.1.2, true, c.1.1).

(** A token that is pushed as an [Expression] whatever the flags: a
    literal, an identifier or a type-cast keyword. *)
Definition isPlain (t : Token) : bool :=
  bool_decide (type t ∈ [TokenType.Int; TokenType.Float; TokenType.Str;
                         TokenType.Bool; TokenType.Identifier])
  || bool_decide (type t = TokenType.Keyword)
     && includes ["int"; "bool"; "str"; "float"] (value t).

(** A token that is pushed as an [Expression] under the flags [c]: one
    that always is, [any] where [isInFunction] holds, [break] and
    [continue] where [isInLoop] holds. *)
Definition isPushed (c : Flags) (t : Token) : bool :=
  isPlain t
  || bool_decide (type t = TokenType.Keyword)
     && (value_is (value t) "any" && c.2
         || (value_is (value t) "break" || value_is (value t) "continue")
            && c.1.1).

(** The keyword [w]. *)
Definition isWord (w : string) (t : Token) : Prop :=
  type t = TokenType.Keyword /\ value t = VStr w.

(** The keywords that open a statement, up to the [{]. *)
Inductive Header : list Token -> StatementType -> Prop :=
| Header_loop kw :
    isWord "loop" kw -> Header [kw] Loop
| Header_for kw kw' :
    isWord "for" kw -> isWord "loop" kw' -> Header [kw; kw'] ForLoop
| Header_while kw kw' :
    isWord "while" kw -> isWord "loop" kw' -> Header [kw; kw'] WhileLoop
| Header_if kw :
    isWord "if" kw -> Header [kw] If.

(** [Block c ts p]: under the flags [c], the tokens [ts] are a sequence
    of tokens that are pushed and of statements whose blocks are all
    closed, and [p] is its tree. *)
Inductive Block : Flags -> list Token -> Program -> Prop :=
| Block_nil c :
    Block c [] []
| Block_plain c t ts p :
    isPushed c t = true -> Block c ts p ->
    Block c (t :: ts) (Expression t :: p)
| Block_statement c hdr ty ob inner pin cb ts p :
    Header hdr ty ->
    type ob = TokenType.OpenBracket -> Block (nested ty c) inner pin ->
    type cb = TokenType.CloseBracket ->
    Block c ts p ->
    Block c (hdr ++ ob :: inner ++ cb :: ts) (Statement ty pin None :: p)
| Block_if_else c kw ob inner pin cb kw' ob' inner' pin' cb' ts p :
    isWord "if" kw ->
    type ob = TokenType.OpenBracket -> Block (nested If c) inner pin ->
    type cb = TokenType.CloseBracket ->
    isWord "else" kw' ->
    type ob' = TokenType.OpenBracket -> Block (nested If c) inner' pin' ->
    type cb' = TokenType.CloseBracket ->
    Block c ts p ->
    Block c (kw :: ob :: inner ++ cb :: kw' :: ob' :: inner' ++ cb' :: ts)
      (Statement If pin (Some pin') :: p).

(** [RunsOff c outer ts pos]: under the flags [c], the tokens [ts], read
    as the rest of a block (the root for [None], the block whose [{] is
    at the given position otherwise) reach the end of the input inside a
    block that is not the root; [pos] is where the [{] of the innermost
    block left open is. *)
Inductive RunsOff : Flags -> option Pos -> list Token -> Pos -> Prop :=
| RunsOff_end c opened ts p :
    Block c ts p -> RunsOff c (Some opened) ts opened
| RunsOff_block c outer ts p hdr ty ob rest pos :
    Block c ts p -> Header hdr ty ->
    type ob = TokenType.OpenBracket ->
    RunsOff (nested ty c) (Some (startPos ob)) rest pos ->
    RunsOff c outer (ts ++ hdr ++ ob :: rest) pos
| RunsOff_else c outer ts p kw ob inner pin cb kw' ob' rest pos :
    Block c ts p -> isWord "if" kw ->
    type ob = TokenType.OpenBracket -> Block (nested If c) inner pin ->
    type cb = TokenType.CloseBracket ->
    isWord "else" kw' ->
    type ob' = TokenType.OpenBracket ->
    RunsOff (nested If c) (Some (startPos ob')) rest pos ->
    RunsOff c outer
      (ts ++ kw :: ob :: inner ++ cb :: kw' :: ob' :: rest) pos.

(** A return-type marker, [@int] ... [@any]. *)
Definition isMarker (t : Token) : Prop :=
  type t = TokenType.Keyword
  /\ includes ["@int"; "@str"; "@float"; "@bool"; "@any"] (value t) = true.

(** [ParamTokens ts m m']: the tokens [ts] are parameters, each a name
    or a name, a colon and one more token; read from left to right they
    turn the parameters [m] into [m'].  The token behind a colon gives
    the type if it is a type keyword; any other token is passed over and
    the name is not recorded. *)
Inductive ParamTokens
  : list Token -> gmap string StackType -> gmap string StackType -> Prop :=
| Params_nil m :
    ParamTokens [] m m
| Params_bare x ts m m' :
    type x = TokenType.Identifier ->
    ParamTokens ts (assign (propKey (value x)) StackType.Any m) m' ->
    ParamTokens (x :: ts) m m'
| Params_typed x c ty ts m m' :
    type x = TokenType.Identifier ->
    type c = TokenType.Colon ->
    type ty = TokenType.Keyword ->
    includes ["int"; "str"; "float"; "bool"; "any"] (value ty) = true ->
    ParamTokens ts (assign (propKey (value x)) (paramTypeOf (value ty)) m)
      m' ->
    ParamTokens (x :: c :: ty :: ts) m m'
| Params_untyped x c other ts m m' :
    type x = TokenType.Identifier ->
    type c = TokenType.Colon ->
    bool_decide (type other = TokenType.Keyword)
    && includes ["int"; "str"; "float"; "bool"; "any"] (value other)
    = false ->
    ParamTokens ts m m' ->
    ParamTokens (x :: c :: other :: ts) m m'.

(** [this.newFunctions.push; this.functions[name] = ...], for each. *)
Definition declareAll (decls : list (string * StackFunction))
  (this : Parser) : Parser :=
  fold_left (fun this d => declare d.1 d.2 this) decls this.

(** [Toplevel ts p decls]: the tokens [ts] are, at the root, a sequence
    of tokens that are pushed, of statements whose blocks are closed and
    of function declarations whose bodies are closed; [p] is the tree of
    the root program and [decls] are the functions declared, in
    order. *)
Inductive Toplevel
  : list Token -> Program -> list (string * StackFunction) -> Prop :=
| Toplevel_nil :
    Toplevel [] [] []
| Toplevel_block ts p rest q decls :
    Block rootFlags ts p -> Toplevel rest q decls ->
    Toplevel (ts ++ rest) (p ++ q) decls
| Toplevel_fn kw name op ps m cp marker ob inner pin cb rest q decls :
    isWord "fn" kw ->
    type name = TokenType.Identifier ->
    type op = TokenType.OpenParen ->
    ParamTokens ps ∅ m ->
    type cp = TokenType.CloseParen ->
    isMarker marker ->
    type ob = TokenType.OpenBracket ->
    Block (bodyFlags rootFlags) inner pin ->
    type cb = TokenType.CloseBracket ->
    Toplevel rest q decls ->
    Toplevel
      (kw :: name :: op :: ps ++ cp :: marker :: ob :: inner ++ cb :: rest)
      q
      ((propKey (value name),
        {| stack := functionTypeOf (value marker); params := m;
           body := pin |}) :: decls).

(** A token sequence with an unmatched [{]: statements and function
    declarations that are read to their end, then a statement or a
    function declaration whose block is still open, possibly with
    further open blocks in it, when the input ends.  [pos] is where the
    [{] of the innermost open block is. *)
Inductive Unclosed : list Token -> Pos -> Prop :=
| Unclosed_statement pre q decls rest pos :
    Toplevel pre q decls -> RunsOff rootFlags None rest pos ->
    Unclosed (pre ++ rest) pos
| Unclosed_fn pre q decls kw name op ps m cp marker ob rest pos :
    Toplevel pre q decls ->
    isWord "fn" kw ->
    type name = TokenType.Identifier ->
    type op = TokenType.OpenParen ->
    ParamTokens ps ∅ m ->
    type cp = TokenType.CloseParen ->
    isMarker marker ->
    type ob = TokenType.OpenBracket ->
    RunsOff (bodyFlags rootFlags) (Some (startPos ob)) rest pos ->
    Unclosed (pre ++ kw :: name :: op :: ps ++ cp :: marker :: ob :: rest)
      pos.

(** What the [if] branch does once its block is parsed: it looks for an
    [else], parses its block if there is one, and goes on. *)
Definition ifTail (tokens : list Token)
  (loop : bool -> bool -> bool -> bool -> Pos -> Program -> Parser ->
          Outcome (Program * Parser))
  (isInRoot isInLoop isInIf isInFunction : bool) (blockPos : Pos)
  (block : Program) (parsed : Program * Parser)
  : Outcome (Program * Parser) :=
  let '(innerBlock, this) := parsed in
  let this := decrement this in
  '(isElse, this) <- expect tokens TokenType.Keyword (Some "else") this;
  if isElse then
    '(ok, this) <- expect tokens TokenType.OpenBracket None this;
    if negb ok then failAtPeek tokens ExpectedBracketAfterElse this
    else
      '(elseBlock, this) <-
        parseStatementWith tokens loop false true isInFunction isInLoop this;
      loop isInRoot isInLoop isInIf isInFunction blockPos
        (block ++ [Statement If innerBlock (Some elseBlock)]) this
  else loop isInRoot isInLoop isInIf isInFunction blockPos
         (block ++ [Statement If innerBlock None]) this.

(** The tokens from position [p] on. *)
Definition suffixAt (tokens : list Token) (p : Z) : list Token :=
  drop (Z.to_nat p) tokens.

(** [derives tokens r c blockPos block this res]: what a result [res] of
    the loop of a call of [#parseStatement] says of the tokens from the
    cursor of [this] on.  A block that a call other than the root
    returns was read up to its [}]; the error of a block left open comes
    with tokens that run off the end of the input. *)
Definition derives (tokens : list Token) (r : bool) (c : Flags)
  (blockPos : Pos) (block : Program) (this : Parser)
  (res : Outcome (Program * Parser)) : Prop :=
  match res with
  | Ret (block', this') =>
      r = false ->
      exists ts p cb,
        suffixAt tokens (pointer this)
        = ts ++ cb :: suffixAt tokens (pointer this')
        /\ type cb = TokenType.CloseBracket
        /\ Block c ts p
        /\ block' = block ++ p
  | Fail e =>
      message e = ExpectedEndingBracketPair ->
      if r then
        c = rootFlags -> Unclosed (suffixAt tokens (pointer this)) (at_ e)
      else
        RunsOff c (Some blockPos) (suffixAt tokens (pointer this)) (at_ e)
  | Throw | OutOfFuel => True
  end.

(** ** Sample inputs *)

(** A token on line [l], from column [c] to column [c']. *)
Definition token (ty : TokenType) (v : Value) (l c c' : Z) : Token :=
  {| type := ty; startPos := {| line := l; char := c |};
     endPos := {| line := l; char := c' |}; value := v |}.

Definition keyword (s : string) := token TokenType.Keyword (VStr s).
Definition identifier (s : string) := token TokenType.Identifier (VStr s).
Definition int (n : string) := token TokenType.Int (VNum n).
Definition openBracket := token TokenType.OpenBracket (VStr "{").
Definition closeBracket := token TokenType.CloseBracket (VStr "}").
Definition openParen := token TokenType.OpenParen (VStr "(").
Definition closeParen := token TokenType.CloseParen (VStr ")").
Definition colon := token TokenType.Colon (VStr ":").

(** [if { } else { x }] *)
Definition if_else_undeclared : list Token :=
  [keyword "if" 1 1 2; openBracket 1 4 4; closeBracket 1 6 6;
   keyword "else" 1 8 11; openBracket 1 13 13; identifier "x" 1 15 15;
   closeBracket 1 17 17].

(** [loop { break }], [for loop { continue }] and
    [fn f ( ) @any { any }] *)
Definition loop_break : list Token :=
  [keyword "loop" 1 1 4; openBracket 1 6 6; keyword "break" 1 8 12;
   closeBracket 1 14 14].

Definition for_loop_continue : list Token :=
  [keyword "for" 1 1 3; keyword "loop" 1 5 8; openBracket 1 10 10;
   keyword "continue" 1 12 19; closeBracket 1 21 21].

Definition fn_any : list Token :=
  [keyword "fn" 1 1 2; identifier "f" 1 4 4; openParen 1 5 5;
   closeParen 1 6 6; keyword "@any" 1 8 11; openBracket 1 13 13;
   keyword "any" 1 15 17; closeBracket 1 19 19].

(** [if { break }] *)
Definition if_break : list Token :=
  [keyword "if" 1 1 2; openBracket 1 4 4; keyword "break" 1 6 10;
   closeBracket 1 12 12].

(** [1 } 2] *)
Definition stray_bracket : list Token :=
  [int "1" 1 1 1; closeBracket 1 3 3; int "2" 1 5 5].

(** [fn f ( a : 5 ) @int { }] *)
Definition untyped_parameter : list Token :=
  [keyword "fn" 1 1 2; identifier "f" 1 4 4; openParen 1 6 6;
   identifier "a" 1 8 8; colon 1 10 10; int "5" 1 12 12;
   closeParen 1 14 14; keyword "@int" 1 16 19; openBracket 1 21 21;
   closeBracket 1 23 23].

(** [fn f ( a : 5 ) @int { a }] *)
Definition untyped_parameter_used : list Token :=
  [keyword "fn" 1 1 2; identifier "f" 1 4 4; openParen 1 6 6;
   identifier "a" 1 8 8; colon 1 10 10; int "5" 1 12 12;
   closeParen 1 14 14; keyword "@int" 1 16 19; openBracket 1 21 21;
   identifier "a" 1 23 23; closeBracket 1 25 25].

(** [loop { 1 if { 2] *)
Definition unterminated : list Token :=
  [keyword "loop" 1 1 4; openBracket 1 6 6; int "1" 1 8 8;
   keyword "if" 1 10 11; openBracket 1 13 13; int "2" 1 15 15].

(** [loop { any if { break] *)
Definition unterminated_contextual : list Token :=
  [keyword "loop" 1 1 4; openBracket 1 6 6; keyword "any" 1 8 10;
   keyword "if" 1 12 13; openBracket 1 15 15; keyword "break" 1 17 21].

(** [fn f ( a : 5 ) @int { 1] *)
Definition unterminated_untyped : list Token :=
  [keyword "fn" 1 1 2; identifier "f" 1 4 4; openParen 1 6 6;
   identifier "a" 1 8 8; colon 1 10 10; int "5" 1 12 12;
   closeParen 1 14 14; keyword "@int" 1 16 19; openBracket 1 21 21;
   int "1" 1 23 23].

(** [fn f ( a b : int ) @int { a] *)
Definition unterminated_fn : list Token :=
  [keyword "fn" 1 1 2; identifier "f" 1 4 4; openParen 1 6 6;
   identifier "a" 1 8 8; identifier "b" 1 10 10; colon 1 12 12;
   keyword "int" 1 14 16; closeParen 1 18 18; keyword "@int" 1 20 23;
   openBracket 1 25 25; identifier "a" 1 27 27].

(** [toString] *)
Definition inherited_identifier : list Token :=
  [identifier "toString" 1 1 8].

(** [fn toString ( ) @int { } fn neg ( ) @int { } 1 toString neg], and
    the same without the call of [toString]. *)
Definition inherited_call : list Token :=
  [keyword "fn" 1 1 2; identifier "toString" 1 4 11; openParen 1 13 13;
   closeParen 1 15 15; keyword "@int" 1 17 20; openBracket 1 22 22;
   closeBracket 1 24 24;
   keyword "fn" 2 1 2; identifier "neg" 2 4 6; openParen 2 8 8;
   closeParen 2 10 10; keyword "@int" 2 12 15; openBracket 2 17 17;
   closeBracket 2 19 19;
   int "1" 3 1 1; identifier "toString" 3 3 10; identifier "neg" 3 12 14].

Definition plain_call : list Token :=
  [keyword "fn" 1 1 2; identifier "toString" 1 4 11; openParen 1 13 13;
   closeParen 1 15 15; keyword "@int" 1 17 20; openBracket 1 22 22;
   closeBracket 1 24 24;
   keyword "fn" 2 1 2; identifier "neg" 2 4 6; openParen 2 8 8;
   closeParen 2 10 10; keyword "@int" 2 12 15; openBracket 2 17 17;
   closeBracket 2 19 19;
   int "1" 3 1 1; identifier "neg" 3 12 14].

(** A function of [Int] stacks. *)
Definition intFunction : StackFunction :=
  {| stack := StackType.Int; params := ∅; body := [] |}.

(** A table with one function that takes any stack. *)
Definition anyTable : Table :=
  plain {[ "drop" := {| stack := StackType.Any; params := ∅; body := [] |} ]}.

(** ** The vocabulary of the further properties *)

(** [m] does not throw, and a value it returns satisfies [P]. *)
Definition safe {A : Type} (P : A -> Prop) (m : Outcome A) : Prop :=
  match m with
  | Ret a => P a
  | Throw => False
  | Fail _ | OutOfFuel => True
  end.

(** The cursor is on a token or just behind the last one. *)
Definition inRange (tokens : list Token) (this : Parser) : Prop :=
  0 <= pointer this <= Z.of_nat (length tokens).

(** A value that [m] returns satisfies [P]. *)
Definition post {A : Type} (P : A -> Prop) (m : Outcome A) : Prop :=
  match m with
  | Ret a => P a
  | Fail _ | Throw | OutOfFuel => True
  end.

(** What the parser holds besides its cursor. *)
Definition table (this : Parser)
  : Table * list string * Program :=
  (functions this, newFunctions this, program this).

(** [grows t t']: from [t] to [t'] names were added to [newFunctions],
    [functions[name]] is a declaration for each of them, the own
    properties of [functions] are the same at every other name, and its
    prototype is the same unless [__proto__] is one of the names. *)
Definition grows (t t' : Table * list string * Program) : Prop :=
  t'.2 = t.2
  /\ exists added,
       t'.1.2 = t.1.2 ++ added
       /\ (forall n, n ∉ added -> own t'.1.1 !! n = own t.1.1 !! n)
       /\ ("__proto__" ∉ added -> proto t'.1.1 = proto t.1.1)
       /\ (forall n, n ∈ added -> is_Some (t'.1.1 !! n)).

(** The [Expression]s of a tree, from left to right, those of [else]
    blocks included. *)
Fixpoint expressionsOfItem (item : Item) : list Token :=
  match item with
  | Expression e => [e]
  | Statement _ block else_ =>
      flat_map expressionsOfItem block
      ++ match else_ with
         | Some elseBlock => flat_map expressionsOfItem elseBlock
         | None => []
         end
  end.

Definition expressionsOf (p : Program) : list Token :=
  flat_map expressionsOfItem p.

(** The tokens from position [p] up to position [q]. *)
Definition window (tokens : list Token) (p q : Z) : list Token :=
  take (Z.to_nat (q - p)) (drop (Z.to_nat p) tokens).

(** [reads tokens block this r]: the block of [r] is [block] with more
    expressions, which are tokens between the cursor of [this] and that
    of [r], in their order. *)
Definition reads (tokens : list Token) (block : Program) (this : Parser)
  (r : Program * Parser) : Prop :=
  pointer this <= pointer r.2
  /\ exists es, expressionsOf r.1 = expressionsOf block ++ es
                /\ es `sublist_of` window tokens (pointer this) (pointer r.2).

(** [Reaches ts nested]: after the tokens [ts] the cursor is at the root
    behind well-formed statements and declarations ([nested = false]),
    or inside a block that was opened behind them and is not closed
    ([nested = true]). *)
Inductive Reaches : list Token -> bool -> Prop :=
| Reaches_root pre q decls :
    Toplevel pre q decls -> Reaches pre false
| Reaches_nested pre q decls d pos :
    Toplevel pre q decls -> RunsOff rootFlags None d pos ->
    Reaches (pre ++ d) true.

(** The keywords the loop of [#parseStatement] knows. *)
Definition knownKeywords : list string :=
  ["int"; "bool"; "str"; "float"; "@int"; "@bool"; "@str"; "@float";
   "@any"; "else"; "any"; "break"; "continue"; "loop"; "for"; "while";
   "if"; "fn"].

(** [Rejected t msg]: the token [t] is refused wherever a statement is
    expected, whatever the flags, with the message [msg]: punctuation
    other than [}], a return-type marker, a keyword that is not one of
    the language. *)
Inductive Rejected : Token -> Message -> Prop :=
| Rejected_punctuation t :
    type t ∈ [TokenType.OpenBracket; TokenType.CloseParen;
              TokenType.OpenParen; TokenType.Colon] ->
    Rejected t (UnexpectedCharacter (value t))
| Rejected_marker t :
    isMarker t -> Rejected t (UnexpectedReturnMarker (value t))
| Rejected_unknown t :
    type t = TokenType.Keyword ->
    includes knownKeywords (value t) = false ->
    Rejected t (UnknownKeyword (value t)).

(** The position [#peek] gives behind the tokens [before]: that of the
    next token, or one column past the end of the last token. *)
Definition nextPos (before rest : list Token) : Pos :=
  match rest with
  | u :: _ => startPos u
  | [] =>
      match last before with
      | Some t => {| line := line (endPos t); char := char (endPos t) + 1 |}
      | None => {| line := 0; char := 0 |}
      end
  end.

(** The error of a statement whose [{] is missing. *)
Definition bracketMessage (ty : StatementType) : Message :=
  match ty with
  | Loop => ExpectedBracketAfterLoop
  | ForLoop => ExpectedBracketAfterFor
  | WhileLoop => ExpectedBracketAfterWhile
  | If => ExpectedBracketAfterIf
  end.

(** What an error of the verifier says of a token: it is an identifier
    that [otherIdentifiers] does not answer to, the error is at it, and
    either the table does not answer to it, or what the table answers
    has a [stack] other than the current one and than [Any]. *)
Definition blames (fs : Table)
  (otherIdentifiers : gmap string StackType) (e : Error) (t : Token)
  : Prop :=
  type t = TokenType.Identifier
  /\ readIdentifier otherIdentifiers (propKey (value t)) = None
  /\ at_ e = startPos t
  /\ match calleeStack fs (propKey (value t)) with
     | None => message e = UndeclaredIdentifier (value t)
     | Some declared =>
         exists current : StackValue,
           message e = CallNotFoundAtStack current (value t)
           /\ OfType <$> declared <> Some current
           /\ declared <> Some StackType.Any
     end.

(** [fs'] answers as [fs] does wherever [fs] answers. *)
Definition extends (fs fs' : Table) : Prop :=
  forall key declared,
    calleeStack fs key = Some declared ->
    calleeStack fs' key = Some declared.

(** [loop { )] *)
Definition loop_paren : list Token :=
  [keyword "loop" 1 1 4; openBracket 1 6 6; closeParen 1 8 8].

(** [1 if 2] *)
Definition if_alone : list Token :=
  [int "1" 1 1 1; keyword "if" 1 3 4; int "2" 1 6 6].

(** [loop { fn] *)
Definition loop_fn : list Token :=
  [keyword "loop" 1 1 4; openBracket 1 6 6; keyword "fn" 1 8 9].

(** [fn f ( ) @int { 1 } f], and the parser [parse] returns on it. *)
Definition fn_then_call : list Token :=
  [keyword "fn" 1 1 2; identifier "f" 1 4 4; openParen 1 5 5;
   closeParen 1 6 6; keyword "@int" 1 8 11; openBracket 1 13 13;
   int "1" 1 15 15; closeBracket 1 17 17; identifier "f" 1 19 19].

Definition fn_then_call_parsed : Parser :=
  {| pointer := 9;
     functions :=
       plain {[ "f" := {| stack := StackType.Int; params := ∅;
                          body := [Expression (int "1" 1 15 15)] |} ]};
     newFunctions := ["f"];
     program := [Expression (identifier "f" 1 19 19)] |}.

(** [fn f ( __proto__ : int a ) @int { a } f], and the parser [parse]
    returns on it: [__proto__] is no parameter of [f]. *)
Definition fn_proto_param : list Token :=
  [keyword "fn" 1 1 2; identifier "f" 1 4 4; openParen 1 6 6;
   identifier "__proto__" 1 8 16; colon 1 18 18; keyword "int" 1 20 22;
   identifier "a" 1 24 24; closeParen 1 26 26; keyword "@int" 1 28 31;
   openBracket 1 33 33; identifier "a" 1 35 35; closeBracket 1 37 37;
   identifier "f" 1 39 39].

Definition fn_proto_param_parsed : Parser :=
  {| pointer := 13;
     functions :=
       plain {[ "f" := {| stack := StackType.Int;
                          params := {[ "a" := StackType.Any ]};
                          body := [Expression (identifier "a" 1 35 35)] |} ]};
     newFunctions := ["f"];
     program := [Expression (identifier "f" 1 39 39)] |}.

(** [fn __proto__ ( ) @int { }], and the parser [parse] returns on it:
    the table has no own property, and the declaration is its
    prototype. *)
Definition fn_proto : list Token :=
  [keyword "fn" 1 1 2; identifier "__proto__" 1 4 12; openParen 1 14 14;
   closeParen 1 16 16; keyword "@int" 1 18 21; openBracket 1 23 23;
   closeBracket 1 25 25].

Definition fn_proto_parsed : Parser :=
  {| pointer := 7;
     functions := {| own := ∅; proto := Some intFunction |};
     newFunctions := ["__proto__"];
     program := [] |}.

(** [if { 1 } else { 2 }] behind a [{], and its tree. *)
Definition block_if_else : list Token :=
  [openBracket 1 1 1; keyword "if" 1 3 4; openBracket 1 6 6;
   int "1" 1 8 8; closeBracket 1 10 10; keyword "else" 1 12 15;
   openBracket 1 17 17; int "2" 1 19 19; closeBracket 1 21 21;
   closeBracket 1 23 23].

Definition block_if_else_tree : Program :=
  [Statement If [Expression (int "1" 1 8 8)]
     (Some [Expression (int "2" 1 19 19)])].

(** A table with one function of floats. *)
Definition floatTable : Table :=
  plain {[ "neg" := {| stack := StackType.Float; params := ∅; body := [] |} ]}.

(** What [#expect(type, value?)] answers when the tokens [rest] are
    behind the cursor. *)
Definition follows (ty : TokenType) (val : option string)
  (rest : list Token) : bool :=
  match rest with
  | u :: _ =>
      bool_decide (type u = ty)
      && match val with
         | None => true
         | Some v => bool_decide (v = "") || value_is (value u) v
         end
  | [] => false
  end.

(** [Misses root hdr rest msg]: the tokens [hdr] start a statement or, at
    the root, a function declaration, and the tokens [rest] behind them
    do not go on with it; [msg] is the error. *)
Inductive Misses : bool -> list Token -> list Token -> Message -> Prop :=
| Misses_for root kw rest :
    isWord "for" kw ->
    follows TokenType.Keyword (Some "loop") rest = false ->
    Misses root [kw] rest ExpectedLoopAfterFor
| Misses_while root kw rest :
    isWord "while" kw ->
    follows TokenType.Keyword (Some "loop") rest = false ->
    Misses root [kw] rest ExpectedLoopAfterWhile
| Misses_name kw rest :
    isWord "fn" kw ->
    follows TokenType.Identifier None rest = false ->
    Misses true [kw] rest ExpectedIdentifierAfterFn
| Misses_paren kw name rest :
    isWord "fn" kw ->
    type name = TokenType.Identifier ->
    follows TokenType.OpenParen None rest = false ->
    Misses true [kw; name] rest ExpectedParenAfterName.

(** The error of a keyword outside of its context. *)
Definition contextMessage (word : string) : Message :=
  if bool_decide (word = "any") then UnexpectedAny
  else if bool_decide (word = "break") then UnexpectedBreak
  else UnexpectedContinue.

(** [for 1] *)
Definition for_alone : list Token :=
  [keyword "for" 1 1 3; int "1" 1 5 5].

(** [1 continue] *)
Definition root_continue : list Token :=
  [int "1" 1 1 1; keyword "continue" 1 3 10].

(** [1 else] *)
Definition stray_else : list Token :=
  [int "1" 1 1 1; keyword "else" 1 3 6].

(* ================================================================== *)
(** * Properties *)

(** ** The verifier *)

Section Verifier.
Context (functions : Table).
Context (otherIdentifiers : gmap string StackType).

Lemma traverse_nil stack :
  traverse functions otherIdentifiers [] stack = None.
Proof. reflexivity. Qed.

(** One turn of the loop, then the rest of the program. *)
Lemma traverse_cons item rest stack :
  traverse functions otherIdentifiers (item :: rest) stack =
  match traverseItem functions otherIdentifiers item stack with
  | Return e => Some e
  | Next stack' => traverse functions otherIdentifiers rest stack'
  end.
Proof. reflexivity. Qed.


(** The walk over an [If] with an [else] never looks at the [else]
    block. *)
Lemma traverseItem_else_irrelevant (block els els' : Program) stack :
  traverseItem functions otherIdentifiers
    (Statement If block (Some els)) stack =
  traverseItem functions otherIdentifiers
    (Statement If block (Some els')) stack.
Proof. reflexivity. Qed.

(** [declared !== stack && declared !== StackType.Any] is false exactly
    when [declared] is the current stack-type or [Any]. *)
Lemma differs_accepts (declared : option StackType) (current : StackValue) :
  differs declared current && bool_decide (declared <> Some StackType.Any)
  = false
  <-> OfType <$> declared = Some current \/ declared = Some StackType.Any.
Proof.
  unfold differs. rewrite andb_false_iff, !bool_decide_eq_false.
  split; (intros [H|H]; [left|right]);
    first [by apply dec_stable|by intros ?].
Qed.

(** The turn of the loop for an identifier token, in one equation:
    [otherIdentifiers] is asked first, then the table. *)
Lemma identifier_rule (item : Token) (current : StackValue)
  (Hid : type item = TokenType.Identifier) :
  let name := propKey (value item) in
  match readIdentifier otherIdentifiers name, calleeStack functions name with
  | Some declared, _ =>
      traverseItem functions otherIdentifiers (Expression item) current
      = Next declared
  | None, Some declared =>
      if decide (OfType <$> declared = Some current
                 \/ declared = Some StackType.Any)
      then traverseItem functions otherIdentifiers (Expression item) current
           = Next current
      else traverseItem functions otherIdentifiers (Expression item) current
           = Return (error (startPos item)
                       (CallNotFoundAtStack current (value item)))
  | None, None =>
      traverseItem functions otherIdentifiers (Expression item) current
      = Return (error (startPos item) (UndeclaredIdentifier (value item)))
  end.
Proof.
  intros name. cbn [traverseItem]. unfold traverseExpression.
  rewrite Hid. cbn zeta. fold name.
  destruct (readIdentifier otherIdentifiers name); [reflexivity|].
  destruct (calleeStack functions name) as [declared|]; [|reflexivity].
  destruct (decide _) as [Hok|Hno].
  - by rewrite (proj2 (differs_accepts declared current) Hok).
  - destruct (differs declared current
              && bool_decide (declared <> Some StackType.Any)) eqn:Htest;
      [reflexivity|].
    by apply differs_accepts in Htest.
Qed.

(** A call that the table answers and that is accepted leaves the
    stack-type as it was: the declared type of the function called does
    not replace it. *)
Lemma call_keeps_stack_type (item : Token) (current after : StackValue)
  (Hid : type item = TokenType.Identifier)
  (Hparam : readIdentifier otherIdentifiers (propKey (value item)) = None)
  (Hok : traverseItem functions otherIdentifiers (Expression item) current
         = Next after) :
  after = current.
Proof.
  pose proof (identifier_rule item current Hid) as Hrule.
  cbn zeta in Hrule. rewrite Hparam in Hrule.
  destruct (calleeStack functions _); [|congruence].
  destruct (decide _); congruence.
Qed.
End Verifier.

(** *** Where each walk starts *)

Lemma checkNewFunctions_cons functions fn rest decl :
  functions !! fn = Some decl ->
  checkNewFunctions functions (fn :: rest) =
  match bodyWalk functions decl with
  | Some posError => Fail posError
  | None => checkNewFunctions functions rest
  end.
Proof. intros H. cbn. rewrite H. destruct decl. reflexivity. Qed.

Lemma checkNewFunctions_Ret functions names :
  checkNewFunctions functions names = Ret tt <->
  Forall (fun fn => exists decl, functions !! fn = Some decl
                    /\ bodyWalk functions decl = None) names.
Proof.
  induction names as [|fn rest IH]; [by split; [constructor|] |].
  destruct (functions !! fn) as [decl|] eqn:Hfn.
  - rewrite (checkNewFunctions_cons _ _ _ _ Hfn), Forall_cons.
    destruct (bodyWalk functions decl) as [e|] eqn:Hwalk.
    + split; [discriminate|]. intros [(d & Hd & Hnone) _]. congruence.
    + rewrite IH. split; [|tauto]. intros H. split; [eauto|exact H].
  - cbn. rewrite Hfn. split; [discriminate|].
    intros H. apply Forall_cons in H as [(d & Hd & _) _]. congruence.
Qed.

Lemma checkNewFunctions_Fail functions names e :
  checkNewFunctions functions names = Fail e <->
  exists before fn decl rest,
    names = before ++ fn :: rest
    /\ checkNewFunctions functions before = Ret tt
    /\ functions !! fn = Some decl
    /\ bodyWalk functions decl = Some e.
Proof.
  induction names as [|fn rest IH].
  - split; [discriminate|]. intros (b & ? & ? & ? & H & _).
    by destruct b.
  - destruct (functions !! fn) as [decl|] eqn:Hfn.
    + rewrite (checkNewFunctions_cons _ _ _ _ Hfn).
      destruct (bodyWalk functions decl) as [e'|] eqn:Hwalk.
      * split.
        -- intros [= ->]. by exists [], fn, decl, rest.
        -- intros ([|fn' b] & fn2 & d & r & Heq & Hb & Hd & Hw);
             injection Heq as -> ->.
           ++ congruence.
           ++ rewrite (checkNewFunctions_cons _ _ _ _ Hfn), Hwalk in Hb.
              discriminate.
      * rewrite IH. split.
        -- intros (b & fn2 & d & r & -> & Hb & Hd & Hw).
           exists (fn :: b), fn2, d, r. split; [reflexivity|].
           by rewrite (checkNewFunctions_cons _ _ _ _ Hfn), Hwalk.
        -- intros ([|fn' b] & fn2 & d & r & Heq & Hb & Hd & Hw);
             injection Heq as -> ->; [congruence|].
           exists b, fn2, d, r. split; [reflexivity|].
           rewrite (checkNewFunctions_cons _ _ _ _ Hfn), Hwalk in Hb.
           by split.
    + cbn. rewrite Hfn. split; [discriminate|].
      intros ([|fn' b] & fn2 & d & r & Heq & Hb & Hd & Hw);
        injection Heq as -> ->; [congruence|].
      cbn in Hb. by rewrite Hfn in Hb.
Qed.

(** C4.  [#checkFunctions] walks the root program from stack-type [Int]
    with the empty identifier context, and the body of each newly
    declared function from that function's declared type with that
    function's own parameters: it succeeds exactly when all these walks
    do, and it returns an error exactly when that error is the root
    walk's, or the root walk and the walks of the functions declared
    before succeed and the error is the walk's of the next function. *)
Theorem checkFunctions_walks (this : Parser) :
  (checkFunctions this = Ret tt <->
     traverse (functions this) ∅ (program this) StackType.Int = None
     /\ Forall (fun fn => exists decl,
                  functions this !! fn = Some decl
                  /\ traverse (functions this) (params decl) (body decl)
                       (stack decl) = None)
          (newFunctions this))
  /\ (forall e, checkFunctions this = Fail e <->
       traverse (functions this) ∅ (program this) StackType.Int = Some e
       \/ (traverse (functions this) ∅ (program this) StackType.Int = None
           /\ exists before fn decl rest,
               newFunctions this = before ++ fn :: rest
               /\ checkNewFunctions (functions this) before = Ret tt
               /\ functions this !! fn = Some decl
               /\ traverse (functions this) (params decl) (body decl)
                    (stack decl) = Some e)).
Proof.
  unfold checkFunctions.
  destruct (traverse (functions this) ∅ (program this) StackType.Int)
    as [e0|].
  - split; [split; [discriminate|intros [? _]; discriminate]|].
    intros e. split.
    + intros [= ->]. by left.
    + intros [[= ->]|[? _]]; [reflexivity|discriminate].
  - split.
    + rewrite checkNewFunctions_Ret. unfold bodyWalk. tauto.
    + intros e. rewrite checkNewFunctions_Fail. unfold bodyWalk.
      split; [by right|]. intros [?|[_ H]]; [discriminate|exact H].
Qed.

(** At the call of [drop], declared for [Any], on an [Int] stack: the
    stack-type stays [Int] and does not become the [Any] that [drop]
    declares. *)
Lemma call_of_drop :
  traverseItem anyTable ∅ (Expression (identifier "drop" 1 1 4))
    StackType.Int = Next StackType.Int.
Proof. reflexivity. Qed.

(** A [for loop] on a [Float] stack whose body calls a function of
    floats: the body is verified from [Int], and the call is refused;
    the same call behind the loop is refused too, the loop having left
    [Int]. *)
Lemma for_loop_from_int :
  traverseItem floatTable ∅
    (Statement ForLoop [Expression (identifier "neg" 1 12 14)] None)
    StackType.Float
  = Return (error {| line := 1; char := 12 |}
              (CallNotFoundAtStack StackType.Int (VStr "neg")))
  /\ traverse floatTable ∅
       [Statement ForLoop [] None; Expression (identifier "neg" 1 14 16)]
       StackType.Float
     = Some (error {| line := 1; char := 14 |}
               (CallNotFoundAtStack StackType.Int (VStr "neg"))).
Proof. split; vm_compute; reflexivity. Qed.

(** C6.  [toString] names no parameter and no function, yet it is no
    undeclared identifier: [value in otherIdentifiers] holds of every
    name of [Object.prototype], so the turn takes the parameter branch,
    reports nothing and leaves a stack-type that is no type; the whole
    program is accepted.  A name the prototype does not have is
    reported. *)
Theorem inherited_identifier_accepted :
  traverseItem ∅ ∅ (Expression (identifier "toString" 1 1 8)) StackType.Int
  = Next (Inherited "toString")
  /\ parse inherited_identifier (newParser ∅)
     = Ret {| pointer := 1; functions := ∅; newFunctions := [];
              program := [Expression (identifier "toString" 1 1 8)] |}
  /\ traverseItem ∅ ∅ (Expression (identifier "tostring" 1 1 8))
       StackType.Int
     = Return (error {| line := 1; char := 1 |}
                 (UndeclaredIdentifier (VStr "tostring"))).
Proof. repeat split; vm_compute; reflexivity. Qed.

(** C7.  [toString] is declared as a function of [Int] stacks, and its
    call on an [Int] stack does not leave [Int]: the name is answered
    by the prototype of [otherIdentifiers] before the table is asked,
    and the stack-type becomes the built-in function.  The call of
    [neg] behind it, a function of [Int] stacks too, is refused, where
    without the call of [toString] the program is accepted. *)
Theorem inherited_call_replaces_stack :
  plain {[ "toString" := intFunction ]} !! "toString" = Some intFunction
  /\ traverseItem (plain {[ "toString" := intFunction ]}) ∅
       (Expression (identifier "toString" 3 3 10)) StackType.Int
     = Next (Inherited "toString")
  /\ parse inherited_call (newParser ∅)
     = Fail (error {| line := 3; char := 12 |}
               (CallNotFoundAtStack (Inherited "toString") (VStr "neg")))
  /\ parse plain_call (newParser ∅)
     = Ret {| pointer := 16;
              functions := plain {[ "toString" := intFunction;
                                    "neg" := intFunction ]};
              newFunctions := ["toString"; "neg"];
              program := [Expression (int "1" 3 1 1);
                          Expression (identifier "neg" 3 12 14)] |}.
Proof. repeat split; vm_compute; reflexivity. Qed.

(** C1.  The [else] block of [if { } else { x }] holds an undeclared
    identifier, which a walk from [Bool] reports; yet the program parses
    and verifies, and the walk over the [If] item accepts it: the
    second walk of an [If] with an [else] is over the "then" block. *)
Theorem else_block_not_verified :
  traverse ∅ ∅ [Expression (identifier "x" 1 15 15)] StackType.Bool
    = Some (error {| line := 1; char := 15 |}
              (UndeclaredIdentifier (VStr "x")))
  /\ traverseItem ∅ ∅
       (Statement If [] (Some [Expression (identifier "x" 1 15 15)]))
       StackType.Int = Next StackType.Bool
  /\ parse if_else_undeclared (newParser ∅)
     = Ret {| pointer := 7; functions := ∅; newFunctions := [];
              program := [Statement If []
                            (Some [Expression (identifier "x" 1 15 15)])] |}.
Proof. repeat split; vm_compute; reflexivity. Qed.

(** ** The parser *)

(** *** The cursor *)

Section Cursor.
Context (tokens : list Token).

Lemma pointer_setPointer p this : pointer (setPointer p this) = p.
Proof. reflexivity. Qed.

Lemma setPointer_setPointer p q this :
  setPointer p (setPointer q this) = setPointer p this.
Proof. reflexivity. Qed.

Lemma setPointer_pointer this : setPointer (pointer this) this = this.
Proof. by destruct this. Qed.

Lemma increment_setPointer p this :
  increment (setPointer p this) = setPointer (p + 1) this.
Proof. reflexivity. Qed.

Lemma decrement_setPointer p this :
  decrement (setPointer p this) = setPointer (p - 1) this.
Proof. reflexivity. Qed.

Lemma tokenAt_Some i t :
  tokenAt tokens i = Some t -> 0 <= i < Z.of_nat (length tokens).
Proof.
  unfold tokenAt. case_bool_decide; [|discriminate].
  intros Hlt%lookup_lt_Some. lia.
Qed.

Lemma tokenAt_app before t after :
  tokenAt (before ++ t :: after) (Z.of_nat (length before)) = Some t.
Proof.
  unfold tokenAt. rewrite bool_decide_eq_true_2 by lia.
  rewrite Nat2Z.id. by rewrite list_lookup_middle.
Qed.

Lemma isAtEnd_false this :
  isAtEnd tokens this = false <-> pointer this < Z.of_nat (length tokens).
Proof. unfold isAtEnd. rewrite bool_decide_eq_false. lia. Qed.

Lemma isAtEnd_true this :
  isAtEnd tokens this = true <-> Z.of_nat (length tokens) <= pointer this.
Proof. unfold isAtEnd. by rewrite bool_decide_eq_true. Qed.

(** The cursor is on a token. *)
Lemma on_token this t :
  tokenAt tokens (pointer this) = Some t ->
  isAtEnd tokens this = false /\ peek tokens this = Ret t.
Proof.
  intros H. pose proof (tokenAt_Some _ _ H) as Hlt.
  assert (isAtEnd tokens this = false) as Hend by (apply isAtEnd_false; lia).
  split; [exact Hend|]. unfold peek. by rewrite Hend, H.
Qed.

(** [#expect] when a token follows. *)
Lemma expect_token ty val this t :
  tokenAt tokens (pointer this + 1) = Some t ->
  expect tokens ty val this =
  Ret (bool_decide (type t = ty)
       && match val with
          | None => true
          | Some v => bool_decide (v = "") || value_is (value t) v
          end,
       setPointer (pointer this + 1) this).
Proof.
  intros H. unfold expect.
  destruct (on_token (increment this) t H) as [-> ->]. reflexivity.
Qed.

(** [#expect] at the end of the input. *)
Lemma expect_end ty val this :
  Z.of_nat (length tokens) <= pointer this + 1 ->
  expect tokens ty val this = Ret (false, setPointer (pointer this + 1) this).
Proof.
  intros H. unfold expect.
  by rewrite (proj2 (isAtEnd_true (increment this)) H).
Qed.
End Cursor.

Section ParserSteps.
Context (tokens : list Token).
Context (fuel : nat) (isInRoot isInLoop isInIf isInFunction : bool).
Context (blockPos : Pos) (block : Program) (this : Parser).
Context (current : Token).
Hypothesis Hmore : isAtEnd tokens this = false.
Hypothesis Hpeek : peek tokens this = Ret current.

(** A [}] ends the block, at the root as anywhere else. *)
Lemma whileLoop_closeBracket :
  type current = TokenType.CloseBracket ->
  whileLoop tokens (S fuel) isInRoot isInLoop isInIf isInFunction
    blockPos block this = Ret (block, increment this).
Proof.
  intros Hty. cbn [whileLoop]. rewrite Hmore, Hpeek. cbn [bind].
  rewrite Hty. reflexivity.
Qed.

(** [break] and [continue] go by the [isInLoop] parameter, [any] by the
    [isInFunction] parameter. *)
Lemma whileLoop_contextual (word : string) :
  type current = TokenType.Keyword ->
  value current = VStr word ->
  word ∈ ["any"; "break"; "continue"] ->
  whileLoop tokens (S fuel) isInRoot isInLoop isInIf isInFunction
    blockPos block this =
  if (if bool_decide (word = "any") then isInFunction else isInLoop)
  then whileLoop tokens fuel isInRoot isInLoop isInIf isInFunction
         blockPos (block ++ [Expression current]) (increment this)
  else Fail (error (startPos current)
               (if bool_decide (word = "any") then UnexpectedAny
                else if bool_decide (word = "break") then UnexpectedBreak
                else UnexpectedContinue)).
Proof.
  intros Hty Hval Hword. cbn [whileLoop]. rewrite Hmore, Hpeek.
  cbn [bind]. rewrite Hty, Hval.
  repeat (apply elem_of_cons in Hword as [->|Hword]);
    [| | |by apply elem_of_nil in Hword];
    cbn; destruct isInLoop, isInFunction; reflexivity.
Qed.
End ParserSteps.

(** C2.  The loop statements pass [true] in the place of
    [isInFunction], not of [isInLoop], and a function body gets the
    caller's [isInLoop] as its [isInFunction]: [break] in a [loop],
    [continue] in a [for loop] and [any] in a function body are all
    refused at the root, each with the contextual error at the token,
    while [break] in an [if] outside of any loop is accepted. *)
Theorem contextual_keywords_refused (functions : Table) :
  parse loop_break (newParser functions)
    = Fail (error {| line := 1; char := 8 |} UnexpectedBreak)
  /\ parse for_loop_continue (newParser functions)
     = Fail (error {| line := 1; char := 12 |} UnexpectedContinue)
  /\ parse fn_any (newParser functions)
     = Fail (error {| line := 1; char := 15 |} UnexpectedAny)
  /\ parse if_break (newParser functions)
     = Ret {| pointer := 4; functions := functions; newFunctions := [];
              program := [Statement If
                            [Expression (keyword "break" 1 6 10)] None] |}.
Proof. repeat split; reflexivity. Qed.

(** C3.  A [}] at the root is not an error: [1 } 2] parses to the
    program [1], and the cursor stops behind the bracket, before the
    last token. *)
Theorem root_bracket_accepted :
  parse stray_bracket (newParser ∅)
  = Ret {| pointer := 2; functions := ∅; newFunctions := [];
           program := [Expression (int "1" 1 1 1)] |}.
Proof. vm_compute. reflexivity. Qed.

(** C9.  On the empty token sequence [parse] neither returns a program
    nor an error: the first [#peek] reads [tokens[-1].endPos]. *)
Theorem parse_empty_throws (functions : Table) :
  parse [] (newParser functions) = Throw.
Proof. reflexivity. Qed.

(** C10, as stated, fails on [fn f ( a : 5 ) @int { }]: the declaration
    is accepted, and [a] is not a key of the parameters of [f]. *)
Lemma untyped_parameter_not_recorded :
  ~ (forall this decl,
       parse untyped_parameter (newParser ∅) = Ret this ->
       functions this !! "f" = Some decl ->
       is_Some (params decl !! "a")).
Proof.
  intros H.
  destruct (H {| pointer := 10;
                 functions :=
                   plain {[ "f" := {| stack := StackType.Int;
                                      params := ∅; body := [] |} ]};
                 newFunctions := ["f"]; program := [] |}
              {| stack := StackType.Int; params := ∅; body := [] |})
    as [ty Hty].
  - vm_compute. reflexivity.
  - vm_compute. reflexivity.
  - vm_compute in Hty. discriminate.
Qed.

(** The parameter that was not recorded is unknown in the body. *)
Lemma untyped_parameter_undeclared :
  parse untyped_parameter_used (newParser ∅)
  = Fail (error {| line := 1; char := 23 |}
            (UndeclaredIdentifier (VStr "a"))).
Proof. vm_compute. reflexivity. Qed.

(** C10, amended.  A parameter written [name : token], where the token
    is not one of the five type keywords, is no error in its turn of the
    loop, which goes on with the parameters as they were (no entry is
    added for [name]) and with the cursor on the token, skipped by the
    turn after. *)
Theorem untyped_parameter_skipped (tokens : list Token) (fuel : nat)
  (parameters : gmap string StackType) (this : Parser)
  (name sep ty : Token)
  (Hname : tokenAt tokens (pointer this + 1) = Some name)
  (Hident : type name = TokenType.Identifier)
  (Hsep : tokenAt tokens (pointer this + 2) = Some sep)
  (Hcolon : type sep = TokenType.Colon)
  (Hty : tokenAt tokens (pointer this + 3) = Some ty)
  (Hother : bool_decide (type ty = TokenType.Keyword)
            && includes ["int"; "str"; "float"; "bool"; "any"] (value ty)
            = false) :
  parseParams tokens (S fuel) parameters this =
  parseParams tokens fuel parameters (setPointer (pointer this + 3) this).
Proof.
  destruct (on_token tokens (setPointer (pointer this + 1) this) name Hname)
    as [Hmore1 Hpeek1].
  destruct (on_token tokens (setPointer (pointer this + 3) this) ty Hty)
    as [Hmore3 Hpeek3].
  assert (isAtEnd tokens this = false) as Hmore.
  { apply isAtEnd_false. apply isAtEnd_false in Hmore1. cbn in Hmore1. lia. }
  cbn [parseParams]. rewrite Hmore.
  rewrite (expect_token tokens _ _ this name Hname), Hident. cbn [bind].
  rewrite bool_decide_eq_false_2 by discriminate. cbn [andb].
  rewrite decrement_setPointer.
  replace (pointer this + 1 - 1) with (pointer this) by lia.
  rewrite setPointer_pointer.
  rewrite (expect_token tokens _ _ this name Hname), Hident. cbn [bind].
  rewrite bool_decide_eq_true_2 by reflexivity. cbn [andb negb].
  rewrite Hpeek1. cbn [bind].
  rewrite (expect_token tokens _ _ (setPointer (pointer this + 1) this) sep)
    by (rewrite pointer_setPointer, <- Hsep; f_equal; lia).
  rewrite Hcolon. cbn [bind].
  rewrite bool_decide_eq_true_2 by reflexivity. cbn [andb].
  rewrite pointer_setPointer, setPointer_setPointer, increment_setPointer.
  replace (pointer this + 1 + 1 + 1) with (pointer this + 3) by lia.
  rewrite Hpeek3. cbn [bind]. rewrite Hother. reflexivity.
Qed.

(** C10 amended, at the first parameter of [fn f ( a : 5 ) @int { }]. *)
Lemma untyped_parameter_skipped_witness :
  parseParams untyped_parameter 3 ∅ (setPointer 2 (newParser ∅)) =
  parseParams untyped_parameter 2 ∅ (setPointer 5 (newParser ∅)).
Proof.
  exact (untyped_parameter_skipped untyped_parameter 2 ∅
           (setPointer 2 (newParser ∅))
           (identifier "a" 1 8 8) (colon 1 10 10) (int "5" 1 12 12)
           eq_refl eq_refl eq_refl eq_refl eq_refl eq_refl).
Defined.

(** *** Fuel *)

Section Fuel.
Context (tokens : list Token).

Lemma approx_refl {A} (m : Outcome A) : approx m m.
Proof. by right. Qed.

Lemma approx_bind {A B} (m m' : Outcome A) (k k' : A -> Outcome B) :
  approx m m' -> (forall a, approx (k a) (k' a)) ->
  approx (bind m k) (bind m' k').
Proof.
  intros [->| ->] Hk; [by left|]. destruct m'; cbn; [apply Hk| | |];
    by right.
Qed.

Lemma approx_bind_same {A B} (m : Outcome A) (k k' : A -> Outcome B) :
  (forall a, approx (k a) (k' a)) -> approx (bind m k) (bind m k').
Proof. apply approx_bind, approx_refl. Qed.

Ltac mono_step :=
  lazymatch goal with
  | |- approx (Fail _) _ => apply approx_refl
  | |- approx (Ret _) _ => apply approx_refl
  | |- approx (failAtPeek _ _ _) _ => apply approx_refl
  | |- approx (if ?b then _ else _) _ => destruct b
  | |- approx (match ?x with (_, _) => _ end) _ => destruct x
  | |- approx (bind ?m _) (bind ?m' _) =>
      first [ constr_eq m m'; apply approx_bind_same; intros ?
            | apply approx_bind; [|intros ?] ]
  end.

Lemma parseParams_mono fuel fuel' parameters this :
  (fuel <= fuel')%nat ->
  approx (parseParams tokens fuel parameters this)
         (parseParams tokens fuel' parameters this).
Proof.
  revert fuel' parameters this.
  induction fuel as [|fuel IH]; intros fuel' parameters this Hle;
    [by left|].
  destruct fuel' as [|fuel']; [lia|]. cbn [parseParams].
  repeat mono_step; apply IH; lia.
Qed.

Lemma whileLoop_mono fuel fuel' isInRoot isInLoop isInIf isInFunction
  blockPos block this :
  (fuel <= fuel')%nat ->
  approx (whileLoop tokens fuel isInRoot isInLoop isInIf isInFunction
            blockPos block this)
         (whileLoop tokens fuel' isInRoot isInLoop isInIf isInFunction
            blockPos block this).
Proof.
  revert fuel' isInRoot isInLoop isInIf isInFunction blockPos block this.
  induction fuel as [|fuel IH]; intros fuel' isInRoot isInLoop isInIf
    isInFunction blockPos block this Hle; [by left|].
  destruct fuel' as [|fuel']; [lia|].
  cbn [whileLoop]. unfold parseStatementWith.
  repeat mono_step.
  all: try (apply IH; lia).
  all: try (apply parseParams_mono; lia).
Qed.

Lemma ends_weaken {A} (P Q : A -> Prop) (m : Outcome A) :
  ends P m -> (forall a, P a -> Q a) -> ends Q m.
Proof. destruct m; cbn; auto. Qed.

Lemma ends_bind {A B} (P : A -> Prop) (Q : B -> Prop) (m : Outcome A)
  (k : A -> Outcome B) :
  ends P m -> (forall a, P a -> ends Q (k a)) -> ends Q (bind m k).
Proof. destruct m; cbn; auto. Qed.

Lemma ends_peek this : ends (fun _ => True) (peek tokens this).
Proof.
  unfold peek. destruct (isAtEnd tokens this);
    by destruct (tokenAt tokens _).
Qed.

Lemma ends_failAtPeek {A} (Q : A -> Prop) msg this :
  ends Q (failAtPeek tokens msg this).
Proof.
  unfold failAtPeek. eapply ends_bind; [apply ends_peek|]. by intros.
Qed.

Lemma ends_expect ty val this :
  ends (fun r => r.2 = increment this) (expect tokens ty val this).
Proof.
  unfold expect. destruct (isAtEnd tokens (increment this)); [reflexivity|].
  eapply ends_bind; [apply ends_peek|]. by intros.
Qed.

Ltac measure :=
  repeat match goal with
    | H : isAtEnd _ _ = false |- _ => apply isAtEnd_false in H
    | H : isAtEnd _ _ = true |- _ => apply isAtEnd_true in H
    end;
  unfold remaining in *;
  cbn [ends fst snd pointer increment decrement setPointer declare] in *;
  lia.

Ltac ends_step IH Hnested Hparams :=
  lazymatch goal with
  | |- ends _ (Fail _) => exact I
  | |- ends _ (Ret _) => measure
  | |- ends _ (failAtPeek _ _ _) => apply ends_failAtPeek
  | |- ends _ (if ?b then _ else _) => destruct b eqn:?
  | |- ends _ (bind (peek _ _) _) =>
      eapply ends_bind; [apply ends_peek|intros ? _]
  | |- ends _ (bind (expect _ _ _ _) _) =>
      eapply ends_bind; [apply ends_expect|intros [? ?] ?; simplify_eq/=]
  | |- ends _ (bind (parseStatementWith _ _ _ _ _ _ _) _) =>
      eapply ends_bind; [apply Hnested; measure|intros [? ?] ?]
  | |- ends _ (bind (parseParams _ _ _ _) _) =>
      eapply ends_bind; [apply Hparams; measure|intros [? ?] ?]
  | |- ends _ (whileLoop _ _ _ _ _ _ _ _ _) =>
      eapply ends_weaken; [apply IH; measure|intros [? ?] ?; measure]
  | |- ends _ (parseParams _ _ _ _) =>
      eapply ends_weaken; [apply IH; measure|intros [? ?] ?; measure]
  end.

(** With a unit of fuel more than there are tokens left, the loops end,
    and the cursor never ends before the place it started from. *)
Lemma parseParams_ends fuel parameters this :
  (remaining tokens this < fuel)%nat ->
  ends (fun r => pointer this <= pointer r.2)
    (parseParams tokens fuel parameters this).
Proof.
  revert parameters this.
  induction fuel as [|fuel IH]; intros parameters this Hfuel; [lia|].
  cbn [parseParams].
  repeat ends_step IH IH IH.
Qed.

Lemma whileLoop_ends fuel isInRoot isInLoop isInIf isInFunction
  blockPos block this :
  (remaining tokens this < fuel)%nat ->
  ends (fun r => pointer this <= pointer r.2)
    (whileLoop tokens fuel isInRoot isInLoop isInIf isInFunction
       blockPos block this).
Proof.
  revert isInRoot isInLoop isInIf isInFunction blockPos block this.
  induction fuel as [|fuel IH]; intros isInRoot isInLoop isInIf
    isInFunction blockPos block this Hfuel; [lia|].
  assert (forall l i f this',
    (remaining tokens this' <= fuel)%nat -> (0 < fuel)%nat ->
    ends (fun r => pointer this' < pointer r.2)
      (parseStatementWith tokens (whileLoop tokens fuel) false l i f this'))
    as Hnested.
  { intros l i f this' Hle Hpos. unfold parseStatementWith.
    eapply ends_bind; [apply ends_peek|intros ? _]. cbn [negb].
    eapply ends_weaken; [apply IH; measure|intros [? ?] ?; measure]. }
  pose proof (parseParams_ends fuel) as Hparams.
  cbn [whileLoop].
  repeat ends_step IH Hnested Hparams.
Qed.
End Fuel.

(** *** Well-formed blocks and blocks left open *)

(** Proves that two cursors are the same, or two lists of tokens. *)
Ltac ptr :=
  repeat rewrite length_app; cbn [length]; repeat rewrite length_app;
  cbn [length]; lia.
Ltac regroup :=
  subst; rewrite ?app_nil_r;
  repeat (progress cbn [app] || rewrite <- app_assoc); reflexivity.

Ltac eval_test t :=
  let b := eval vm_compute in t in
  lazymatch b with
  | true => change t with true
  | false => change t with false
  end.

Ltac eval_test_in t H :=
  let b := eval vm_compute in t in
  lazymatch b with
  | true => change t with true in H
  | false => change t with false in H
  end.

(** Decide the decide_tests on tokens whose type and value are known. *)
Ltac decide_tests :=
  repeat match goal with
    | |- context [bool_decide ?P] => eval_test (bool_decide P)
    | |- context [includes ?l ?v] => eval_test (includes l v)
    | |- context [value_is ?v ?s] => eval_test (value_is v s)
    end;
  cbn [negb andb orb]; cbv iota.

Ltac decide_tests_in H :=
  repeat match type of H with
    | context [bool_decide ?P] => eval_test_in (bool_decide P) H
    | context [includes ?l ?v] => eval_test_in (includes l v) H
    | context [value_is ?v ?s] => eval_test_in (value_is v s) H
    end;
  cbn [negb andb orb] in H.

Notation NotElseFirst after :=
  (forall t after', after = t :: after' -> ~ isWord "else" t).

Lemma at_token (tokens : list Token) this z t :
  tokenAt tokens z = Some t ->
  isAtEnd tokens (setPointer z this) = false
  /\ peek tokens (setPointer z this) = Ret t.
Proof. intros H. by apply on_token. Qed.

Lemma expect_at (tokens : list Token) ty val this z t z' :
  z' = z + 1 ->
  tokenAt tokens z' = Some t ->
  expect tokens ty val (setPointer z this) =
  Ret (bool_decide (type t = ty)
       && match val with
          | None => true
          | Some v => bool_decide (v = "") || value_is (value t) v
          end,
       setPointer z' this).
Proof. intros -> H. by rewrite (expect_token tokens ty val _ t). Qed.

Section Steps.
Context (tokens : list Token).
Context (n : nat) (isInRoot isInLoop isInIf isInFunction : bool).
Context (blockPos : Pos) (block : Program) (this : Parser) (z : Z).

Notation loop m :=
  (whileLoop tokens m isInRoot isInLoop isInIf isInFunction blockPos).

Lemma step_plain t :
  tokenAt tokens z = Some t -> isPlain t = true ->
  loop (S n) block (setPointer z this) =
  loop n (block ++ [Expression t]) (setPointer (z + 1) this).
Proof.
  intros Ht Hplain. destruct (at_token tokens this z t Ht) as [Hmore Hpeek].
  cbn [whileLoop]. rewrite Hmore, Hpeek. cbn [bind].
  unfold isPlain in Hplain.
  destruct t as [ty sp ep v]. cbn [type value startPos] in *.
  destruct ty; decide_tests_in Hplain; try discriminate Hplain; decide_tests;
    try reflexivity.
  rewrite Hplain. reflexivity.
Qed.

Lemma step_pushed t :
  tokenAt tokens z = Some t ->
  isPushed (isInLoop, isInIf, isInFunction) t = true ->
  loop (S n) block (setPointer z this) =
  loop n (block ++ [Expression t]) (setPointer (z + 1) this).
Proof.
  intros Ht Hpushed. unfold isPushed in Hpushed. cbn [fst snd] in Hpushed.
  destruct (isPlain t) eqn:Hplain; [by apply step_plain|].
  cbn [orb] in Hpushed.
  destruct (at_token tokens this z t Ht) as [Hmore Hpeek].
  apply andb_true_iff in Hpushed as [Hty%bool_decide_eq_true Hword].
  cbn [whileLoop]. rewrite Hmore, Hpeek. cbn [bind]. rewrite Hty.
  destruct (value t) as [w| |]; [|discriminate..].
  cbn [value_is] in Hword.
  apply orb_true_iff in Hword as [[Hw ->]%andb_true_iff|[Hw ->]%andb_true_iff].
  - apply bool_decide_eq_true in Hw as ->. decide_tests. reflexivity.
  - apply orb_true_iff in Hw as [Hw|Hw];
      apply bool_decide_eq_true in Hw as ->; decide_tests; reflexivity.
Qed.

Lemma step_close cb :
  tokenAt tokens z = Some cb -> type cb = TokenType.CloseBracket ->
  loop (S n) block (setPointer z this) =
  Ret (block, setPointer (z + 1) this).
Proof.
  intros Ht Hty. destruct (at_token tokens this z cb Ht) as [Hmore Hpeek].
  by apply whileLoop_closeBracket with (current := cb).
Qed.

Lemma step_end :
  Z.of_nat (length tokens) <= z ->
  loop (S n) block (setPointer z this) =
  if negb isInRoot then Fail (error blockPos ExpectedEndingBracketPair)
  else Ret (block, setPointer z this).
Proof.
  intros Hend. cbn [whileLoop].
  rewrite (proj2 (isAtEnd_true tokens (setPointer z this)) Hend).
  reflexivity.
Qed.

(** A statement whose block is parsed by a nested call. *)
Lemma step_header hdr ty ob :
  Header hdr ty ->
  (forall k t, hdr !! k = Some t -> tokenAt tokens (z + Z.of_nat k) = Some t) ->
  tokenAt tokens (z + Z.of_nat (length hdr)) = Some ob ->
  type ob = TokenType.OpenBracket ->
  loop (S n) block (setPointer z this) =
  let '(l, i, f) := nestedFlags ty isInLoop isInIf isInFunction in
  bind (whileLoop tokens n false l i f (startPos ob) []
          (setPointer (z + Z.of_nat (length hdr) + 1) this))
    (match ty with
     | If => ifTail tokens (whileLoop tokens n)
               isInRoot isInLoop isInIf isInFunction blockPos block
     | _ => fun '(innerBlock, this) =>
              loop n (block ++ [Statement ty innerBlock None]) this
     end).
Proof.
  intros Hhdr Hat Hob Hopen.
  assert (tokenAt tokens z = hdr !! 0%nat) as H0.
  { destruct Hhdr; cbn; rewrite <- (Hat 0%nat _ eq_refl); f_equal; lia. }
  destruct (at_token tokens this _ ob Hob) as [Hmore' Hpeek'].
  destruct Hhdr as [kw [Hty Hval]|kw kw' [Hty Hval] [Hty' Hval']
                   |kw kw' [Hty Hval] [Hty' Hval']|kw [Hty Hval]];
    cbn [length Z.of_nat nestedFlags] in *;
    destruct (at_token tokens this _ kw H0) as [Hmore Hpeek];
    cbn [whileLoop]; rewrite Hmore, Hpeek; cbn [bind];
    rewrite Hty, Hval; decide_tests.
  - rewrite (expect_at tokens _ _ _ _ ob (z + Z.of_nat 1)) by (lia || done).
    rewrite Hopen. decide_tests. cbn [bind]. unfold parseStatementWith.
    rewrite Hpeek'. cbn [bind negb]. rewrite increment_setPointer.
    reflexivity.
  - rewrite (expect_at tokens _ _ _ _ kw' (z + Z.of_nat 1))
      by (lia || (apply (Hat 1%nat); done)).
    rewrite Hty', Hval'. decide_tests. cbn [bind].
    rewrite (expect_at tokens _ _ _ _ ob (z + Z.of_nat 2)) by (lia || done).
    rewrite Hopen. decide_tests. cbn [bind]. unfold parseStatementWith.
    rewrite Hpeek'. cbn [bind negb]. rewrite increment_setPointer.
    reflexivity.
  - rewrite (expect_at tokens _ _ _ _ kw' (z + Z.of_nat 1))
      by (lia || (apply (Hat 1%nat); done)).
    rewrite Hty', Hval'. decide_tests. cbn [bind].
    rewrite (expect_at tokens _ _ _ _ ob (z + Z.of_nat 2)) by (lia || done).
    rewrite Hopen. decide_tests. cbn [bind]. unfold parseStatementWith.
    rewrite Hpeek'. cbn [bind negb]. rewrite increment_setPointer.
    reflexivity.
  - rewrite (expect_at tokens _ _ _ _ ob (z + Z.of_nat 1)) by (lia || done).
    rewrite Hopen. decide_tests. cbn [bind]. unfold parseStatementWith.
    rewrite Hpeek'. cbn [bind negb]. rewrite increment_setPointer.
    reflexivity.
Qed.
End Steps.

Section IfTail.
Context (tokens : list Token).
Context (loop : bool -> bool -> bool -> bool -> Pos -> Program -> Parser ->
                Outcome (Program * Parser)).
Context (isInRoot isInLoop isInIf isInFunction : bool).
Context (blockPos : Pos) (block innerBlock : Program) (this : Parser) (q : Z).

(** No [else] follows the block of the [if]. *)
Lemma ifTail_no_else :
  0 <= q ->
  (forall t, tokenAt tokens q = Some t -> ~ isWord "else" t) ->
  ifTail tokens loop isInRoot isInLoop isInIf isInFunction blockPos block
    (innerBlock, setPointer q this) =
  loop isInRoot isInLoop isInIf isInFunction blockPos
    (block ++ [Statement If innerBlock None]) (setPointer q this).
Proof.
  intros Hq Hnot. unfold ifTail. rewrite decrement_setPointer.
  destruct (tokenAt tokens q) as [t|] eqn:Ht.
  - rewrite (expect_at tokens _ _ _ _ t q) by (lia || done).
    cbn [bind].
    destruct (bool_decide (type t = TokenType.Keyword)) eqn:Hty;
      [|reflexivity].
    apply bool_decide_eq_true in Hty. decide_tests.
    destruct (value_is (value t) "else") eqn:Hval; [|reflexivity].
    exfalso. apply (Hnot t eq_refl). split; [exact Hty|].
    unfold value_is in Hval. destruct (value t); try discriminate.
    by apply bool_decide_eq_true in Hval as ->.
  - rewrite expect_end.
    + cbn [bind pointer setPointer]. rewrite setPointer_setPointer.
      by replace (q - 1 + 1) with q by lia.
    + cbn [pointer setPointer]. unfold tokenAt in Ht.
      rewrite bool_decide_eq_true_2 in Ht by lia.
      apply lookup_ge_None in Ht. lia.
Qed.

(** An [else] and its [{] follow. *)
Lemma ifTail_else kw ob :
  tokenAt tokens q = Some kw -> isWord "else" kw ->
  tokenAt tokens (q + 1) = Some ob -> type ob = TokenType.OpenBracket ->
  ifTail tokens loop isInRoot isInLoop isInIf isInFunction blockPos block
    (innerBlock, setPointer q this) =
  bind (loop false true isInFunction isInLoop (startPos ob) []
          (setPointer (q + 2) this))
    (fun '(elseBlock, this) =>
       loop isInRoot isInLoop isInIf isInFunction blockPos
         (block ++ [Statement If innerBlock (Some elseBlock)]) this).
Proof.
  intros Hkw [Hty Hval] Hob Hopen. unfold ifTail.
  rewrite decrement_setPointer.
  rewrite (expect_at tokens _ _ _ _ kw q) by (lia || done).
  rewrite Hty, Hval. decide_tests. cbn [bind].
  rewrite (expect_at tokens _ _ _ _ ob (q + 1)) by (lia || done).
  rewrite Hopen. decide_tests. cbn [bind]. unfold parseStatementWith.
  destruct (at_token tokens this _ ob Hob) as [_ ->]. cbn [bind negb].
  rewrite increment_setPointer.
  by replace (q + 1 + 1) with (q + 2) by lia.
Qed.
End IfTail.

Section Grammar.
Context (tokens : list Token).

Lemma whileLoop_more n n' r l i f pos block this res :
  whileLoop tokens n r l i f pos block this = res ->
  res <> OutOfFuel -> (n <= n')%nat ->
  whileLoop tokens n' r l i f pos block this = res.
Proof.
  intros Hn Hne Hle.
  destruct (whileLoop_mono tokens n n' r l i f pos block this Hle)
    as [H|H]; congruence.
Qed.

Lemma tokenAt_middle before t after z :
  tokens = before ++ t :: after -> z = Z.of_nat (length before) ->
  tokenAt tokens z = Some t.
Proof. intros -> ->. apply tokenAt_app. Qed.

Lemma plain_not_else t : isPlain t = true -> ~ isWord "else" t.
Proof.
  unfold isPlain. intros Hplain [Hty Hval]. rewrite Hty, Hval in Hplain.
  decide_tests_in Hplain. discriminate.
Qed.

Lemma pushed_not_else c t : isPushed c t = true -> ~ isWord "else" t.
Proof.
  unfold isPushed, isPlain. intros Hpushed [Hty Hval].
  rewrite Hty, Hval in Hpushed.
  decide_tests_in Hpushed. discriminate.
Qed.

Lemma plain_pushed c t : isPlain t = true -> isPushed c t = true.
Proof. unfold isPushed. by intros ->. Qed.

Lemma header_not_else hdr ty t ts :
  Header hdr ty -> hdr = t :: ts -> ~ isWord "else" t.
Proof.
  intros [kw [? Hval]|kw ? [? Hval] _|kw ? [? Hval] _|kw [? Hval]] [= <- <-]
    [_ Hval']; congruence.
Qed.

Lemma block_not_else c ts p t ts' :
  Block c ts p -> ts = t :: ts' -> ~ isWord "else" t.
Proof.
  intros [|? t0 ? ? Hpushed _|? hdr ty ? ? ? ? ? ? Hhdr _ _ _ _
         |? kw ? ? ? ? ? ? ? ? ? ? ? [? Hval] _ _ _ _ _ _ _ _] Heq.
  - discriminate.
  - injection Heq as -> _. by eapply pushed_not_else.
  - destruct Hhdr; injection Heq as <- _;
      eapply header_not_else; eauto; by constructor.
  - injection Heq as <- _. intros [_ ?]. congruence.
Qed.

Lemma tokenAt_inside before mid after k t :
  tokens = before ++ mid ++ after -> mid !! k = Some t ->
  tokenAt tokens (Z.of_nat (length before) + Z.of_nat k) = Some t.
Proof.
  intros -> Hk. unfold tokenAt. rewrite bool_decide_eq_true_2 by lia.
  replace (Z.to_nat (Z.of_nat (length before) + Z.of_nat k))
    with (length before + k)%nat by lia.
  rewrite lookup_app_r, lookup_app_l by (try apply lookup_lt_Some in Hk; lia).
  by replace (length before + k - length before)%nat with k by lia.
Qed.

Lemma tokenAt_suffix before suffix t :
  tokens = before ++ suffix ->
  tokenAt tokens (Z.of_nat (length before)) = Some t ->
  exists rest, suffix = t :: rest.
Proof.
  intros -> Ht. destruct suffix as [|t' rest].
  - apply tokenAt_Some in Ht. rewrite app_nil_r in Ht. lia.
  - rewrite tokenAt_app in Ht. injection Ht as ->. by exists rest.
Qed.

Notation Parsed c ts p :=
  (forall before after, tokens = before ++ ts ++ after ->
   NotElseFirst after ->
   forall r pos block this res,
   yields (fun n => whileLoop tokens n r c.1.1 c.1.2 c.2 pos (block ++ p)
                      (setPointer (Z.of_nat (length (before ++ ts))) this))
     res ->
   yields (fun n => whileLoop tokens n r c.1.1 c.1.2 c.2 pos block
                      (setPointer (Z.of_nat (length before)) this)) res).

(** A block that is parsed and closed by a [}] is what the nested call
    returns. *)
Lemma nested_closed (c : Flags) inner pin cb before after pos this :
  Parsed c inner pin ->
  tokens = before ++ inner ++ cb :: after ->
  type cb = TokenType.CloseBracket ->
  yields (fun n => whileLoop tokens n false c.1.1 c.1.2 c.2 pos []
                     (setPointer (Z.of_nat (length before)) this))
    (Ret (pin, setPointer (Z.of_nat (length (before ++ inner ++ [cb]))) this)).
Proof.
  intros Hparsed Htok Hclose.
  apply (Hparsed before (cb :: after) Htok).
  { intros t after' [= <- _] [Hty _]. congruence. }
  exists 1%nat. split; [|done]. cbn [app].
  rewrite (step_close tokens 0 false c.1.1 c.1.2 c.2 pos pin this _ cb); [|
    apply (tokenAt_middle (before ++ inner) cb after); [regroup|done]|done].
  do 2 f_equal. f_equal. ptr.
Qed.

Lemma first_not_else c ts p after t rest :
  Block c ts p -> NotElseFirst after -> ts ++ after = t :: rest ->
  ~ isWord "else" t.
Proof.
  intros Hblock Hnot Heq. destruct ts as [|t' ts'].
  - by apply (Hnot t rest).
  - injection Heq as -> _. by eapply block_not_else.
Qed.

Lemma block_parsed c ts p : Block c ts p -> Parsed c ts p.
Proof.
  induction 1 as [c|c t ts p Hpushed Hblock IH
                 |c hdr ty ob inner pin cb ts p Hhdr Hopen Hinner IHinner
                    Hclose Hts IHts
                 |c kw ob inner pin cb kw' ob' inner' pin' cb' ts p Hif Hopen
                    Hinner IHinner Hclose Helse Hopen' Hinner' IHinner'
                    Hclose' Hts IHts];
    intros before after Htok Hnot r pos block this res [n [Hn Hne]].
  - exists n. split; [|done]. rewrite <- Hn. rewrite !app_nil_r. done.
  - destruct (IH (before ++ [t]) after ltac:(regroup) Hnot r pos
                (block ++ [Expression t]) this res) as [m [Hm _]].
    { exists n. split; [|done]. rewrite <- Hn. rewrite <- !app_assoc. done. }
    exists (S m). split; [|done].
    rewrite (step_pushed tokens m r c.1.1 c.1.2 c.2 pos block this _ t);
      [|by apply (tokenAt_middle before t (ts ++ after))
       |by destruct c as [[? ?] ?]].
    rewrite <- Hm. do 2 f_equal. ptr.
  - (* hdr { inner } ts *)
    set (q := Z.of_nat (length (before ++ hdr ++ ob :: inner ++ [cb]))).
    destruct (IHts (before ++ hdr ++ ob :: inner ++ [cb]) after
                ltac:(regroup) Hnot r pos
                (block ++ [Statement ty pin None]) this res)
      as [m [Hm _]].
    { exists n. split; [|done]. rewrite <- Hn, <- !app_assoc.
      cbn [app]. rewrite <- !app_assoc. done. }
    fold q in Hm.
    destruct (nested_closed (nested ty c) inner pin cb
                (before ++ hdr ++ [ob]) (ts ++ after) (startPos ob) this
                IHinner ltac:(regroup) Hclose) as [k [Hk _]].
    replace (setPointer (Z.of_nat (length ((before ++ hdr ++ [ob])
                                             ++ inner ++ [cb]))) this)
      with (setPointer q this) in Hk by (unfold q; do 3 f_equal; regroup).
    assert (forall j t, hdr !! j = Some t ->
              tokenAt tokens (Z.of_nat (length before) + Z.of_nat j) = Some t)
      as Hat.
    { intros j t Hj.
      apply (tokenAt_inside before hdr (ob :: inner ++ cb :: ts ++ after));
        [regroup|done]. }
    assert (tokenAt tokens (Z.of_nat (length before) + Z.of_nat (length hdr))
            = Some ob) as Hob.
    { apply (tokenAt_middle (before ++ hdr) ob (inner ++ cb :: ts ++ after));
        [regroup|ptr]. }
    pose proof (fun k => step_header tokens k r c.1.1 c.1.2 c.2 pos block
                           this _ hdr ty ob Hhdr Hat Hob Hopen) as loopStep.
    exists (S (max k m)). split; [|done]. rewrite loopStep.
    unfold nested in Hk.
    destruct (nestedFlags ty c.1.1 c.1.2 c.2) as [[l' i'] f'] eqn:Hflags.
    cbn [fst snd] in Hk.
    replace (setPointer (Z.of_nat (length before)
                         + Z.of_nat (length hdr) + 1) this)
      with (setPointer (Z.of_nat (length (before ++ hdr ++ [ob]))) this)
      by (f_equal; ptr).
    rewrite (whileLoop_more _ _ _ _ _ _ _ _ _ _ Hk) by (done || lia).
    cbn [bind].
    assert (whileLoop tokens (max k m) r c.1.1 c.1.2 c.2 pos
              (block ++ [Statement ty pin None]) (setPointer q this) = res)
      as Hgo by (apply (whileLoop_more m); (done || lia)).
    destruct ty; try exact Hgo.
    rewrite ifTail_no_else; [exact Hgo|unfold q; lia|].
    intros t Ht.
    destruct (tokenAt_suffix (before ++ hdr ++ ob :: inner ++ [cb])
                (ts ++ after) t ltac:(regroup) Ht) as [rest Hrest].
    by eapply first_not_else.
  - (* if { inner } else { inner' } ts *)
    set (q := Z.of_nat (length (before ++ kw :: ob :: inner ++ [cb]))).
    set (q' := Z.of_nat (length (before ++ kw :: ob :: inner ++ cb :: kw'
                                   :: ob' :: inner' ++ [cb']))).
    destruct (IHts (before ++ kw :: ob :: inner ++ cb :: kw' :: ob'
                      :: inner' ++ [cb']) after
                ltac:(regroup) Hnot r pos
                (block ++ [Statement If pin (Some pin')]) this res)
      as [m [Hm _]].
    { exists n. split; [|done]. rewrite <- Hn, <- !app_assoc.
      cbn [app]. rewrite <- !app_assoc. cbn [app].
      rewrite <- !app_assoc. done. }
    fold q' in Hm.
    destruct (nested_closed (nested If c) inner pin cb (before ++ [kw; ob])
                (kw' :: ob' :: inner' ++ cb' :: ts ++ after)
                (startPos ob) this IHinner
                ltac:(regroup) Hclose) as [k [Hk _]].
    destruct (nested_closed (nested If c) inner' pin' cb'
                (before ++ kw :: ob :: inner ++ cb :: [kw'; ob'])
                (ts ++ after)
                (startPos ob') this IHinner'
                ltac:(regroup) Hclose') as [k' [Hk' _]].
    cbn [nested nestedFlags fst snd] in Hk, Hk'.
    assert (forall j t, [kw] !! j = Some t ->
              tokenAt tokens (Z.of_nat (length before) + Z.of_nat j) = Some t)
      as Hat.
    { intros j t Hj.
      apply (tokenAt_inside before [kw]
               (ob :: inner ++ cb :: kw' :: ob' :: inner' ++ cb'
                   :: ts ++ after)); [regroup|done]. }
    assert (tokenAt tokens (Z.of_nat (length before)
                            + Z.of_nat (length [kw])) = Some ob) as Hob.
    { apply (tokenAt_middle (before ++ [kw]) ob
               (inner ++ cb :: kw' :: ob' :: inner' ++ cb' :: ts ++ after));
        [regroup|ptr]. }
    pose proof (fun j => step_header tokens j r c.1.1 c.1.2 c.2 pos block
                           this _ [kw] If ob (Header_if kw Hif) Hat Hob Hopen)
      as loopStep.
    cbn [nestedFlags] in loopStep.
    exists (S (max (max k k') m)). split; [|done]. rewrite loopStep.
    replace (setPointer (Z.of_nat (length before) + Z.of_nat (length [kw])
                         + 1) this)
      with (setPointer (Z.of_nat (length (before ++ [kw; ob]))) this)
      by (f_equal; ptr).
    rewrite (whileLoop_more _ _ _ _ _ _ _ _ _ _ Hk) by (done || lia).
    cbn [bind].
    replace (setPointer (Z.of_nat (length ((before ++ [kw; ob])
                                             ++ inner ++ [cb]))) this)
      with (setPointer q this) by (unfold q; do 3 f_equal; regroup).
    rewrite (ifTail_else tokens _ r c.1.1 c.1.2 c.2 pos block pin this q
               kw' ob');
      [|apply (tokenAt_middle (before ++ kw :: ob :: inner ++ [cb]) kw'
                 (ob' :: inner' ++ cb' :: ts ++ after)); [regroup|done]
       |done
       |apply (tokenAt_middle (before ++ kw :: ob :: inner ++ [cb; kw']) ob'
                 (inner' ++ cb' :: ts ++ after)); [regroup|unfold q; ptr]
       |done].
    replace (setPointer (q + 2) this)
      with (setPointer (Z.of_nat (length (before ++ kw :: ob :: inner ++ cb
                                            :: [kw'; ob']))) this)
      by (f_equal; unfold q; ptr).
    rewrite (whileLoop_more _ _ _ _ _ _ _ _ _ _ Hk') by (done || lia).
    cbn [bind].
    replace (setPointer (Z.of_nat (length ((before ++ kw :: ob :: inner
                 ++ cb :: [kw'; ob']) ++ inner' ++ [cb']))) this)
      with (setPointer q' this) by (unfold q'; do 3 f_equal; regroup).
    apply (whileLoop_more m); (done || lia).
Qed.

(** Blocks left open: the loop fails with the error of the innermost
    one. *)
Lemma runs_off c outer ts pos :
  RunsOff c outer ts pos ->
  forall before, tokens = before ++ ts ->
  forall r blockPos block this,
  match outer with
  | Some opened => r = false /\ blockPos = opened
  | None => True
  end ->
  yields (fun n => whileLoop tokens n r c.1.1 c.1.2 c.2 blockPos block
                     (setPointer (Z.of_nat (length before)) this))
    (Fail (error pos ExpectedEndingBracketPair)).
Proof.
  induction 1 as [c opened ts p Hts
                 |c outer ts p hdr ty ob rest pos Hts Hhdr Hopen Hrest IH
                 |c outer ts p kw ob inner pin cb kw' ob' rest pos Hts Hif
                    Hopen Hinner Hclose Helse Hopen' Hrest IH];
    intros before Htok r blockPos block this Houter.
  - destruct Houter as [-> ->].
    apply (block_parsed c ts p Hts before []); [regroup|done|].
    exists 1%nat. split; [|done].
    rewrite step_end; [done|]. subst tokens. lia.
  - apply (block_parsed c ts p Hts before (hdr ++ ob :: rest));
      [regroup| |].
    { intros t after' Heq. destruct Hhdr; injection Heq as <- _;
        eapply header_not_else; eauto; by constructor. }
    destruct (IH (before ++ ts ++ hdr ++ [ob]) ltac:(regroup)
                false (startPos ob) [] this
                (conj eq_refl eq_refl)) as [k [Hk _]].
    exists (S k). split; [|done].
    rewrite (step_header tokens k r c.1.1 c.1.2 c.2 blockPos (block ++ p)
               this _ hdr ty ob Hhdr).
    + unfold nested in Hk.
      destruct (nestedFlags ty c.1.1 c.1.2 c.2) as [[l' i'] f'].
      cbn [fst snd] in Hk.
      replace (setPointer (Z.of_nat (length (before ++ ts))
                           + Z.of_nat (length hdr) + 1) this)
        with (setPointer (Z.of_nat (length (before ++ ts ++ hdr ++ [ob])))
                this) by (f_equal; ptr).
      by rewrite Hk.
    + intros j t Hj.
      apply (tokenAt_inside (before ++ ts) hdr (ob :: rest));
        [regroup|done].
    + apply (tokenAt_middle ((before ++ ts) ++ hdr) ob rest); [regroup|ptr].
    + done.
  - apply (block_parsed c ts p Hts before
             (kw :: ob :: inner ++ cb :: kw' :: ob' :: rest)); [regroup| |].
    { intros t after' [= <- _] [_ Hval]. destruct Hif. congruence. }
    set (q := Z.of_nat (length (before ++ ts ++ kw :: ob :: inner ++ [cb]))).
    destruct (nested_closed (nested If c) inner pin cb
                (before ++ ts ++ [kw; ob])
                (kw' :: ob' :: rest) (startPos ob) this
                (block_parsed (nested If c) inner pin Hinner)
                ltac:(regroup) Hclose) as [k [Hk _]].
    destruct (IH (before ++ ts ++ kw :: ob :: inner ++ cb :: [kw'; ob'])
                ltac:(regroup) false (startPos ob') [] this
                (conj eq_refl eq_refl)) as [k' [Hk' _]].
    cbn [nested nestedFlags fst snd] in Hk, Hk'.
    exists (S (max k k')). split; [|done].
    rewrite (step_header tokens _ r c.1.1 c.1.2 c.2 blockPos (block ++ p)
               this _ [kw] If ob (Header_if kw Hif)).
    + cbn [nestedFlags].
      replace (setPointer (Z.of_nat (length (before ++ ts))
                           + Z.of_nat (length [kw]) + 1) this)
        with (setPointer (Z.of_nat (length (before ++ ts ++ [kw; ob])))
                this) by (f_equal; ptr).
      rewrite (whileLoop_more _ _ _ _ _ _ _ _ _ _ Hk) by (done || lia).
      cbn [bind].
      replace (setPointer (Z.of_nat (length ((before ++ ts ++ [kw; ob])
                                               ++ inner ++ [cb]))) this)
        with (setPointer q this) by (unfold q; do 3 f_equal; regroup).
      rewrite (ifTail_else tokens _ r c.1.1 c.1.2 c.2 blockPos (block ++ p)
                 pin this q kw' ob');
        [|apply (tokenAt_middle (before ++ ts ++ kw :: ob :: inner ++ [cb])
                   kw' (ob' :: rest)); [regroup|done]
         |done
         |apply (tokenAt_middle
                   (before ++ ts ++ kw :: ob :: inner ++ [cb; kw'])
                   ob' rest); [regroup|unfold q; ptr]
         |done].
      replace (setPointer (q + 2) this)
        with (setPointer (Z.of_nat (length (before ++ ts ++ kw :: ob
                 :: inner ++ cb :: [kw'; ob']))) this)
        by (f_equal; unfold q; ptr).
      by rewrite (whileLoop_more _ _ _ _ _ _ _ _ _ _ Hk') by (done || lia).
    + intros j t Hj.
      apply (tokenAt_inside (before ++ ts) [kw]
               (ob :: inner ++ cb :: kw' :: ob' :: rest)); [regroup|done].
    + apply (tokenAt_middle ((before ++ ts) ++ [kw]) ob
               (inner ++ cb :: kw' :: ob' :: rest)); [regroup|ptr].
    + done.
Qed.
End Grammar.

(** *** Function declarations and the root *)

Section Params.
Context (tokens : list Token).


Lemma params_first ps m m' t rest :
  ParamTokens ps m m' -> ps = t :: rest -> type t = TokenType.Identifier.
Proof. intros [] [= <- _]; done. Qed.

(** The loop over well-formed parameters stops on the [)] with the
    parameters they declare. *)
Lemma parseParams_complete ps m m' :
  ParamTokens ps m m' ->
  forall before after cp n this,
  tokens = before ++ ps ++ cp :: after ->
  type cp = TokenType.CloseParen ->
  (length ps < n)%nat ->
  parseParams tokens n m (setPointer (Z.of_nat (length before) - 1) this)
  = Ret (m', setPointer (Z.of_nat (length (before ++ ps))) this).
Proof.
  induction 1 as [m|x ts m m' Hx Hts IH|x c ty ts m m' Hx Hc Hty Hkw Hts IH
                 |x c other ts m m' Hx Hc Hother Hts IH];
    intros before after cp n this Htok Hcp Hn;
    (destruct n as [|n]; [cbn in Hn; lia|]); cbn [parseParams].
  - assert (tokenAt tokens (Z.of_nat (length before)) = Some cp) as Hat
      by (apply (tokenAt_middle tokens before cp after); [regroup|done]).
    rewrite (proj2 (isAtEnd_false tokens _))
      by (apply tokenAt_Some in Hat; cbn; lia).
    rewrite (expect_at tokens _ _ _ _ cp (Z.of_nat (length before)))
      by (lia || done).
    rewrite Hcp. decide_tests. cbn [bind]. rewrite app_nil_r. done.
  - assert (tokenAt tokens (Z.of_nat (length before)) = Some x) as Hat
      by (apply (tokenAt_middle tokens before x (ts ++ cp :: after));
          [regroup|done]).
    assert (exists t, tokenAt tokens (Z.of_nat (length before) + 1) = Some t
                      /\ type t <> TokenType.Colon) as (t & Hat' & Hnc).
    { destruct ts as [|t ts'].
      - exists cp. split; [|congruence].
        apply (tokenAt_middle tokens (before ++ [x]) cp after);
          [regroup|ptr].
      - exists t. split.
        + apply (tokenAt_middle tokens (before ++ [x]) t
                   (ts' ++ cp :: after)); [regroup|ptr].
        + rewrite (params_first _ _ _ _ _ Hts eq_refl). done. }
    rewrite (proj2 (isAtEnd_false tokens _))
      by (apply tokenAt_Some in Hat; cbn; lia).
    rewrite (expect_at tokens _ _ _ _ x (Z.of_nat (length before)))
      by (lia || done).
    rewrite Hx. decide_tests. cbn [bind].
    rewrite decrement_setPointer.
    rewrite (expect_at tokens _ _ _ _ x (Z.of_nat (length before)))
      by (lia || done).
    rewrite Hx. decide_tests. cbn [bind].
    destruct (at_token tokens this _ x Hat) as [_ ->]. cbn [bind].
    rewrite (expect_at tokens _ _ _ _ t (Z.of_nat (length before) + 1))
      by (lia || done).
    rewrite (bool_decide_eq_false_2 _ Hnc). cbn [andb bind].
    rewrite decrement_setPointer.
    replace (setPointer (Z.of_nat (length before) + 1 - 1) this)
      with (setPointer (Z.of_nat (length (before ++ [x])) - 1) this)
      by (f_equal; ptr).
    rewrite (IH (before ++ [x]) after cp n this ltac:(regroup) Hcp)
      by (cbn in Hn; lia).
    do 3 f_equal. f_equal. regroup.
  - assert (tokenAt tokens (Z.of_nat (length before)) = Some x) as Hat
      by (apply (tokenAt_middle tokens before x
                   (c :: ty :: ts ++ cp :: after)); [regroup|done]).
    assert (tokenAt tokens (Z.of_nat (length before) + 1) = Some c) as Hat1
      by (apply (tokenAt_middle tokens (before ++ [x]) c
                   (ty :: ts ++ cp :: after)); [regroup|ptr]).
    assert (tokenAt tokens (Z.of_nat (length before) + 1 + 1) = Some ty)
      as Hat2
      by (apply (tokenAt_middle tokens (before ++ [x; c]) ty
                   (ts ++ cp :: after)); [regroup|ptr]).
    rewrite (proj2 (isAtEnd_false tokens _))
      by (apply tokenAt_Some in Hat; cbn; lia).
    rewrite (expect_at tokens _ _ _ _ x (Z.of_nat (length before)))
      by (lia || done).
    rewrite Hx. decide_tests. cbn [bind].
    rewrite decrement_setPointer.
    rewrite (expect_at tokens _ _ _ _ x (Z.of_nat (length before)))
      by (lia || done).
    rewrite Hx. decide_tests. cbn [bind].
    destruct (at_token tokens this _ x Hat) as [_ ->]. cbn [bind].
    rewrite (expect_at tokens _ _ _ _ c (Z.of_nat (length before) + 1))
      by (lia || done).
    rewrite Hc. decide_tests. cbn [bind].
    rewrite increment_setPointer.
    destruct (at_token tokens this _ ty Hat2) as [_ ->]. cbn [bind].
    rewrite Hty, Hkw. decide_tests.
    replace (setPointer (Z.of_nat (length before) + 1 + 1) this)
      with (setPointer (Z.of_nat (length (before ++ [x; c; ty])) - 1) this)
      by (f_equal; ptr).
    rewrite (IH (before ++ [x; c; ty]) after cp n this ltac:(regroup) Hcp)
      by (cbn in Hn; lia).
    do 3 f_equal. f_equal. regroup.
  - assert (tokenAt tokens (Z.of_nat (length before)) = Some x) as Hat
      by (apply (tokenAt_middle tokens before x
                   (c :: other :: ts ++ cp :: after)); [regroup|done]).
    assert (tokenAt tokens (Z.of_nat (length before) + 1) = Some c) as Hat1
      by (apply (tokenAt_middle tokens (before ++ [x]) c
                   (other :: ts ++ cp :: after)); [regroup|ptr]).
    assert (tokenAt tokens (Z.of_nat (length before) + 1 + 1) = Some other)
      as Hat2
      by (apply (tokenAt_middle tokens (before ++ [x; c]) other
                   (ts ++ cp :: after)); [regroup|ptr]).
    rewrite (proj2 (isAtEnd_false tokens _))
      by (apply tokenAt_Some in Hat; cbn; lia).
    rewrite (expect_at tokens _ _ _ _ x (Z.of_nat (length before)))
      by (lia || done).
    rewrite Hx. decide_tests. cbn [bind].
    rewrite decrement_setPointer.
    rewrite (expect_at tokens _ _ _ _ x (Z.of_nat (length before)))
      by (lia || done).
    rewrite Hx. decide_tests. cbn [bind].
    destruct (at_token tokens this _ x Hat) as [_ ->]. cbn [bind].
    rewrite (expect_at tokens _ _ _ _ c (Z.of_nat (length before) + 1))
      by (lia || done).
    rewrite Hc. decide_tests. cbn [bind].
    rewrite increment_setPointer.
    destruct (at_token tokens this _ other Hat2) as [_ ->]. cbn [bind].
    rewrite Hother.
    replace (setPointer (Z.of_nat (length before) + 1 + 1) this)
      with (setPointer (Z.of_nat (length (before ++ [x; c; other])) - 1)
              this) by (f_equal; ptr).
    rewrite (IH (before ++ [x; c; other]) after cp n this ltac:(regroup) Hcp)
      by (cbn in Hn; lia).
    do 3 f_equal. f_equal. regroup.
Qed.

(** A function declaration at the root, up to the call for its body. *)
Lemma step_fn n l i f pos block this before kw name op ps m cp marker ob
  rest :
  tokens = before ++ kw :: name :: op :: ps ++ cp :: marker :: ob :: rest ->
  isWord "fn" kw ->
  type name = TokenType.Identifier ->
  type op = TokenType.OpenParen ->
  ParamTokens ps ∅ m ->
  type cp = TokenType.CloseParen ->
  isMarker marker ->
  type ob = TokenType.OpenBracket ->
  (length ps < n)%nat ->
  whileLoop tokens (S n) true l i f pos block
    (setPointer (Z.of_nat (length before)) this) =
  bind (whileLoop tokens n false i true l (startPos ob) []
          (setPointer
             (Z.of_nat (length (before ++ kw :: name :: op :: ps
                                  ++ [cp; marker; ob]))) this))
    (fun '(innerBlock, this) =>
       whileLoop tokens n true l i f pos block
         (declare (propKey (value name))
            {| stack := functionTypeOf (value marker); params := m;
               body := innerBlock |} this)).
Proof.
  intros Htok [Hkw Hfn] Hname Hop Hps Hcp [Hmk Hmv] Hob Hn.
  assert (tokenAt tokens (Z.of_nat (length before)) = Some kw) as Hat0
    by (apply (tokenAt_middle tokens before kw
                 (name :: op :: ps ++ cp :: marker :: ob :: rest));
        [regroup|done]).
  assert (tokenAt tokens (Z.of_nat (length before) + 1) = Some name) as Hat1
    by (apply (tokenAt_middle tokens (before ++ [kw]) name
                 (op :: ps ++ cp :: marker :: ob :: rest)); [regroup|ptr]).
  assert (tokenAt tokens (Z.of_nat (length before) + 1 + 1) = Some op)
    as Hat2
    by (apply (tokenAt_middle tokens (before ++ [kw; name]) op
                 (ps ++ cp :: marker :: ob :: rest)); [regroup|ptr]).
  set (zc := Z.of_nat (length ((before ++ [kw; name; op]) ++ ps))).
  assert (tokenAt tokens zc = Some cp) as Hat3
    by (apply (tokenAt_middle tokens ((before ++ [kw; name; op]) ++ ps) cp
                 (marker :: ob :: rest)); [regroup|done]).
  assert (tokenAt tokens (zc + 1) = Some marker) as Hat4
    by (apply (tokenAt_middle tokens
                 ((before ++ [kw; name; op]) ++ ps ++ [cp]) marker
                 (ob :: rest)); [regroup|unfold zc; ptr]).
  assert (tokenAt tokens (zc + 1 + 1) = Some ob) as Hat5
    by (apply (tokenAt_middle tokens
                 ((before ++ [kw; name; op]) ++ ps ++ [cp; marker]) ob
                 rest); [regroup|unfold zc; ptr]).
  destruct (at_token tokens this _ kw Hat0) as [Hmore Hpeek].
  cbn [whileLoop]. rewrite Hmore, Hpeek. cbn [bind].
  rewrite Hkw, Hfn. decide_tests.
  rewrite (expect_at tokens _ _ _ _ name (Z.of_nat (length before) + 1))
    by (lia || done).
  rewrite Hname. decide_tests. cbn [bind].
  destruct (at_token tokens this _ name Hat1) as [_ ->]. cbn [bind].
  rewrite (expect_at tokens _ _ _ _ op (Z.of_nat (length before) + 1 + 1))
    by (lia || done).
  rewrite Hop. decide_tests. cbn [bind].
  destruct (at_token tokens this _ op Hat2) as [_ ->]. cbn [bind].
  replace (setPointer (Z.of_nat (length before) + 1 + 1) this)
    with (setPointer (Z.of_nat (length (before ++ [kw; name; op])) - 1)
            this) by (f_equal; ptr).
  rewrite (parseParams_complete ps ∅ m Hps (before ++ [kw; name; op])
             (marker :: ob :: rest) cp n this ltac:(regroup) Hcp Hn).
  cbn [bind]. fold zc.
  destruct (at_token tokens this _ cp Hat3) as [-> _].
  rewrite increment_setPointer.
  destruct (at_token tokens this _ marker Hat4) as [-> ->]. cbn [bind].
  rewrite Hmk, Hmv. decide_tests.
  rewrite (expect_at tokens _ _ _ _ ob (zc + 1 + 1)) by (lia || done).
  rewrite Hob. decide_tests. cbn [bind]. unfold parseStatementWith.
  destruct (at_token tokens this _ ob Hat5) as [_ ->]. cbn [bind negb].
  rewrite increment_setPointer.
  replace (setPointer (zc + 1 + 1 + 1) this)
    with (setPointer
            (Z.of_nat (length (before ++ kw :: name :: op :: ps
                                 ++ [cp; marker; ob]))) this)
    by (f_equal; unfold zc; ptr).
  reflexivity.
Qed.

Lemma toplevel_not_else pre q decls after :
  Toplevel pre q decls -> NotElseFirst after -> NotElseFirst (pre ++ after).
Proof.
  induction 1 as [|ts p rest q decls Hts Hrest IH
                 |kw ? ? ? ? ? ? ? ? ? ? ? ? ? [_ Hfn] _ _ _ _ _ _ _ _ _ _];
    intros Hafter t after' Heq.
  - by apply (Hafter t after').
  - rewrite <- app_assoc in Heq.
    by apply (first_not_else rootFlags ts p (rest ++ after) t after'
                Hts (IH Hafter)).
  - injection Heq as <- _. intros [_ ?]. congruence.
Qed.

(** The loop at the root reads statements and declarations that are
    well formed and goes on behind them, with the functions declared. *)
Lemma toplevel_parsed pre q decls :
  Toplevel pre q decls ->
  forall before after, tokens = before ++ pre ++ after ->
  NotElseFirst after ->
  forall pos block this res,
  yields (fun n => whileLoop tokens n true false false false pos (block ++ q)
                     (setPointer (Z.of_nat (length (before ++ pre)))
                        (declareAll decls this))) res ->
  yields (fun n => whileLoop tokens n true false false false pos block
                     (setPointer (Z.of_nat (length before)) this)) res.
Proof.
  induction 1 as [|ts p rest q decls Hts Hrest IH
                 |kw name op ps m cp marker ob inner pin cb rest q decls
                    Hkw Hname Hop Hps Hcp Hmarker Hob Hinner Hcb Hrest IH];
    intros before after Htok Hnot pos block this res Hres.
  - destruct Hres as [n [Hn Hne]]. exists n. split; [|done].
    rewrite <- Hn, !app_nil_r. done.
  - apply (block_parsed tokens rootFlags ts p Hts before (rest ++ after));
      [regroup|by eapply toplevel_not_else|].
    apply (IH (before ++ ts) after ltac:(regroup) Hnot).
    destruct Hres as [n [Hn Hne]]. exists n. split; [|done].
    rewrite <- Hn, <- !app_assoc. done.
  - assert (res <> OutOfFuel) as Hne by (by destruct Hres as [? [_ ?]]).
    set (nm := propKey (value name)).
    set (fn := {| stack := functionTypeOf (value marker); params := m;
                  body := pin |}).
    set (before' := before ++ kw :: name :: op :: ps ++ cp :: marker :: ob
                      :: inner ++ [cb]).
    destruct (IH before' after ltac:(unfold before'; regroup) Hnot
                pos block (declare nm fn this) res) as [k [Hk _]].
    { destruct Hres as [n [Hn _]]. exists n. split; [|done].
      rewrite <- Hn. f_equal.
      replace (before' ++ rest)
        with (before ++ kw :: name :: op :: ps ++ cp :: marker :: ob
                :: inner ++ cb :: rest) by (unfold before'; regroup).
      reflexivity. }
    destruct (nested_closed tokens (bodyFlags rootFlags) inner pin cb
                (before ++ kw :: name :: op :: ps ++ [cp; marker; ob])
                (rest ++ after) (startPos ob) this
                (block_parsed tokens (bodyFlags rootFlags) inner pin Hinner)
                ltac:(regroup) Hcb) as [k' [Hk' _]].
    cbn [bodyFlags rootFlags fst snd] in Hk'.
    exists (S (max (max k k') (S (length ps)))). split; [|done].
    rewrite (step_fn (max (max k k') (S (length ps))) false false false pos
               block this before kw name op ps m cp
               marker ob (inner ++ cb :: rest ++ after)
               ltac:(regroup) Hkw Hname Hop Hps Hcp Hmarker Hob
               ltac:(lia)).
    rewrite (whileLoop_more tokens _ _ _ _ _ _ _ _ _ _ Hk')
      by (done || lia).
    cbn [bind].
    apply (whileLoop_more tokens k); [|done|lia].
    rewrite <- Hk.
    replace ((before ++ kw :: name :: op :: ps ++ [cp; marker; ob])
               ++ inner ++ [cb]) with before' by (unfold before'; regroup).
    reflexivity.
Qed.

Lemma runs_off_not_else c outer ts pos :
  RunsOff c outer ts pos -> NotElseFirst ts.
Proof.
  intros [c' opened ts' p Hts|c' outer' ts' p hdr ty ob rest pos' Hts Hhdr _ _
         |c' outer' ts' p kw ? ? ? ? ? ? ? ? Hts [_ Hif] _ _ _ _ _ _]
    t after' Heq.
  - by eapply block_not_else.
  - apply (first_not_else c' ts' p (hdr ++ ob :: rest) t after' Hts);
      [|done].
    intros t' a' Heq'. destruct Hhdr; injection Heq' as <- _;
      eapply header_not_else; eauto; by constructor.
  - eapply (first_not_else c' ts' p _ t after' Hts); [|exact Heq].
    intros t' a' [= <- _] [_ ?]. congruence.
Qed.

(** The loop at the root, on a token sequence with an unmatched [{]. *)
Lemma unclosed_fails ts pos :
  Unclosed ts pos -> tokens = ts ->
  forall blockPos this,
  yields (fun n => whileLoop tokens n true false false false blockPos []
                     (setPointer 0 this))
         (Fail (error pos ExpectedEndingBracketPair)).
Proof.
  intros [pre q decls rest pos' Hpre Hrest
         |pre q decls kw name op ps m cp marker ob rest pos' Hpre Hkw Hname
            Hop Hps Hcp Hmarker Hob Hrest] Htok blockPos this.
  - apply (toplevel_parsed pre q decls Hpre [] rest);
      [regroup|by eapply runs_off_not_else|].
    apply (runs_off tokens rootFlags None rest pos' Hrest pre);
      [regroup|done].
  - apply (toplevel_parsed pre q decls Hpre []
             (kw :: name :: op :: ps ++ cp :: marker :: ob :: rest));
      [regroup| |].
    { intros t after' [= <- _] [_ ?]. destruct Hkw. congruence. }
    destruct (runs_off tokens (bodyFlags rootFlags) (Some (startPos ob))
                rest pos' Hrest
                (pre ++ kw :: name :: op :: ps ++ [cp; marker; ob])
                ltac:(regroup) false (startPos ob) []
                (declareAll decls this) (conj eq_refl eq_refl))
      as [k [Hk _]].
    cbn [bodyFlags rootFlags fst snd] in Hk.
    exists (S (max k (S (length ps)))). split; [|done].
    change ([] ++ pre) with pre.
    rewrite (step_fn (max k (S (length ps))) false false false blockPos
               ([] ++ q)
               (declareAll decls this) pre kw name op ps m cp
               marker ob rest ltac:(regroup) Hkw Hname Hop Hps Hcp Hmarker
               Hob ltac:(lia)).
    by rewrite (whileLoop_more tokens _ _ _ _ _ _ _ _ _ _ Hk)
      by (done || lia).
Qed.
End Params.

(** [parse] never runs out of the fuel it takes. *)
Lemma parse_fuel tokens this :
  0 <= pointer this -> parse tokens this <> OutOfFuel.
Proof.
  intros Hpos. unfold parse, parseStatement, parseStatementWith.
  pose proof (ends_peek tokens this) as Hpeek.
  destruct (peek tokens this) as [t| | |]; [|done..]. cbn [bind negb].
  pose proof (whileLoop_ends tokens (S (length tokens)) true false false
                false (startPos t) [] this) as Hends.
  destruct (whileLoop tokens _ _ _ _ _ _ _ _) as [[blk this']| | |];
    [|done|done|].
  - cbn [bind]. unfold checkFunctions.
    destruct (traverse _ _ _ _); [done|]. cbn [functions setProgram].
    generalize (functions this'). intros fs.
    induction (newFunctions (setProgram blk this')) as [|fn rest IH];
      [done|]. cbn [checkNewFunctions].
    destruct (fs !! fn) as [[st ps b]|]; [|done].
    destruct (traverse fs ps b st); [done|exact IH].
  - intros _. apply Hends. unfold remaining. lia.
Qed.

(** ** Further properties of the parser and of the verifier *)

(** *** No exception, and the cursor stays in range *)

Section Safety.
Context (tokens : list Token).
Hypothesis Hnonempty : (0 < length tokens)%nat.

Lemma safe_weaken {A} (P Q : A -> Prop) (m : Outcome A) :
  safe P m -> (forall a, P a -> Q a) -> safe Q m.
Proof. destruct m; cbn; auto. Qed.

Lemma safe_bind {A B} (P : A -> Prop) (Q : B -> Prop) (m : Outcome A)
  (k : A -> Outcome B) :
  safe P m -> (forall a, P a -> safe Q (k a)) -> safe Q (bind m k).
Proof. destruct m; cbn; auto. Qed.

Lemma safe_peek this :
  inRange tokens this -> safe (fun _ => True) (peek tokens this).
Proof.
  intros [Hlo Hhi]. unfold peek, tokenAt.
  destruct (isAtEnd tokens this) eqn:Hend.
  - apply isAtEnd_true in Hend. rewrite bool_decide_eq_true_2 by lia.
    destruct (tokens !! _) eqn:Hlook; [done|].
    apply lookup_ge_None in Hlook. lia.
  - apply isAtEnd_false in Hend. rewrite bool_decide_eq_true_2 by lia.
    destruct (tokens !! _) eqn:Hlook; [done|].
    apply lookup_ge_None in Hlook. lia.
Qed.

Lemma safe_failAtPeek {A} (Q : A -> Prop) msg this :
  inRange tokens this -> safe Q (failAtPeek tokens msg this).
Proof.
  intros H. unfold failAtPeek.
  eapply safe_bind; [by apply safe_peek|]. by intros.
Qed.

Lemma safe_expect ty val this :
  -1 <= pointer this ->
  safe (fun r => r.2 = increment this
                 /\ (r.1 = true -> isAtEnd tokens (increment this) = false))
    (expect tokens ty val this).
Proof.
  intros Hlo. unfold expect.
  destruct (isAtEnd tokens (increment this)) eqn:Hend; [by split|].
  eapply safe_bind.
  - apply safe_peek. apply isAtEnd_false in Hend. unfold inRange.
    cbn [pointer increment setPointer] in *. lia.
  - intros t _. by split.
Qed.

Ltac bounds :=
  repeat match goal with
    | H : true = true -> _ |- _ => specialize (H eq_refl)
    | H : false = true -> _ |- _ => clear H
    | H : isAtEnd _ _ = false |- _ => apply isAtEnd_false in H
    | H : isAtEnd _ _ = true |- _ => apply isAtEnd_true in H
    | H : _ /\ _ |- _ => destruct H
    end;
  unfold inRange in *;
  cbn [safe fst snd pointer increment decrement setPointer declare] in *;
  lia.

Ltac safe_step IH Hnested Hparams :=
  lazymatch goal with
  | |- safe _ (Fail _) => exact I
  | |- safe _ OutOfFuel => exact I
  | |- safe _ (Ret _) => bounds
  | |- safe _ (failAtPeek _ _ _) => apply safe_failAtPeek; bounds
  | |- safe _ (if negb (isAtEnd ?t ?s) && _ && _ then _ else _) =>
      destruct (isAtEnd t s) eqn:?; cbn [negb andb]
  | |- safe _ (if negb ?b then _ else _) =>
      is_var b; destruct b; cbn [negb]
  | |- safe _ (if ?b then _ else _) => destruct b eqn:?
  | |- safe _ (bind (peek _ _) _) =>
      eapply safe_bind; [apply safe_peek; bounds|intros ? _]
  | |- safe _ (bind (expect _ _ _ _) _) =>
      eapply safe_bind;
        [apply safe_expect; bounds|intros [? ?] [? ?]; simplify_eq/=]
  | |- safe _ (bind (parseStatementWith _ _ _ _ _ _ _) _) =>
      eapply safe_bind; [apply Hnested; bounds|intros [? ?] ?]
  | |- safe _ (bind (parseParams _ _ _ _) _) =>
      eapply safe_bind; [apply Hparams; bounds|intros [? ?] ?]
  | |- safe _ (whileLoop _ _ _ _ _ _ _ _ _) =>
      eapply safe_weaken; [apply IH; bounds|intros [? ?] ?; bounds]
  | |- safe _ (parseParams _ _ _ _) =>
      eapply safe_weaken; [apply IH; bounds|intros [? ?] ?; bounds]
  end.

Lemma parseParams_safe fuel parameters this :
  inRange tokens this ->
  safe (fun r => pointer this <= pointer r.2 /\ inRange tokens r.2)
    (parseParams tokens fuel parameters this).
Proof.
  revert parameters this.
  induction fuel as [|fuel IH]; intros parameters this Hrange; [done|].
  cbn [parseParams].
  repeat safe_step IH IH IH.
Qed.

Lemma whileLoop_safe fuel isInRoot isInLoop isInIf isInFunction
  blockPos block this :
  inRange tokens this ->
  safe (fun r => pointer this <= pointer r.2 /\ inRange tokens r.2)
    (whileLoop tokens fuel isInRoot isInLoop isInIf isInFunction
       blockPos block this).
Proof.
  revert isInRoot isInLoop isInIf isInFunction blockPos block this.
  induction fuel as [|fuel IH]; intros isInRoot isInLoop isInIf
    isInFunction blockPos block this Hrange; [done|].
  assert (forall l i f this',
    0 <= pointer this' < Z.of_nat (length tokens) ->
    safe (fun r => pointer this' < pointer r.2 /\ inRange tokens r.2)
      (parseStatementWith tokens (whileLoop tokens fuel) false l i f this'))
    as Hnested.
  { intros l i f this' Hle. unfold parseStatementWith.
    eapply safe_bind; [apply safe_peek; bounds|intros ? _]. cbn [negb].
    eapply safe_weaken; [apply IH; bounds|intros [? ?] ?; bounds]. }
  pose proof (parseParams_safe fuel) as Hparams.
  cbn [whileLoop].
  repeat safe_step IH Hnested Hparams.
Qed.
End Safety.

(** *** What a returned value satisfies *)

Section PostRules.
Context (tokens : list Token).

Lemma post_weaken {A} (P Q : A -> Prop) (m : Outcome A) :
  post P m -> (forall a, P a -> Q a) -> post Q m.
Proof. destruct m; cbn; auto. Qed.

Lemma post_bind {A B} (P : A -> Prop) (Q : B -> Prop) (m : Outcome A)
  (k : A -> Outcome B) :
  post P m -> (forall a, P a -> post Q (k a)) -> post Q (bind m k).
Proof. destruct m; cbn; auto. Qed.

Lemma post_bind_eq {A B} (Q : B -> Prop) (m : Outcome A)
  (k : A -> Outcome B) :
  (forall a, m = Ret a -> post Q (k a)) -> post Q (bind m k).
Proof. destruct m; cbn; auto. Qed.

Lemma post_failAtPeek {A} (Q : A -> Prop) msg this :
  post Q (failAtPeek tokens msg this).
Proof. unfold failAtPeek. by destruct (peek tokens this). Qed.

Lemma post_expect ty val this :
  post (fun r => r.2 = increment this) (expect tokens ty val this).
Proof.
  unfold expect. destruct (isAtEnd tokens (increment this)); [done|].
  by destruct (peek tokens (increment this)).
Qed.

Lemma peek_tokenAt this t :
  isAtEnd tokens this = false -> peek tokens this = Ret t ->
  tokenAt tokens (pointer this) = Some t.
Proof.
  unfold peek. intros ->. by destruct (tokenAt tokens (pointer this)) eqn:?;
    intros [= ->].
Qed.

End PostRules.

Ltac post_step IH Hnested Hparams fin :=
  lazymatch goal with
  | |- post _ (Fail _) => exact I
  | |- post _ OutOfFuel => exact I
  | |- post _ (Ret _) => cbn [post]; fin
  | |- post _ (failAtPeek _ _ _) => apply post_failAtPeek
  | |- post _ (if negb false then _ else _) => cbn [negb]
  | |- post _ (if ?b then _ else _) => destruct b eqn:?
  | |- post _ (bind (peek _ _) _) =>
      apply post_bind_eq; intros ? ?
  | |- post _ (bind (expect _ _ _ _) _) =>
      eapply post_bind; [apply post_expect|intros [? ?] ?; simplify_eq/=]
  | |- post _ (bind (parseStatementWith _ _ _ _ _ _ _) _) =>
      eapply post_bind; [apply Hnested|intros [? ?] ?]
  | |- post _ (bind (parseParams _ _ _ _) _) =>
      eapply post_bind; [apply Hparams|intros [? ?] ?]
  | |- post _ (whileLoop _ _ _ _ _ _ _ _ _) =>
      eapply post_weaken; [apply IH|intros [? ?] ?; fin]
  | |- post _ (parseParams _ _ _ _) =>
      eapply post_weaken; [apply IH|intros [? ?] ?; fin]
  end.

Section Post.
Context (tokens : list Token).

(** *** The function table *)

Lemma lookup_Table (t : Table) name : t !! name = getFunction t name.
Proof. reflexivity. Qed.

Lemma grows_refl t : grows t t.
Proof.
  split; [done|]. exists []. rewrite app_nil_r. split_and!; [done..|].
  intros n Hn. by apply elem_of_nil in Hn.
Qed.

Lemma grows_trans t1 t2 t3 : grows t1 t2 -> grows t2 t3 -> grows t1 t3.
Proof.
  intros [Hp (a & Hnf & Hout & Hproto & Hin)]
    [Hp' (a' & Hnf' & Hout' & Hproto' & Hin')].
  split; [congruence|]. exists (a ++ a').
  split_and!.
  - by rewrite Hnf', Hnf, app_assoc.
  - intros n Hn. rewrite not_elem_of_app in Hn. destruct Hn.
    rewrite Hout', Hout; done.
  - intros Hn. rewrite not_elem_of_app in Hn. destruct Hn.
    rewrite Hproto', Hproto; done.
  - intros n [Hn|Hn]%elem_of_app; [|by apply Hin'].
    destruct (decide (n ∈ a')) as [|Hn']; [by apply Hin'|].
    specialize (Hin n Hn). rewrite lookup_Table in *.
    unfold getFunction in *. rewrite (Hout' n Hn').
    destruct (own t2.1.1 !! n); [done|].
    destruct (bool_decide (n = "__proto__")) eqn:Hname; [|done].
    apply bool_decide_eq_true in Hname as ->. by rewrite Hproto'.
Qed.

Lemma grows_declare fs nf p name fn :
  grows (fs, nf, p) (setFunction name fn fs, nf ++ [name], p).
Proof.
  split; [done|]. exists [name]. cbn [fst snd].
  unfold setFunction.
  destruct (bool_decide (name = "__proto__")
            && bool_decide (own fs !! name = None)) eqn:Htest;
    cbn [own proto]; (split_and!; [done| | |]).
  - done.
  - intros Hn%not_elem_of_cons. destruct Hn as [Hn _].
    by apply andb_true_iff in Htest as [->%bool_decide_eq_true _].
  - intros n ->%list_elem_of_singleton. rewrite lookup_Table.
    unfold getFunction. cbn [own proto].
    apply andb_true_iff in Htest
      as [->%bool_decide_eq_true ->%bool_decide_eq_true].
    rewrite bool_decide_eq_true_2 by done. eauto.
  - intros n Hn%not_elem_of_cons. destruct Hn as [Hn _].
    by apply lookup_insert_ne.
  - done.
  - intros n ->%list_elem_of_singleton. rewrite lookup_Table.
    unfold getFunction. cbn [own proto]. rewrite lookup_insert_eq. eauto.
Qed.

Ltac tbl :=
  unfold table in *;
  cbn [fst snd functions newFunctions program increment decrement
       setPointer declare] in *;
  repeat match goal with
    | H : grows ?a ?b |- grows ?a ?c =>
        apply (grows_trans a b c H); clear H
    end;
  first [ apply grows_refl
        | assumption
        | eapply grows_trans; [eapply grows_declare|eassumption]
        | congruence ].

(** The parameter loop leaves the table alone. *)
Lemma parseParams_table fuel parameters this :
  post (fun r => table r.2 = table this)
    (parseParams tokens fuel parameters this).
Proof.
  revert parameters this.
  induction fuel as [|fuel IH]; intros parameters this; [done|].
  cbn [parseParams].
  repeat post_step IH IH IH ltac:(tbl).
Qed.

(** A block that is not the root leaves the table alone. *)
Lemma whileLoop_nested_table fuel isInLoop isInIf isInFunction
  blockPos block this :
  post (fun r => table r.2 = table this)
    (whileLoop tokens fuel false isInLoop isInIf isInFunction
       blockPos block this).
Proof.
  revert isInLoop isInIf isInFunction blockPos block this.
  induction fuel as [|fuel IH]; intros isInLoop isInIf
    isInFunction blockPos block this; [done|].
  assert (forall l i f this',
    post (fun r => table r.2 = table this')
      (parseStatementWith tokens (whileLoop tokens fuel) false l i f this'))
    as Hnested.
  { intros l i f this'. unfold parseStatementWith.
    apply post_bind_eq; intros ? _. cbn [negb].
    eapply post_weaken; [apply IH|intros [? ?] ?; tbl]. }
  cbn [whileLoop].
  repeat post_step IH Hnested Hnested ltac:(tbl).
Qed.

(** The loop only adds declarations to the table. *)
Lemma whileLoop_table fuel isInRoot isInLoop isInIf isInFunction
  blockPos block this :
  post (fun r => grows (table this) (table r.2))
    (whileLoop tokens fuel isInRoot isInLoop isInIf isInFunction
       blockPos block this).
Proof.
  revert isInRoot isInLoop isInIf isInFunction blockPos block this.
  induction fuel as [|fuel IH]; intros isInRoot isInLoop isInIf
    isInFunction blockPos block this; [done|].
  assert (forall l i f this',
    post (fun r => grows (table this') (table r.2))
      (parseStatementWith tokens (whileLoop tokens fuel) false l i f this'))
    as Hnested.
  { intros l i f this'. unfold parseStatementWith.
    apply post_bind_eq; intros ? _. cbn [negb].
    eapply post_weaken; [apply IH|intros [? ?] ?; tbl]. }
  assert (forall ps this',
    post (fun r => grows (table this') (table r.2))
      (parseParams tokens fuel ps this')) as Hparams.
  { intros ps this'. eapply post_weaken; [apply parseParams_table|].
    intros [? ?] ->. apply grows_refl. }
  cbn [whileLoop].
  repeat post_step IH Hnested Hparams ltac:(tbl).
Qed.

(** *** Where a block ends *)

Lemma post_True {A} (m : Outcome A) : post (fun _ => True) m.
Proof. by destruct m. Qed.

(** A block returns at the end of the input, which only the root may,
    or behind a [}]. *)
Lemma whileLoop_returns fuel isInRoot isInLoop isInIf isInFunction
  blockPos block this :
  post (fun r => isInRoot = true /\ isAtEnd tokens r.2 = true
                 \/ exists cb, tokenAt tokens (pointer r.2 - 1) = Some cb
                               /\ type cb = TokenType.CloseBracket)
    (whileLoop tokens fuel isInRoot isInLoop isInIf isInFunction
       blockPos block this).
Proof.
  revert isInLoop isInIf isInFunction block this.
  induction fuel as [|fuel IH]; intros isInLoop isInIf
    isInFunction block this; [done|].
  pose proof (fun l i f this' =>
    post_True (parseStatementWith tokens (whileLoop tokens fuel)
                 false l i f this')) as Hnested.
  pose proof (fun ps this' =>
    post_True (parseParams tokens fuel ps this')) as Hparams.
  cbn [whileLoop].
  repeat post_step IH Hnested Hparams ltac:(try assumption).
  - left. destruct isInRoot; [done|].
    rewrite andb_true_r in *. congruence.
  - right.
    match goal with
    | Hpeek : peek tokens this = Ret ?t,
      Hclose : bool_decide (type ?t = TokenType.CloseBracket) = true |- _ =>
        exists t; split; [|by apply bool_decide_eq_true in Hclose];
        cbn [snd pointer increment setPointer];
        replace (pointer this + 1 - 1) with (pointer this) by lia;
        by apply peek_tokenAt
    end.
Qed.
End Post.

(** *** The order of the expressions *)

Section Order.
Context (tokens : list Token).

Lemma expressionsOf_app p q :
  expressionsOf (p ++ q) = expressionsOf p ++ expressionsOf q.
Proof. apply flat_map_app. Qed.

Lemma window_split p q r :
  0 <= p <= q -> q <= r ->
  window tokens p r = window tokens p q ++ window tokens q r.
Proof.
  intros Hpq Hqr. unfold window.
  replace (Z.to_nat (r - p)) with (Z.to_nat (q - p) + Z.to_nat (r - q))%nat
    by lia.
  rewrite <- take_take_drop, drop_drop. do 3 f_equal. lia.
Qed.

Lemma window_token p t :
  tokenAt tokens p = Some t -> window tokens p (p + 1) = [t].
Proof.
  unfold tokenAt, window. case_bool_decide; [|done]. intros Hat.
  replace (Z.to_nat (p + 1 - p)) with 1%nat by lia.
  by rewrite (drop_S _ _ _ Hat).
Qed.

Lemma reads_trans b1 t1 b2 t2 r :
  0 <= pointer t1 ->
  reads tokens b1 t1 (b2, t2) -> reads tokens b2 t2 r ->
  reads tokens b1 t1 r.
Proof.
  intros Hpos [Hle (es & Hes & Hsub)] [Hle' (es' & Hes' & Hsub')].
  unfold reads. cbn [fst snd] in *. split; [lia|]. exists (es ++ es'). split.
  - by rewrite Hes', Hes, app_assoc.
  - rewrite (window_split (pointer t1) (pointer t2)) by lia.
    by apply sublist_app.
Qed.

Lemma reads_skip b t t' :
  pointer t <= pointer t' -> reads tokens b t (b, t').
Proof.
  intros Hle. split; [done|]. exists []. split; [by rewrite app_nil_r|].
  apply sublist_nil_l.
Qed.

Lemma reads_push b t c :
  tokenAt tokens (pointer t) = Some c ->
  reads tokens b t (b ++ [Expression c], increment t).
Proof.
  intros Hat. split; [cbn; lia|]. exists [c]. split.
  - cbn [fst]. by rewrite expressionsOf_app.
  - cbn [snd pointer increment setPointer]. by rewrite (window_token _ c).
Qed.

Lemma reads_nest b t t1 inner t2 t' ty :
  0 <= pointer t -> pointer t <= pointer t1 -> pointer t2 <= pointer t' ->
  reads tokens [] t1 (inner, t2) ->
  reads tokens b t (b ++ [Statement ty inner None], t').
Proof.
  intros Hpos Hle Hle2 [Hle' (es & Hes & Hsub)]. unfold reads.
  cbn [fst snd] in *. split; [lia|]. exists es. split.
  - rewrite expressionsOf_app. f_equal. cbn. rewrite !app_nil_r.
    exact Hes.
  - rewrite (window_split (pointer t) (pointer t1)) by lia.
    apply sublist_inserts_l.
    rewrite (window_split (pointer t1) (pointer t2)) by lia.
    by apply sublist_inserts_r.
Qed.

Lemma reads_nest_else b t t1 inner t2 t3 inner' t4 t' :
  0 <= pointer t -> pointer t <= pointer t1 -> pointer t2 <= pointer t3 ->
  pointer t4 <= pointer t' ->
  reads tokens [] t1 (inner, t2) ->
  reads tokens [] t3 (inner', t4) ->
  reads tokens b t (b ++ [Statement If inner (Some inner')], t').
Proof.
  intros Hpos Hle Hle23 Hle4 [Hle' (es & Hes & Hsub)]
    [Hle'' (es' & Hes' & Hsub')].
  unfold reads. cbn [fst snd] in *.
  split; [lia|]. exists (es ++ es'). split.
  - rewrite expressionsOf_app. f_equal. cbn. rewrite !app_nil_r.
    fold (expressionsOf inner) (expressionsOf inner').
    by rewrite Hes, Hes'.
  - rewrite (window_split (pointer t) (pointer t1)) by lia.
    apply sublist_inserts_l.
    rewrite (window_split (pointer t1) (pointer t2)) by lia.
    apply sublist_app; [done|].
    rewrite (window_split (pointer t2) (pointer t3)) by lia.
    apply sublist_inserts_l.
    rewrite (window_split (pointer t3) (pointer t4)) by lia.
    by apply sublist_inserts_r.
Qed.

Lemma parseParams_forward fuel parameters this :
  post (fun r => pointer this <= pointer r.2)
    (parseParams tokens fuel parameters this).
Proof.
  revert parameters this.
  induction fuel as [|fuel IH]; intros parameters this; [done|].
  cbn [parseParams].
  repeat post_step IH IH IH
    ltac:(cbn [fst snd pointer increment decrement setPointer] in *; lia).
Qed.

Ltac ptrs :=
  repeat match goal with
    | H : reads _ _ _ (_, _) |- _ => destruct H as [H _]
    | H : isAtEnd _ _ = false |- _ => apply isAtEnd_false in H
    | H : isAtEnd _ _ = true |- _ => apply isAtEnd_true in H
    end;
  cbn [fst snd pointer increment decrement setPointer declare] in *;
  lia.

Ltac reads_step IH Hnested :=
  lazymatch goal with
  | |- post _ (Fail _) => exact I
  | |- post _ OutOfFuel => exact I
  | |- post _ (Ret _) => cbn [post]; apply reads_skip; ptrs
  | |- post _ (failAtPeek _ _ _) => apply post_failAtPeek
  | |- post _ (if ?b then _ else _) => destruct b eqn:?
  | |- post _ (bind (peek _ _) _) =>
      apply post_bind_eq; intros ? ?
  | |- post _ (bind (expect _ _ _ _) _) =>
      eapply post_bind; [apply post_expect|intros [? ?] ?; simplify_eq/=]
  | |- post _ (bind (parseStatementWith _ _ _ _ _ _ _) _) =>
      eapply post_bind; [apply Hnested; ptrs|intros [? ?] ?]
  | |- post _ (bind (parseParams _ _ _ _) _) =>
      eapply post_bind; [apply parseParams_forward|intros [? ?] ?]
  | |- post _ (whileLoop _ _ _ _ _ _ _ _ _) =>
      eapply post_weaken;
        [apply IH; ptrs
        |intros [? ?] ?;
         eapply reads_trans; [ptrs| |eassumption];
         first [ apply reads_push; by apply peek_tokenAt
               | eapply reads_nest_else;
                   [| | | |eassumption|eassumption]; ptrs
               | eapply reads_nest; [| | |eassumption]; ptrs
               | apply reads_skip; ptrs ]]
  end.

(** The loop adds to its block tokens it passes, in their order. *)
Lemma whileLoop_reads fuel isInRoot isInLoop isInIf isInFunction
  blockPos block this :
  0 <= pointer this ->
  post (reads tokens block this)
    (whileLoop tokens fuel isInRoot isInLoop isInIf isInFunction
       blockPos block this).
Proof.
  revert isInRoot isInLoop isInIf isInFunction blockPos block this.
  induction fuel as [|fuel IH]; intros isInRoot isInLoop isInIf
    isInFunction blockPos block this Hpos; [done|].
  assert (forall l i f this',
    0 <= pointer this' ->
    post (reads tokens [] this')
      (parseStatementWith tokens (whileLoop tokens fuel) false l i f this'))
    as Hnested.
  { intros l i f this' Hle. unfold parseStatementWith.
    apply post_bind_eq; intros ? _. cbn [negb].
    eapply post_weaken; [apply IH; ptrs|].
    intros [? ?] ?. eapply reads_trans; [ptrs| |eassumption].
    apply reads_skip; ptrs. }
  cbn [whileLoop].
  repeat reads_step IH Hnested.
Qed.
End Order.

(** *** Errors inside open blocks *)

Section Descent.
Context (tokens : list Token).

(** A failure inside the innermost open block is the failure of the
    loops around it. *)
Lemma descend c outer d pos :
  RunsOff c outer d pos ->
  forall before after e, tokens = before ++ d ++ after ->
  NotElseFirst after ->
  (forall l i f blockPos block this,
     yields (fun n => whileLoop tokens n false l i f blockPos block
                        (setPointer (Z.of_nat (length (before ++ d))) this))
       (Fail e)) ->
  forall r blockPos block this,
  match outer with Some _ => r = false | None => True end ->
  yields (fun n => whileLoop tokens n r c.1.1 c.1.2 c.2 blockPos block
                     (setPointer (Z.of_nat (length before)) this))
    (Fail e).
Proof.
  induction 1 as [c opened ts p Hts
                 |c outer ts p hdr ty ob rest pos Hts Hhdr Hopen Hrest IH
                 |c outer ts p kw ob inner pin cb kw' ob' rest pos Hts Hif
                    Hopen Hinner Hclose Helse Hopen' Hrest IH];
    intros before after e Htok Hnot Hfail r blockPos block this Houter.
  - subst r.
    apply (block_parsed tokens c ts p Hts before after); [done..|].
    apply Hfail.
  - apply (block_parsed tokens c ts p Hts before
             (hdr ++ ob :: rest ++ after)); [regroup| |].
    { intros t after' Heq. destruct Hhdr; injection Heq as <- _;
        eapply header_not_else; eauto; by constructor. }
    destruct (IH (before ++ ts ++ hdr ++ [ob]) after e ltac:(regroup) Hnot)
      with (r := false) (blockPos := startPos ob) (block := @nil Item)
           (this := this)
      as [k [Hk _]]; [|done|].
    { intros l' i' f' bp blk this'.
      replace ((before ++ ts ++ hdr ++ [ob]) ++ rest)
        with (before ++ ts ++ hdr ++ ob :: rest) by regroup.
      apply Hfail. }
    exists (S k). split; [|done].
    rewrite (step_header tokens k r c.1.1 c.1.2 c.2 blockPos (block ++ p)
               this _ hdr ty ob Hhdr).
    + unfold nested in Hk.
      destruct (nestedFlags ty c.1.1 c.1.2 c.2) as [[l' i'] f'].
      cbn [fst snd] in Hk.
      replace (setPointer (Z.of_nat (length (before ++ ts))
                           + Z.of_nat (length hdr) + 1) this)
        with (setPointer (Z.of_nat (length (before ++ ts ++ hdr ++ [ob])))
                this) by (f_equal; ptr).
      by rewrite Hk.
    + intros j t Hj.
      apply (tokenAt_inside tokens (before ++ ts) hdr (ob :: rest ++ after));
        [regroup|done].
    + apply (tokenAt_middle tokens ((before ++ ts) ++ hdr) ob (rest ++ after));
        [regroup|ptr].
    + done.
  - apply (block_parsed tokens c ts p Hts before
             (kw :: ob :: inner ++ cb :: kw' :: ob' :: rest ++ after));
      [regroup| |].
    { intros t after' [= <- _] [_ Hval]. destruct Hif. congruence. }
    set (q := Z.of_nat (length (before ++ ts ++ kw :: ob :: inner ++ [cb]))).
    destruct (nested_closed tokens (nested If c) inner pin cb
                (before ++ ts ++ [kw; ob])
                (kw' :: ob' :: rest ++ after) (startPos ob) this
                (block_parsed tokens (nested If c) inner pin Hinner)
                ltac:(regroup) Hclose) as [k [Hk _]].
    destruct (IH (before ++ ts ++ kw :: ob :: inner ++ cb :: [kw'; ob'])
                after e ltac:(regroup) Hnot)
      with (r := false) (blockPos := startPos ob') (block := @nil Item)
           (this := this)
      as [k' [Hk' _]]; [|done|].
    { intros l' i' f' bp blk this'.
      replace ((before ++ ts ++ kw :: ob :: inner ++ cb :: [kw'; ob'])
                 ++ rest)
        with (before ++ ts ++ kw :: ob :: inner ++ cb :: kw' :: ob' :: rest)
        by regroup.
      apply Hfail. }
    cbn [nested nestedFlags fst snd] in Hk, Hk'.
    exists (S (max k k')). split; [|done].
    rewrite (step_header tokens _ r c.1.1 c.1.2 c.2 blockPos (block ++ p)
               this _ [kw] If ob (Header_if kw Hif)).
    + cbn [nestedFlags].
      replace (setPointer (Z.of_nat (length (before ++ ts))
                           + Z.of_nat (length [kw]) + 1) this)
        with (setPointer (Z.of_nat (length (before ++ ts ++ [kw; ob])))
                this) by (f_equal; ptr).
      rewrite (whileLoop_more tokens _ _ _ _ _ _ _ _ _ _ Hk)
        by (done || lia).
      cbn [bind].
      replace (setPointer (Z.of_nat (length ((before ++ ts ++ [kw; ob])
                                               ++ inner ++ [cb]))) this)
        with (setPointer q this) by (unfold q; do 3 f_equal; regroup).
      rewrite (ifTail_else tokens _ r c.1.1 c.1.2 c.2 blockPos (block ++ p)
                 pin this q kw' ob');
        [|apply (tokenAt_middle tokens
                   (before ++ ts ++ kw :: ob :: inner ++ [cb])
                   kw' (ob' :: rest ++ after)); [regroup|done]
         |done
         |apply (tokenAt_middle tokens
                   (before ++ ts ++ kw :: ob :: inner ++ [cb; kw'])
                   ob' (rest ++ after)); [regroup|unfold q; ptr]
         |done].
      replace (setPointer (q + 2) this)
        with (setPointer (Z.of_nat (length (before ++ ts ++ kw :: ob
                 :: inner ++ cb :: [kw'; ob']))) this)
        by (f_equal; unfold q; ptr).
      by rewrite (whileLoop_more tokens _ _ _ _ _ _ _ _ _ _ Hk')
        by (done || lia).
    + intros j t Hj.
      apply (tokenAt_inside tokens (before ++ ts) [kw]
               (ob :: inner ++ cb :: kw' :: ob' :: rest ++ after));
        [regroup|done].
    + apply (tokenAt_middle tokens ((before ++ ts) ++ [kw]) ob
               (inner ++ cb :: kw' :: ob' :: rest ++ after)); [regroup|ptr].
    + done.
Qed.

Lemma runs_off_root_nonempty c d pos : RunsOff c None d pos -> d <> [].
Proof.
  intros Hd. remember None as outer eqn:Houter.
  destruct Hd as [| ? ? ts ? hdr ? ? ? ? ? Hhdr|? ? ts]; intros Hnil.
  - discriminate.
  - destruct ts; [|discriminate]. destruct Hhdr; discriminate.
  - destruct ts; discriminate.
Qed.

(** The same from the root, behind statements and declarations. *)
Lemma reaches_fails ts nested after e :
  Reaches ts nested -> tokens = ts ++ after -> NotElseFirst after ->
  (forall l i f blockPos block this,
     yields (fun n => whileLoop tokens n (negb nested) l i f blockPos block
                        (setPointer (Z.of_nat (length ts)) this))
       (Fail e)) ->
  forall blockPos this,
  yields (fun n => whileLoop tokens n true false false false blockPos []
                     (setPointer 0 this)) (Fail e).
Proof.
  intros [pre q decls Hpre|pre q decls d pos Hpre Hd] Htok Hnot Hfail
    blockPos this.
  - apply (toplevel_parsed tokens pre q decls Hpre [] after);
      [regroup|done|]. apply Hfail.
  - apply (toplevel_parsed tokens pre q decls Hpre [] (d ++ after));
      [regroup| |].
    { intros t after' Heq.
      destruct d as [|t' d'].
      - by destruct (runs_off_root_nonempty _ _ _ Hd).
      - injection Heq as <- _.
        by apply (runs_off_not_else rootFlags None (t' :: d') pos Hd t' d'). }
    apply (descend rootFlags None d pos Hd ([] ++ pre) after e);
      [regroup|done| |done].
    intros l' i' f' bp blk this'. cbn [app]. apply Hfail.
Qed.
End Descent.

(** What [parse] returns when the loop at the root yields an error. *)
Lemma parse_fails tokens functions e :
  (forall blockPos,
     yields (fun n => whileLoop tokens n true false false false blockPos []
                        (newParser functions)) (Fail e)) ->
  parse tokens (newParser functions) = Fail e.
Proof.
  intros Hfails.
  destruct tokens as [|t ts'].
  { destruct (Hfails {| line := 0; char := 0 |}) as [[|n] [Hn _]];
      discriminate. }
  unfold parse, parseStatement, parseStatementWith.
  change (peek (t :: ts') (newParser functions)) with (Ret t).
  cbn [bind negb].
  destruct (Hfails (startPos t)) as [n [Hn _]].
  pose proof (whileLoop_ends (t :: ts') (S (length (t :: ts'))) true false
                false false (startPos t) [] (newParser functions)) as Hends.
  destruct (whileLoop_mono (t :: ts') n (max n (S (length (t :: ts'))))
              true false false false (startPos t) []
              (newParser functions) ltac:(lia)) as [Hout|Hsame];
    [congruence|].
  destruct (whileLoop_mono (t :: ts') (S (length (t :: ts')))
              (max n (S (length (t :: ts'))))
              true false false false (startPos t) []
              (newParser functions) ltac:(lia)) as [Hout|Hsame'].
  - rewrite Hout in Hends. exfalso. apply Hends. unfold remaining.
    cbn [pointer newParser]. lia.
  - rewrite Hsame', <- Hsame, Hn. reflexivity.
Qed.

(** *** Tokens that are refused everywhere *)

Section Errors.
Context (tokens : list Token).

Lemma includes_false l v :
  includes l v = false -> forall s, s ∈ l -> value_is v s = false.
Proof.
  unfold includes. intros H s Hs.
  destruct (value_is v s) eqn:Hv; [|done].
  assert (existsb (value_is v) l = true) as Ht; [|congruence].
  apply existsb_exists. exists s. split; [|done].
  by apply list_elem_of_In.
Qed.

Lemma step_rejected n r l i f blockPos block this z t msg :
  tokenAt tokens z = Some t -> Rejected t msg ->
  whileLoop tokens (S n) r l i f blockPos block (setPointer z this)
  = Fail (error (startPos t) msg).
Proof.
  intros Hat Hrej. destruct (at_token tokens this z t Hat) as [Hmore Hpeek].
  cbn [whileLoop]. rewrite Hmore, Hpeek. cbn [bind].
  destruct Hrej as [t Hty|t [Hty Hmark]|t Hty Hunknown].
  - rewrite bool_decide_eq_true_2 by done. done.
  - rewrite Hty. decide_tests.
    destruct (value t) as [s| |]; try discriminate Hmark.
    unfold includes in *. cbn [existsb value_is] in *.
    repeat match type of Hmark with
      | bool_decide (s = ?k) || _ = true =>
          destruct (decide (s = k)) as [->|?];
            [decide_tests; reflexivity
            |rewrite (bool_decide_eq_false_2 (s = k)) in Hmark by done;
             cbn [orb] in Hmark]
      end.
    discriminate.
  - rewrite Hty. decide_tests.
    pose proof (includes_false _ _ Hunknown) as Hk.
    unfold includes. cbn [existsb].
    rewrite !Hk by (apply list_elem_of_In; cbn; tauto).
    reflexivity.
Qed.

Lemma rejected_not_else t msg : Rejected t msg -> ~ isWord "else" t.
Proof.
  intros [t' Hty|t' [Hty Hmark]|t' Hty Hunknown] [Hkw Hval].
  - rewrite Hkw in Hty. apply list_elem_of_In in Hty. cbn in Hty.
    intuition discriminate.
  - rewrite Hval in Hmark. discriminate.
  - rewrite Hval in Hunknown. discriminate.
Qed.
End Errors.


(** *** Statements that are not opened *)

Section Headers.
Context (tokens : list Token).

Lemma peek_next this before rest :
  tokens = before ++ rest -> before <> [] ->
  peek tokens (setPointer (Z.of_nat (length before)) this)
  = Ret (match rest with
         | u :: _ => u
         | [] => {| type := TokenType.CloseBracket;
                    startPos := nextPos before [];
                    endPos := nextPos before [];
                    value := VStr "" |}
         end).
Proof.
  intros Htok Hne. destruct rest as [|u rest'].
  - unfold peek. rewrite app_nil_r in Htok. subst before.
    rewrite (proj2 (isAtEnd_true tokens _)) by (cbn; lia).
    cbn [pointer setPointer]. unfold nextPos, tokenAt.
    rewrite bool_decide_eq_true_2 by (destruct tokens; [done|cbn; lia]).
    replace (Z.to_nat (Z.of_nat (length tokens) - 1))
      with (pred (length tokens)) by lia.
    rewrite <- last_lookup.
    destruct (last tokens) eqn:Hlast; [done|].
    by apply last_None in Hlast.
  - by destruct (at_token tokens this _ u
                   (tokenAt_middle tokens before u rest' _ Htok eq_refl))
      as [_ ->].
Qed.

(** A statement header that no [{] follows. *)
Lemma step_no_bracket n r l i f blockPos block this before hdr ty rest :
  tokens = before ++ hdr ++ rest -> Header hdr ty ->
  match rest with
  | u :: _ => type u <> TokenType.OpenBracket
  | [] => True
  end ->
  whileLoop tokens (S n) r l i f blockPos block
    (setPointer (Z.of_nat (length before)) this)
  = Fail (error (nextPos (before ++ hdr) rest) (bracketMessage ty)).
Proof.
  intros Htok Hhdr Hrest.
  assert (forall k t, hdr !! k = Some t ->
            tokenAt tokens (Z.of_nat (length before) + Z.of_nat k) = Some t)
    as Hat by (intros k t Hk; by apply (tokenAt_inside tokens before hdr rest)).
  assert (expect tokens TokenType.OpenBracket None
            (setPointer (Z.of_nat (length (before ++ hdr)) - 1) this)
          = Ret (false, setPointer (Z.of_nat (length (before ++ hdr))) this))
    as Hexpect.
  { destruct rest as [|u rest'].
    - rewrite expect_end.
      + rewrite pointer_setPointer, setPointer_setPointer.
        do 2 f_equal. f_equal. lia.
      + rewrite pointer_setPointer. subst tokens. rewrite app_nil_r.
        rewrite !length_app. lia.
    - rewrite (expect_at tokens _ _ _ _ u (Z.of_nat (length (before ++ hdr))));
        [|lia|apply (tokenAt_middle tokens (before ++ hdr) u rest');
              [regroup|done]].
      by rewrite (bool_decide_eq_false_2 _ Hrest). }
  assert (failAtPeek tokens (bracketMessage ty)
            (setPointer (Z.of_nat (length (before ++ hdr))) this)
          = @Fail (Program * Parser)
              (error (nextPos (before ++ hdr) rest) (bracketMessage ty)))
    as Hfail.
  { unfold failAtPeek.
    rewrite (peek_next this (before ++ hdr) rest ltac:(regroup))
      by (destruct Hhdr, before; discriminate).
    cbn [bind]. by destruct rest. }
  assert (tokenAt tokens (Z.of_nat (length before)) = hdr !! 0%nat) as H0.
  { destruct Hhdr; cbn; rewrite <- (Hat 0%nat _ eq_refl); f_equal; lia. }
  destruct Hhdr as [kw [Hty Hval]|kw kw' [Hty Hval] [Hty' Hval']
                   |kw kw' [Hty Hval] [Hty' Hval']|kw [Hty Hval]];
    destruct (at_token tokens this _ kw H0) as [Hmore Hpeek];
    cbn [whileLoop]; rewrite Hmore, Hpeek; cbn [bind];
    rewrite Hty, Hval; decide_tests.
  - replace (setPointer (Z.of_nat (length before)) this)
      with (setPointer (Z.of_nat (length (before ++ [kw])) - 1) this)
      by (f_equal; ptr).
    rewrite Hexpect. cbn [bind negb]. exact Hfail.
  - rewrite (expect_at tokens _ _ _ _ kw' (Z.of_nat (length before) + 1))
      by (lia || (apply (Hat 1%nat); done)).
    rewrite Hty', Hval'. decide_tests. cbn [bind].
    replace (setPointer (Z.of_nat (length before) + 1) this)
      with (setPointer (Z.of_nat (length (before ++ [kw; kw'])) - 1) this)
      by (f_equal; ptr).
    rewrite Hexpect. cbn [bind negb]. exact Hfail.
  - rewrite (expect_at tokens _ _ _ _ kw' (Z.of_nat (length before) + 1))
      by (lia || (apply (Hat 1%nat); done)).
    rewrite Hty', Hval'. decide_tests. cbn [bind].
    replace (setPointer (Z.of_nat (length before) + 1) this)
      with (setPointer (Z.of_nat (length (before ++ [kw; kw'])) - 1) this)
      by (f_equal; ptr).
    rewrite Hexpect. cbn [bind negb]. exact Hfail.
  - replace (setPointer (Z.of_nat (length before)) this)
      with (setPointer (Z.of_nat (length (before ++ [kw])) - 1) this)
      by (f_equal; ptr).
    rewrite Hexpect. cbn [bind negb]. exact Hfail.
Qed.

(** A function declaration in a block that is not the root. *)
Lemma step_nested_fn n l i f blockPos block this z kw :
  tokenAt tokens z = Some kw -> isWord "fn" kw ->
  whileLoop tokens (S n) false l i f blockPos block (setPointer z this)
  = Fail (error (startPos kw) NestedFunction).
Proof.
  intros Hat [Hty Hval].
  destruct (at_token tokens this z kw Hat) as [Hmore Hpeek].
  cbn [whileLoop]. rewrite Hmore, Hpeek. cbn [bind].
  rewrite Hty, Hval. decide_tests. reflexivity.
Qed.
End Headers.



(** [parse] returns a parser: the block, the parser behind it, and the
    verdict of [#checkFunctions]. *)
Lemma parse_Ret tokens this this' :
  parse tokens this = Ret this' ->
  exists block after,
    parseStatement tokens (S (length tokens)) true false false false this
    = Ret (block, after)
    /\ this' = setProgram block after
    /\ checkFunctions this' = Ret tt.
Proof.
  unfold parse.
  destruct (parseStatement _ _ _ _ _ _ _) as [[block after]| | |];
    try discriminate.
  cbn [bind].
  destruct (checkFunctions (setProgram block after)) as [[]| | |] eqn:Hcheck;
    try discriminate.
  intros [= <-]. by exists block, after.
Qed.

(** The loop at the root, with enough fuel, returns what it yields. *)
Lemma parseStatement_yields t ts functions res :
  yields (fun n => whileLoop (t :: ts) n true false false false
                     (startPos t) [] (newParser functions)) res ->
  parseStatement (t :: ts) (S (length (t :: ts))) true false false false
    (newParser functions) = res.
Proof.
  intros [n [Hn Hne]].
  unfold parseStatement, parseStatementWith.
  change (peek (t :: ts) (newParser functions)) with (Ret t).
  cbn [bind negb].
  pose proof (whileLoop_ends (t :: ts) (S (length (t :: ts))) true false
                false false (startPos t) [] (newParser functions)) as Hends.
  destruct (whileLoop_mono (t :: ts) n (max n (S (length (t :: ts))))
              true false false false (startPos t) []
              (newParser functions) ltac:(lia)) as [Hout|Hsame];
    [congruence|].
  destruct (whileLoop_mono (t :: ts) (S (length (t :: ts)))
              (max n (S (length (t :: ts))))
              true false false false (startPos t) []
              (newParser functions) ltac:(lia)) as [Hout|Hsame'].
  - rewrite Hout in Hends. exfalso. apply Hends. unfold remaining.
    cbn [pointer newParser]. lia.
  - by rewrite Hsame', <- Hsame.
Qed.

(** X2.  Well-formed statements and declarations are parsed to their
    tree: the whole input is read, the functions are declared in their
    order, and the verdict is the verifier's. *)
Theorem toplevel_parsed_whole ts p decls
  (functions : Table) :
  Toplevel ts p decls -> ts <> [] ->
  parse ts (newParser functions) =
  let this := setProgram p
                (setPointer (Z.of_nat (length ts))
                   (declareAll decls (newParser functions))) in
  bind (checkFunctions this) (fun _ => Ret this).
Proof.
  intros Htop Hne. destruct ts as [|t ts']; [done|].
  unfold parse.
  rewrite (parseStatement_yields t ts' functions
             (Ret (p, setPointer (Z.of_nat (length (t :: ts')))
                        (declareAll decls (newParser functions))))).
  { reflexivity. }
  change (newParser functions) with (setPointer 0 (newParser functions))
    at 1.
  apply (toplevel_parsed (t :: ts') (t :: ts') p decls Htop [] []);
    [regroup|done|].
  exists 1%nat. split; [|done]. rewrite step_end; [done|].
  rewrite app_nil_l. lia.
Qed.

Lemma checkNewFunctions_declared functions names :
  Forall (fun n => is_Some (functions !! n)) names ->
  checkNewFunctions functions names <> Throw
  /\ checkNewFunctions functions names <> OutOfFuel.
Proof.
  induction 1 as [|n names [[st ps b] Hn] _ IH]; [done|].
  cbn [checkNewFunctions]. rewrite Hn.
  by destruct (traverse functions ps b st).
Qed.

(** X1.  On a token sequence that is not empty, [parse] ends without an
    exception: it returns an error, or a parser whose cursor is between
    the first token and the end of the input. *)
Theorem parse_returns tokens (fs : Table) :
  tokens <> [] ->
  (exists this, parse tokens (newParser fs) = Ret this
                /\ 0 <= pointer this <= Z.of_nat (length tokens))
  \/ (exists e, parse tokens (newParser fs) = Fail e).
Proof.
  intros Hne.
  assert (0 < length tokens)%nat as Hlen by (destruct tokens; [done|cbn; lia]).
  assert (inRange tokens (newParser fs)) as Hrange
    by (unfold inRange; cbn; lia).
  unfold parse, parseStatement, parseStatementWith.
  pose proof (safe_peek tokens Hlen _ Hrange) as Hpeek.
  pose proof (ends_peek tokens (newParser fs)) as Hpeek'.
  destruct (peek tokens (newParser fs)) as [t|e| |];
    [|right; by exists e|done|done].
  cbn [bind negb].
  pose proof (whileLoop_safe tokens Hlen (S (length tokens)) true false
                false false (startPos t) [] _ Hrange) as Hsafe.
  pose proof (whileLoop_ends tokens (S (length tokens)) true false
                false false (startPos t) [] (newParser fs)
                ltac:(unfold remaining; cbn; lia)) as Hends.
  pose proof (whileLoop_table tokens (S (length tokens)) true false
                false false (startPos t) [] (newParser fs))
    as Htable.
  destruct (whileLoop tokens _ _ _ _ _ _ _ _) as [[block this]|e| |];
    [|right; by exists e|done|done].
  cbn [bind safe post snd] in *.
  destruct Htable as [_ (added & Hnew & _ & Hadded)].
  cbn [table fst snd newFunctions functions newParser app] in *.
  unfold checkFunctions. cbn [functions program newFunctions setProgram].
  destruct (traverse (functions this) ∅ block StackType.Int)
    as [e|]; [right; by exists e|].
  destruct (checkNewFunctions_declared (functions this)
              (newFunctions this)) as [Hthrow Hfuel].
  { rewrite Hnew. apply Forall_forall. intros n Hn. by apply Hadded. }
  destruct (checkNewFunctions _ _) as [[]|e| |];
    [left|right; by exists e|done|done].
  eexists. split; [reflexivity|]. cbn [pointer setProgram].
  unfold inRange in Hsafe. lia.
Qed.

(** What holds of the loop for every block and parser holds of
    [#parseStatement]. *)
Lemma parseStatement_post tokens fuel isInRoot isInLoop isInIf isInFunction
  this (P : Parser -> Program * Parser -> Prop) :
  (forall blockPos this',
     post (P this')
       (whileLoop tokens fuel isInRoot isInLoop isInIf isInFunction
          blockPos [] this')) ->
  (forall r, P (increment this) r -> P this r) ->
  post (P this)
    (parseStatement tokens fuel isInRoot isInLoop isInIf isInFunction this).
Proof.
  intros Hloop Hinc. unfold parseStatement, parseStatementWith.
  apply post_bind_eq. intros t _. destruct isInRoot; cbn [negb].
  - apply Hloop.
  - eapply post_weaken; [apply Hloop|]. apply Hinc.
Qed.

(** X9.  [parse] only adds to the table: [functions[name]] is a
    declaration for each name it lists as newly declared, the own
    properties of [functions] are as they were at every other name, and
    its prototype is as it was unless [__proto__] is one of the
    names. *)
Theorem parse_table tokens this this' :
  parse tokens this = Ret this' ->
  exists added,
    newFunctions this' = newFunctions this ++ added
    /\ (forall n, n ∉ added ->
          own (functions this') !! n = own (functions this) !! n)
    /\ ("__proto__" ∉ added ->
          proto (functions this') = proto (functions this))
    /\ (forall n, n ∈ added -> is_Some (functions this' !! n)).
Proof.
  intros (block & after & Hparse & -> & _)%parse_Ret.
  pose proof (parseStatement_post tokens (S (length tokens)) true false
                false false this
                (fun this r => grows (table this) (table r.2))) as Hpost.
  rewrite Hparse in Hpost.
  destruct Hpost as [_ Hgrows]; [|done|exact Hgrows].
  intros blockPos this0. apply whileLoop_table.
Qed.

(** X10.  A block that is not the root declares nothing: it returns with
    the table it was entered with. *)
Theorem nested_block_table tokens fuel isInLoop isInIf isInFunction
  this block this' :
  parseStatement tokens fuel false isInLoop isInIf isInFunction this
  = Ret (block, this') ->
  functions this' = functions this
  /\ newFunctions this' = newFunctions this.
Proof.
  intros Hparse.
  pose proof (parseStatement_post tokens fuel false isInLoop isInIf
                isInFunction this
                (fun this r => table r.2 = table this)) as Hpost.
  rewrite Hparse in Hpost.
  assert (table this' = table this) as [= ? ? ?]; [|done].
  apply Hpost; [|done].
  intros blockPos this0. apply whileLoop_nested_table.
Qed.

(** X11.  [#parseStatement] returns a block only behind a [}], or, for the
    root, at the end of the input. *)
Theorem block_end tokens fuel isInRoot isInLoop isInIf isInFunction
  this block this' :
  parseStatement tokens fuel isInRoot isInLoop isInIf isInFunction this
  = Ret (block, this') ->
  isInRoot = true /\ Z.of_nat (length tokens) <= pointer this'
  \/ exists cb, tokenAt tokens (pointer this' - 1) = Some cb
                /\ type cb = TokenType.CloseBracket.
Proof.
  intros Hparse.
  pose proof (parseStatement_post tokens fuel isInRoot isInLoop isInIf
                isInFunction this
                (fun _ r =>
                   isInRoot = true /\ isAtEnd tokens r.2 = true
                   \/ exists cb, tokenAt tokens (pointer r.2 - 1) = Some cb
                                 /\ type cb = TokenType.CloseBracket))
    as Hpost.
  rewrite Hparse in Hpost.
  destruct Hpost as [[? Hend%isAtEnd_true]|?]; [| |by left|by right].
  - intros blockPos this0. apply whileLoop_returns.
  - done.
Qed.

Lemma window_sublist tokens p q : window tokens p q `sublist_of` tokens.
Proof.
  unfold window. etrans; [apply sublist_take|apply sublist_drop].
Qed.

(** X12.  The expressions of the program [parse] returns are tokens of the
    input, in the order of the input. *)
Theorem expressions_in_order tokens this this' :
  0 <= pointer this ->
  parse tokens this = Ret this' ->
  expressionsOf (program this') `sublist_of` tokens.
Proof.
  intros Hpos (block & after & Hparse & -> & _)%parse_Ret.
  cbn [program setProgram].
  unfold parseStatement, parseStatementWith in Hparse.
  destruct (peek tokens this) as [t| | |]; try discriminate.
  cbn [bind negb] in Hparse.
  pose proof (whileLoop_reads tokens (S (length tokens)) true false false
                false (startPos t) [] this Hpos) as Hreads.
  rewrite Hparse in Hreads. destruct Hreads as [_ (es & Hes & Hsub)].
  cbn [fst snd] in *. rewrite Hes. cbn [expressionsOf flat_map app].
  etrans; [exact Hsub|apply window_sublist].
Qed.

(** ** The verifier *)

(** Induction on a tree, with the blocks of a statement. *)
Lemma Item_induction (P : Item -> Prop) :
  (forall e, P (Expression e)) ->
  (forall ty block els,
     Forall P block ->
     match els with Some elseBlock => Forall P elseBlock | None => True end ->
     P (Statement ty block els)) ->
  forall item, P item.
Proof.
  intros Hexpr Hstmt.
  refine (fix IH item :=
            match item with
            | Expression e => Hexpr e
            | Statement ty block els =>
                let all :=
                  fix all (l : list Item) : Forall P l :=
                    match l with
                    | [] => @List.Forall_nil _ P
                    | x :: rest => @List.Forall_cons _ P x rest (IH x) (all rest)
                    end in
                Hstmt ty block els (all block)
                  match els with
                  | Some elseBlock => all elseBlock
                  | None => I
                  end
            end).
Qed.

(** *** What an error is about *)

Section VerifierFacts.
Context (fs : Table).
Context (otherIdentifiers : gmap string StackType).

(** X14.  The error of a program is the error of its first items: what
    follows them is not looked at. *)
Theorem traverse_first_error p q current e :
  traverse fs otherIdentifiers p current = Some e ->
  traverse fs otherIdentifiers (p ++ q) current = Some e.
Proof.
  revert current. induction p as [|item p IH]; intros current; [done|].
  cbn [app]. rewrite !traverse_cons.
  destruct (traverseItem fs otherIdentifiers item current); [apply IH|done].
Qed.

Lemma traverseExpression_error t current e :
  traverseExpression fs otherIdentifiers t current = Return e ->
  blames fs otherIdentifiers e t.
Proof.
  unfold traverseExpression, blames.
  destruct (type t) eqn:Hty; try discriminate.
  - cbn zeta. destruct (readIdentifier otherIdentifiers _); [discriminate|].
    destruct (calleeStack fs _) as [declared|].
    + unfold differs.
      destruct (bool_decide (OfType <$> declared <> Some current)) eqn:H1;
        [|discriminate].
      destruct (bool_decide (declared <> Some StackType.Any)) eqn:H2;
        [|discriminate].
      intros [= <-]. split_and!; [done..|].
      exists current. apply bool_decide_eq_true in H1, H2. by split_and!.
    + intros [= <-]. by split_and!.
  - repeat case_match; discriminate.
Qed.

Lemma forOf_blames p :
  Forall (fun item => forall current e,
            traverseItem fs otherIdentifiers item current = Return e ->
            exists t, t ∈ expressionsOfItem item
                      /\ blames fs otherIdentifiers e t) p ->
  forall current e,
  forOf (traverseItem fs otherIdentifiers) p current = Some e ->
  exists t, t ∈ expressionsOf p /\ blames fs otherIdentifiers e t.
Proof.
  induction 1 as [|item p Hitem _ IH]; intros current e; [done|].
  cbn [forOf expressionsOf flat_map].
  destruct (traverseItem fs otherIdentifiers item current)
    as [next|e'] eqn:Hturn.
  - intros (t & Ht & Hb)%IH. exists t. split; [|done].
    apply elem_of_app. by right.
  - intros [= <-]. destruct (Hitem _ _ Hturn) as (t & Ht & Hb).
    exists t. split; [|done]. apply elem_of_app. by left.
Qed.

Lemma traverseItem_blames item :
  forall current e,
  traverseItem fs otherIdentifiers item current = Return e ->
  exists t, t ∈ expressionsOfItem item /\ blames fs otherIdentifiers e t.
Proof.
  induction item as [t|ty block els IHblock _] using Item_induction;
    intros current e Herr.
  - exists t. split; [apply list_elem_of_In; cbn; tauto|].
    by eapply traverseExpression_error.
  - pose proof (forOf_blames block IHblock) as Hblock.
    assert (exists current' , forOf (traverseItem fs otherIdentifiers)
                                block current' = Some e)
      as (current' & Hfor).
    { cbn [traverseItem] in Herr.
      destruct ty, els; cbn zeta in Herr;
        repeat match type of Herr with
          | context [forOf ?f ?p ?c] =>
              let H := fresh "Hfor" in
              destruct (forOf f p c) eqn:H
          end; try discriminate;
        injection Herr as <-; eauto. }
    destruct (Hblock _ _ Hfor) as (t & Ht & Hb). exists t. split; [|done].
    cbn [expressionsOfItem]. apply elem_of_app. by left.
Qed.

(** X15.  Every error of the verifier is about an identifier of the
    program, and is at it: one that [otherIdentifiers] does not answer
    to, by a property of its own or by an inherited one, and that
    either [this.functions] does not answer to ([Undeclared identifier])
    or answers to with a [stack] other than the current stack value and
    than [Any] (the call that is not found, with the current stack
    value, which is what an identifier read before left there). *)
Theorem traverse_blames p current e :
  traverse fs otherIdentifiers p current = Some e ->
  exists t, t ∈ expressionsOf p /\ blames fs otherIdentifiers e t.
Proof.
  apply forOf_blames. apply Forall_forall. intros item _.
  apply traverseItem_blames.
Qed.
End VerifierFacts.

(** *** More functions *)

Section Extension.
Context (fs fs' : Table).
Context (otherIdentifiers : gmap string StackType).
Hypothesis Hmore : extends fs fs'.

Lemma traverseExpression_extend t current next :
  traverseExpression fs otherIdentifiers t current = Next next ->
  traverseExpression fs' otherIdentifiers t current = Next next.
Proof.
  unfold traverseExpression. destruct (type t); try done.
  cbn zeta. destruct (readIdentifier otherIdentifiers _); [done|].
  destruct (calleeStack fs _) as [declared|] eqn:Hfn; [|done].
  by rewrite (Hmore _ _ Hfn).
Qed.

Lemma forOf_extend p :
  Forall (fun item => forall current next,
            traverseItem fs otherIdentifiers item current = Next next ->
            traverseItem fs' otherIdentifiers item current = Next next) p ->
  forall current,
  forOf (traverseItem fs otherIdentifiers) p current = None ->
  forOf (traverseItem fs' otherIdentifiers) p current = None.
Proof.
  induction 1 as [|item p Hitem _ IH]; intros current; [done|].
  cbn [forOf].
  destruct (traverseItem fs otherIdentifiers item current)
    as [next|e'] eqn:Hturn; [|done].
  rewrite (Hitem _ _ Hturn). apply IH.
Qed.

Lemma traverseItem_extend item :
  forall current next,
  traverseItem fs otherIdentifiers item current = Next next ->
  traverseItem fs' otherIdentifiers item current = Next next.
Proof.
  induction item as [t|ty block els IHblock _] using Item_induction;
    intros current next Hnext.
  - by apply traverseExpression_extend.
  - pose proof (forOf_extend block IHblock) as Hblock.
    cbn [traverseItem] in *.
    destruct ty, els; cbn zeta in *;
      repeat match type of Hnext with
        | context [forOf ?f ?p ?c] =>
            let H := fresh "Hfor" in
            destruct (forOf f p c) eqn:H
        end; try discriminate;
      repeat match goal with
        | H : forOf _ _ _ = None |- _ => apply Hblock in H; rewrite H
        end; done.
Qed.

(** X16.  Declaring more functions keeps an accepted program accepted:
    a program that passes with a table passes with every table that
    answers as it does wherever it answers. *)
Theorem traverse_extend p current :
  traverse fs otherIdentifiers p current = None ->
  traverse fs' otherIdentifiers p current = None.
Proof.
  apply forOf_extend. apply Forall_forall. intros item _.
  apply traverseItem_extend.
Qed.
End Extension.

(** A declaration under a name the table does not answer to leaves its
    other answers as they were. *)
Lemma setFunction_extends name fn fs :
  calleeStack fs name = None -> extends fs (setFunction name fn fs).
Proof.
  intros Hfresh key declared Hkey.
  assert (key <> name) as Hne by congruence.
  assert (name <> "__proto__") as Hproto.
  { intros ->. unfold calleeStack, getFunction in Hfresh.
    repeat case_match; simplify_eq; vm_compute in *; congruence. }
  unfold setFunction. rewrite bool_decide_eq_false_2 by done.
  cbn [andb]. unfold calleeStack, getFunction in *. cbn [own proto].
  by rewrite lookup_insert_ne.
Qed.


(** X1, on [fn f ( ) @int { 1 } f]. *)
Lemma parse_returns_witness :
  (exists this, parse fn_then_call (newParser ∅) = Ret this
                /\ 0 <= pointer this <= 9)
  \/ (exists e, parse fn_then_call (newParser ∅) = Fail e).
Proof.
  apply (parse_returns fn_then_call ∅). discriminate.
Defined.




(** X2, on [fn f ( __proto__ : int a ) @int { a } f]: the declaration
    of [f] with the parameter [a] alone, then the call, and both pass
    the verifier. *)
Lemma toplevel_parsed_whole_witness :
  parse fn_proto_param (newParser ∅) = Ret fn_proto_param_parsed.
Proof.
  refine (eq_trans
            (toplevel_parsed_whole fn_proto_param
               [Expression (identifier "f" 1 39 39)]
               [("f", {| stack := StackType.Int;
                         params := {[ "a" := StackType.Any ]};
                         body := [Expression (identifier "a" 1 35 35)] |})]
               ∅ _ _) _).
  - apply (Toplevel_fn (keyword "fn" 1 1 2) (identifier "f" 1 4 4)
             (openParen 1 6 6)
             [identifier "__proto__" 1 8 16; colon 1 18 18;
              keyword "int" 1 20 22; identifier "a" 1 24 24]
             {[ "a" := StackType.Any ]} (closeParen 1 26 26)
             (keyword "@int" 1 28 31) (openBracket 1 33 33)
             [identifier "a" 1 35 35] [Expression (identifier "a" 1 35 35)]
             (closeBracket 1 37 37) [identifier "f" 1 39 39]
             [Expression (identifier "f" 1 39 39)] []
             (conj eq_refl eq_refl) eq_refl eq_refl
             (Params_typed (identifier "__proto__" 1 8 16) (colon 1 18 18)
                (keyword "int" 1 20 22) [identifier "a" 1 24 24] ∅ _
                eq_refl eq_refl eq_refl eq_refl
                (Params_bare (identifier "a" 1 24 24) [] ∅ _ eq_refl
                   (Params_nil _)))
             eq_refl
             (conj eq_refl eq_refl) eq_refl
             (Block_plain _ (identifier "a" 1 35 35) [] [] eq_refl
                (Block_nil _))
             eq_refl).
    apply (Toplevel_block [identifier "f" 1 39 39]
             [Expression (identifier "f" 1 39 39)] [] [] []
             (Block_plain _ (identifier "f" 1 39 39) [] [] eq_refl
                (Block_nil _))
             Toplevel_nil).
  - discriminate.
  - vm_compute. reflexivity.
Defined.

(** X9, on [fn __proto__ ( ) @int { }], from the empty table: no own
    property is added, and the prototype is the declaration. *)
Lemma parse_table_witness :
  exists added,
    newFunctions fn_proto_parsed = newFunctions (newParser ∅) ++ added
    /\ (forall n, n ∉ added ->
          own (functions fn_proto_parsed) !! n
          = own (functions (newParser ∅)) !! n)
    /\ ("__proto__" ∉ added ->
          proto (functions fn_proto_parsed)
          = proto (functions (newParser ∅)))
    /\ (forall n, n ∈ added -> is_Some (functions fn_proto_parsed !! n)).
Proof.
  apply (parse_table fn_proto (newParser ∅) fn_proto_parsed).
  vm_compute. reflexivity.
Defined.


(** X10, on the block [{ if { 1 } else { 2 } }]. *)
Lemma nested_block_table_witness :
  functions (setPointer 10 (newParser anyTable)) = anyTable
  /\ newFunctions (setPointer 10 (newParser anyTable)) = [].
Proof.
  apply (nested_block_table block_if_else 11 true false false
           (newParser anyTable) block_if_else_tree
           (setPointer 10 (newParser anyTable))).
  vm_compute. reflexivity.
Defined.

(** X11, on the same block: it ends behind its [}]. *)
Lemma block_end_witness :
  false = true /\ 10 <= pointer (setPointer 10 (newParser anyTable))
  \/ exists cb,
       tokenAt block_if_else
         (pointer (setPointer 10 (newParser anyTable)) - 1) = Some cb
       /\ type cb = TokenType.CloseBracket.
Proof.
  apply (block_end block_if_else 11 false true false false
           (newParser anyTable) block_if_else_tree
           (setPointer 10 (newParser anyTable))).
  vm_compute. reflexivity.
Defined.

(** X12, on [fn f ( ) @int { 1 } f]: the program is the call alone. *)
Lemma expressions_in_order_witness :
  expressionsOf (program fn_then_call_parsed) `sublist_of` fn_then_call.
Proof.
  apply (expressions_in_order fn_then_call (newParser ∅)
           fn_then_call_parsed).
  - vm_compute. discriminate.
  - vm_compute. reflexivity.
Defined.

(** X14, on [x 1] with [x] undeclared. *)
Lemma traverse_first_error_witness :
  traverse ∅ ∅
    ([Expression (identifier "x" 1 1 1)] ++ [Expression (int "1" 1 3 3)])
    StackType.Int
  = Some (error {| line := 1; char := 1 |}
            (UndeclaredIdentifier (VStr "x"))).
Proof.
  apply (traverse_first_error ∅ ∅ [Expression (identifier "x" 1 1 1)]
           [Expression (int "1" 1 3 3)] StackType.Int).
  vm_compute. reflexivity.
Defined.

(** X15, on [constructor neg] with [neg] a function of floats: the
    empty context answers to [constructor], and the error is at [neg],
    with what [constructor] left as the stack value. *)
Lemma traverse_blames_witness :
  exists t,
    t ∈ expressionsOf
          [Expression (identifier "constructor" 1 1 11);
           Expression (identifier "neg" 1 13 15)]
    /\ blames floatTable ∅
         (error {| line := 1; char := 13 |}
            (CallNotFoundAtStack (Inherited "constructor") (VStr "neg"))) t.
Proof.
  apply (traverse_blames floatTable ∅
           [Expression (identifier "constructor" 1 1 11);
            Expression (identifier "neg" 1 13 15)]
           StackType.Float).
  vm_compute. reflexivity.
Defined.

(** X16, on [1.5 neg], from the table of [neg], a function of floats,
    to that table with [drop] declared too. *)
Lemma traverse_extend_witness :
  traverse (setFunction "drop" intFunction floatTable) ∅
    [Expression (token TokenType.Float (VNum "1.5") 1 1 3);
     Expression (identifier "neg" 1 5 7)] StackType.Int = None.
Proof.
  apply (traverse_extend floatTable (setFunction "drop" intFunction floatTable)
           ∅ (setFunction_extends "drop" intFunction floatTable eq_refl)
           [Expression (token TokenType.Float (VNum "1.5") 1 1 3);
            Expression (identifier "neg" 1 5 7)] StackType.Int).
  vm_compute. reflexivity.
Defined.

(** *** Keywords that are not followed up, or out of context *)

Section Missing.
Context (tokens : list Token).

Lemma expect_follows ty val this before rest :
  tokens = before ++ rest -> before <> [] ->
  expect tokens ty val (setPointer (Z.of_nat (length before) - 1) this)
  = Ret (follows ty val rest, setPointer (Z.of_nat (length before)) this).
Proof.
  intros Htok Hne. destruct rest as [|u rest'].
  - rewrite expect_end.
    + rewrite pointer_setPointer, setPointer_setPointer.
      cbn [follows]. do 2 f_equal. f_equal. lia.
    + rewrite pointer_setPointer. subst tokens. rewrite app_nil_r. lia.
  - by rewrite (expect_at tokens _ _ _ _ u (Z.of_nat (length before)));
      [|lia|apply (tokenAt_middle tokens before u rest')].
Qed.

Lemma failAtPeek_next {A} msg this before rest :
  tokens = before ++ rest -> before <> [] ->
  failAtPeek tokens msg (setPointer (Z.of_nat (length before)) this)
  = @Fail A (error (nextPos before rest) msg).
Proof.
  intros Htok Hne. unfold failAtPeek.
  rewrite (peek_next tokens this before rest Htok Hne).
  cbn [bind]. by destruct rest.
Qed.

Lemma step_misses n r l i f blockPos block this before hdr rest msg :
  tokens = before ++ hdr ++ rest -> Misses r hdr rest msg ->
  whileLoop tokens (S n) r l i f blockPos block
    (setPointer (Z.of_nat (length before)) this)
  = Fail (error (nextPos (before ++ hdr) rest) msg).
Proof.
  intros Htok Hmiss.
  assert (forall k t, hdr !! k = Some t ->
            tokenAt tokens (Z.of_nat (length before) + Z.of_nat k) = Some t)
    as Hat by (intros k t Hk; by apply (tokenAt_inside tokens before hdr rest)).
  assert (tokenAt tokens (Z.of_nat (length before)) = hdr !! 0%nat) as H0.
  { destruct Hmiss; cbn; rewrite <- (Hat 0%nat _ eq_refl); f_equal; lia. }
  assert (before ++ hdr <> []) as Hne by (destruct Hmiss, before; discriminate).
  pose proof (fun ty val =>
                expect_follows ty val this (before ++ hdr) rest
                  ltac:(regroup) Hne) as Hexpect.
  pose proof (fun msg =>
                failAtPeek_next (A := Program * Parser) msg this
                  (before ++ hdr) rest ltac:(regroup) Hne) as Hfail.
  destruct Hmiss as [r kw rest [Hty Hval] Hrest|r kw rest [Hty Hval] Hrest
                    |kw rest [Hty Hval] Hrest
                    |kw name rest [Hty Hval] Hname Hrest];
    destruct (at_token tokens this _ kw H0) as [Hmore Hpeek];
    cbn [whileLoop]; rewrite Hmore, Hpeek; cbn [bind];
    rewrite Hty, Hval; decide_tests.
  - replace (setPointer (Z.of_nat (length before)) this)
      with (setPointer (Z.of_nat (length (before ++ [kw])) - 1) this)
      by (f_equal; ptr).
    rewrite Hexpect, Hrest. cbn [bind negb]. apply Hfail.
  - replace (setPointer (Z.of_nat (length before)) this)
      with (setPointer (Z.of_nat (length (before ++ [kw])) - 1) this)
      by (f_equal; ptr).
    rewrite Hexpect, Hrest. cbn [bind negb]. apply Hfail.
  - replace (setPointer (Z.of_nat (length before)) this)
      with (setPointer (Z.of_nat (length (before ++ [kw])) - 1) this)
      by (f_equal; ptr).
    rewrite Hexpect, Hrest. cbn [bind negb]. apply Hfail.
  - rewrite (expect_at tokens _ _ _ _ name (Z.of_nat (length before) + 1))
      by (lia || (apply (Hat 1%nat); done)).
    rewrite Hname. decide_tests. cbn [bind].
    destruct (at_token tokens this _ name (Hat 1%nat _ eq_refl))
      as [_ Hpeek'].
    change (Z.of_nat 1) with 1 in Hpeek'. rewrite Hpeek'. cbn [bind].
    replace (setPointer (Z.of_nat (length before) + 1) this)
      with (setPointer (Z.of_nat (length (before ++ [kw; name])) - 1) this)
      by (f_equal; ptr).
    rewrite Hexpect, Hrest. cbn [bind negb]. apply Hfail.
Qed.

Lemma misses_not_else r hdr rest msg t after :
  Misses r hdr rest msg -> hdr ++ rest = t :: after -> ~ isWord "else" t.
Proof.
  intros Hmiss Heq [_ Hval].
  destruct Hmiss as [? kw ? [_ Hkw]|? kw ? [_ Hkw]|kw ? [_ Hkw]
                    |kw ? ? [_ Hkw]];
    injection Heq as <- _; congruence.
Qed.

Lemma step_contextual n r blockPos block this z kw word :
  tokenAt tokens z = Some kw ->
  type kw = TokenType.Keyword -> value kw = VStr word ->
  word ∈ ["any"; "break"; "continue"] ->
  whileLoop tokens (S n) r false false false blockPos block
    (setPointer z this)
  = Fail (error (startPos kw) (contextMessage word)).
Proof.
  intros Hat Hty Hval Hword.
  destruct (at_token tokens this z kw Hat) as [Hmore Hpeek].
  cbn [whileLoop]. rewrite Hmore, Hpeek. cbn [bind]. rewrite Hty, Hval.
  repeat (apply elem_of_cons in Hword as [->|Hword]);
    [| | |by apply elem_of_nil in Hword]; reflexivity.
Qed.

Lemma step_else n r l i f blockPos block this z kw :
  tokenAt tokens z = Some kw -> isWord "else" kw ->
  whileLoop tokens (S n) r l i f blockPos block (setPointer z this)
  = Fail (error (startPos kw) UnexpectedElse).
Proof.
  intros Hat [Hty Hval].
  destruct (at_token tokens this z kw Hat) as [Hmore Hpeek].
  cbn [whileLoop]. rewrite Hmore, Hpeek. cbn [bind]. rewrite Hty, Hval.
  reflexivity.
Qed.
End Missing.


(** X7.  [any], [break] and [continue] at the root, behind well-formed
    statements and declarations, are refused at the keyword. *)
Theorem root_contextual_refused pre q decls kw word rest
  (fs : Table) :
  Toplevel pre q decls ->
  type kw = TokenType.Keyword -> value kw = VStr word ->
  word ∈ ["any"; "break"; "continue"] ->
  parse (pre ++ kw :: rest) (newParser fs)
  = Fail (error (startPos kw) (contextMessage word)).
Proof.
  intros Hpre Hty Hval Hword. apply parse_fails. intros blockPos.
  change (newParser fs) with (setPointer 0 (newParser fs)).
  apply (toplevel_parsed (pre ++ kw :: rest) pre q decls Hpre []
           (kw :: rest)); [regroup| |].
  - intros t' after' [= <- _] [_ Hval']. rewrite Hval in Hval'.
    injection Hval' as ->.
    apply list_elem_of_In in Hword. cbn in Hword. intuition discriminate.
  - exists 1%nat. split; [|done]. cbn [app].
    apply step_contextual with (word := word); [|done..].
    by apply (tokenAt_middle _ pre kw rest).
Qed.



(** X7, on [1 continue]. *)
Lemma root_contextual_refused_witness :
  parse root_continue (newParser ∅)
  = Fail (error {| line := 1; char := 3 |} UnexpectedContinue).
Proof.
  apply (root_contextual_refused [int "1" 1 1 1]
           [Expression (int "1" 1 1 1)] [] (keyword "continue" 1 3 10)
           "continue" [] ∅).
  - apply (Toplevel_block [int "1" 1 1 1] [Expression (int "1" 1 1 1)]
             [] [] []
             (Block_plain _ (int "1" 1 1 1) [] [] eq_refl (Block_nil _))
             Toplevel_nil).
  - reflexivity.
  - reflexivity.
  - apply list_elem_of_In. cbn. tauto.
Defined.


(** ** Open blocks: what the error of an unmatched [{] says of the input *)

Section Shapes.

Lemma Block_app c a pa b pb :
  Block c a pa -> Block c b pb -> Block c (a ++ b) (pa ++ pb).
Proof.
  induction 1 as [c|c t ts p Hpushed Hblock IH
                 |c hdr ty ob inner pin cb ts p Hhdr Hopen Hinner _
                    Hclose Hts IHts
                 |c kw ob inner pin cb kw' ob' inner' pin' cb' ts p Hif Hopen
                    Hinner _ Hclose Helse Hopen' Hinner' _ Hclose' Hts IHts];
    intros Hb.
  - done.
  - cbn [app]. by apply Block_plain; [|apply IH].
  - replace ((hdr ++ ob :: inner ++ cb :: ts) ++ b)
      with (hdr ++ ob :: inner ++ cb :: (ts ++ b)) by regroup.
    cbn [app]. by apply Block_statement; [..|apply IHts].
  - replace ((kw :: ob :: inner ++ cb :: kw' :: ob' :: inner' ++ cb' :: ts)
               ++ b)
      with (kw :: ob :: inner ++ cb :: kw' :: ob' :: inner' ++ cb'
               :: (ts ++ b)) by regroup.
    cbn [app]. by apply Block_if_else; [..|apply IHts].
Qed.

Lemma RunsOff_prepend c outer a pa d pos :
  Block c a pa -> RunsOff c outer d pos -> RunsOff c outer (a ++ d) pos.
Proof.
  intros Ha Hd. revert Ha.
  destruct Hd as [c opened ts p Hts
                 |c outer ts p hdr ty ob rest pos Hts Hhdr Hopen Hrest
                 |c outer ts p kw ob inner pin cb kw' ob' rest pos Hts Hif
                    Hopen Hinner Hclose Helse Hopen' Hrest]; intros Ha.
  - exact (RunsOff_end _ _ _ _ (Block_app _ _ _ _ _ Ha Hts)).
  - rewrite app_assoc.
    exact (RunsOff_block _ _ _ _ _ _ _ _ _ (Block_app _ _ _ _ _ Ha Hts)
             Hhdr Hopen Hrest).
  - rewrite app_assoc.
    exact (RunsOff_else _ _ _ _ _ _ _ _ _ _ _ _ _
             (Block_app _ _ _ _ _ Ha Hts) Hif Hopen Hinner Hclose Helse
             Hopen' Hrest).
Qed.

Lemma Unclosed_prepend a pa d pos :
  Block rootFlags a pa -> Unclosed d pos -> Unclosed (a ++ d) pos.
Proof.
  intros Ha [pre q decls rest pos' Hpre Hrest
            |pre q decls kw name op ps m cp marker ob rest pos' Hpre Hkw
               Hname Hop Hps Hcp Hmarker Hob Hrest].
  - rewrite app_assoc.
    exact (Unclosed_statement _ _ _ _ _
             (Toplevel_block _ _ _ _ _ Ha Hpre) Hrest).
  - rewrite app_assoc.
    exact (Unclosed_fn _ _ _ _ _ _ _ _ _ _ _ _ _
             (Toplevel_block _ _ _ _ _ Ha Hpre) Hkw Hname Hop Hps Hcp
             Hmarker Hob Hrest).
Qed.

Lemma Unclosed_prepend_fn kw name op ps m cp marker ob inner pin cb d pos :
  isWord "fn" kw ->
  type name = TokenType.Identifier ->
  type op = TokenType.OpenParen ->
  ParamTokens ps ∅ m ->
  type cp = TokenType.CloseParen ->
  isMarker marker ->
  type ob = TokenType.OpenBracket ->
  Block (bodyFlags rootFlags) inner pin ->
  type cb = TokenType.CloseBracket ->
  Unclosed d pos ->
  Unclosed
    (kw :: name :: op :: ps ++ cp :: marker :: ob :: inner ++ cb :: d) pos.
Proof.
  intros Hkw Hname Hop Hps Hcp Hmarker Hob Hinner Hcb
    [pre q decls rest pos' Hpre Hrest
    |pre q decls kw' name' op' ps' m' cp' marker' ob' rest pos' Hpre Hkw'
       Hname' Hop' Hps' Hcp' Hmarker' Hob' Hrest].
  - replace (kw :: name :: op :: ps ++ cp :: marker :: ob :: inner ++ cb
               :: pre ++ rest)
      with ((kw :: name :: op :: ps ++ cp :: marker :: ob :: inner ++ cb
               :: pre) ++ rest) by regroup.
    exact (Unclosed_statement _ _ _ _ _
             (Toplevel_fn _ _ _ _ _ _ _ _ _ _ _ _ _ _ Hkw Hname Hop Hps Hcp
                Hmarker Hob Hinner Hcb Hpre) Hrest).
  - replace (kw :: name :: op :: ps ++ cp :: marker :: ob :: inner ++ cb
               :: pre ++ kw' :: name' :: op' :: ps' ++ cp' :: marker'
               :: ob' :: rest)
      with ((kw :: name :: op :: ps ++ cp :: marker :: ob :: inner ++ cb
               :: pre) ++ kw' :: name' :: op' :: ps' ++ cp' :: marker'
               :: ob' :: rest) by regroup.
    exact (Unclosed_fn _ _ _ _ _ _ _ _ _ _ _ _ _
             (Toplevel_fn _ _ _ _ _ _ _ _ _ _ _ _ _ _ Hkw Hname Hop Hps Hcp
                Hmarker Hob Hinner Hcb Hpre) Hkw' Hname' Hop' Hps' Hcp'
             Hmarker' Hob' Hrest).
Qed.
End Shapes.

Section Converse.
Context (tokens : list Token).

Lemma suffixAt_cons p t :
  tokenAt tokens p = Some t ->
  suffixAt tokens p = t :: suffixAt tokens (p + 1).
Proof.
  unfold tokenAt, suffixAt. case_bool_decide; [|discriminate].
  intros Hat. rewrite (drop_S _ _ _ Hat). do 2 f_equal. lia.
Qed.

Lemma suffixAt_end p :
  Z.of_nat (length tokens) <= p -> suffixAt tokens p = [].
Proof. intros H. apply drop_ge. lia. Qed.

Lemma value_is_word t w :
  type t = TokenType.Keyword -> value_is (value t) w = true -> isWord w t.
Proof.
  intros Hty Hval. split; [done|]. unfold value_is in Hval.
  destruct (value t); try discriminate.
  by apply bool_decide_eq_true in Hval as ->.
Qed.

(** *** What the parts of the loop return *)

Lemma derives_peek r c bp block this0 this
  (k : Token -> Outcome (Program * Parser)) :
  (forall t, peek tokens this = Ret t ->
             derives tokens r c bp block this0 (k t)) ->
  derives tokens r c bp block this0 (bind (peek tokens this) k).
Proof.
  intros Hk. pose proof (ends_peek tokens this) as Hends.
  destruct (peek tokens this) as [t|e| |] eqn:Hpeek; cbn [bind];
    [by apply Hk| |done|done].
  unfold peek in Hpeek. by repeat case_match.
Qed.

Lemma derives_failAtPeek r c bp block this0 msg this :
  msg <> ExpectedEndingBracketPair ->
  derives tokens r c bp block this0 (failAtPeek tokens msg this).
Proof.
  intros Hmsg. unfold failAtPeek. apply derives_peek. intros t _.
  cbn [derives message error]. congruence.
Qed.

Lemma derives_expect r c bp block this0 ty val this
  (k : bool * Parser -> Outcome (Program * Parser)) :
  (forall ok,
     (ok = true ->
      exists t, tokenAt tokens (pointer this + 1) = Some t
                /\ type t = ty
                /\ match val with
                   | Some v => bool_decide (v = "") || value_is (value t) v
                               = true
                   | None => True
                   end) ->
     derives tokens r c bp block this0 (k (ok, increment this))) ->
  derives tokens r c bp block this0 (bind (expect tokens ty val this) k).
Proof.
  intros Hk. unfold expect.
  destruct (isAtEnd tokens (increment this)) eqn:Hend.
  - cbn [bind]. apply Hk. discriminate.
  - destruct (peek tokens (increment this)) as [t|e| |] eqn:Hpeek;
      cbn [bind]; [| |done|done].
    + apply Hk. intros [Hty Hval]%andb_true_iff. exists t.
      apply bool_decide_eq_true in Hty. split_and!; [|done|].
      * by apply (peek_tokenAt tokens (increment this)).
      * by destruct val.
    + unfold peek in Hpeek. by repeat case_match.
Qed.

(** *** How the shapes compose *)

(** The loop passed the tokens [a], which are pushed or closed
    statements, and goes on behind them. *)
Lemma derives_chunk r c bp block this this' a pa res :
  suffixAt tokens (pointer this) = a ++ suffixAt tokens (pointer this') ->
  Block c a pa ->
  derives tokens r c bp (block ++ pa) this' res ->
  derives tokens r c bp block this res.
Proof.
  intros Hsuffix Ha. destruct res as [[block' this'']|e| |]; [| |done..];
    cbn [derives]; rewrite Hsuffix.
  - intros H Hr. destruct (H Hr) as (ts & p & cb & -> & Hcb & Hts & ->).
    exists (a ++ ts), (pa ++ p), cb.
    split_and!; [by rewrite <- app_assoc|done|by apply Block_app
                |by rewrite app_assoc].
  - intros H Hmsg. specialize (H Hmsg). destruct r.
    + intros ->. by eapply Unclosed_prepend; [|apply H].
    + by eapply RunsOff_prepend.
Qed.

Lemma derives_push r c bp block this t res :
  tokenAt tokens (pointer this) = Some t -> isPushed c t = true ->
  derives tokens r c bp (block ++ [Expression t]) (increment this) res ->
  derives tokens r c bp block this res.
Proof.
  intros Hat Hpushed. apply (derives_chunk _ _ _ _ _ _ [t]).
  - by rewrite (suffixAt_cons _ t).
  - by apply Block_plain; [|apply Block_nil].
Qed.

(** The loop enters a block and the input ends in it. *)
Lemma derives_open r c bp block this hdr ty ob rest e :
  suffixAt tokens (pointer this) = hdr ++ ob :: rest ->
  Header hdr ty -> type ob = TokenType.OpenBracket ->
  (message e = ExpectedEndingBracketPair ->
   RunsOff (nested ty c) (Some (startPos ob)) rest (at_ e)) ->
  derives tokens r c bp block this (Fail e).
Proof.
  intros Hsuffix Hhdr Hob H. cbn [derives]. rewrite Hsuffix.
  intros Hmsg. specialize (H Hmsg). destruct r.
  - intros ->.
    apply (Unclosed_statement [] [] [] _ _ Toplevel_nil).
    by apply (RunsOff_block rootFlags None [] [] hdr ty ob rest _
                (Block_nil _)).
  - by apply (RunsOff_block c (Some bp) [] [] hdr ty ob rest _
                (Block_nil _)).
Qed.

Lemma derives_open_else r c bp block this kw ob inner pin cb kw' ob' rest e :
  suffixAt tokens (pointer this)
  = kw :: ob :: inner ++ cb :: kw' :: ob' :: rest ->
  isWord "if" kw -> type ob = TokenType.OpenBracket ->
  Block (nested If c) inner pin -> type cb = TokenType.CloseBracket ->
  isWord "else" kw' -> type ob' = TokenType.OpenBracket ->
  (message e = ExpectedEndingBracketPair ->
   RunsOff (nested If c) (Some (startPos ob')) rest (at_ e)) ->
  derives tokens r c bp block this (Fail e).
Proof.
  intros Hsuffix Hkw Hob Hinner Hcb Hkw' Hob' H. cbn [derives].
  rewrite Hsuffix. intros Hmsg. specialize (H Hmsg). destruct r.
  - intros ->.
    apply (Unclosed_statement [] [] [] _ _ Toplevel_nil).
    by apply (RunsOff_else rootFlags None [] [] kw ob inner pin cb kw' ob'
                rest _ (Block_nil _)).
  - by apply (RunsOff_else c (Some bp) [] [] kw ob inner pin cb kw' ob'
                rest _ (Block_nil _)).
Qed.

Lemma derives_open_fn c bp block this kw name op ps m cp marker ob rest e :
  suffixAt tokens (pointer this)
  = kw :: name :: op :: ps ++ cp :: marker :: ob :: rest ->
  isWord "fn" kw ->
  type name = TokenType.Identifier ->
  type op = TokenType.OpenParen ->
  ParamTokens ps ∅ m ->
  type cp = TokenType.CloseParen ->
  isMarker marker ->
  type ob = TokenType.OpenBracket ->
  (message e = ExpectedEndingBracketPair ->
   RunsOff (bodyFlags c) (Some (startPos ob)) rest (at_ e)) ->
  derives tokens true c bp block this (Fail e).
Proof.
  intros Hsuffix Hkw Hname Hop Hps Hcp Hmarker Hob H. cbn [derives].
  rewrite Hsuffix. intros Hmsg ->. specialize (H Hmsg).
  by apply (Unclosed_fn [] [] [] kw name op ps m cp marker ob rest _
              Toplevel_nil).
Qed.

Lemma derives_fn c bp block this this' kw name op ps m cp marker ob inner
  pin cb res :
  suffixAt tokens (pointer this)
  = kw :: name :: op :: ps ++ cp :: marker :: ob :: inner ++ cb
       :: suffixAt tokens (pointer this') ->
  isWord "fn" kw ->
  type name = TokenType.Identifier ->
  type op = TokenType.OpenParen ->
  ParamTokens ps ∅ m ->
  type cp = TokenType.CloseParen ->
  isMarker marker ->
  type ob = TokenType.OpenBracket ->
  Block (bodyFlags c) inner pin ->
  type cb = TokenType.CloseBracket ->
  derives tokens true c bp block this' res ->
  derives tokens true c bp block this res.
Proof.
  intros Hsuffix Hkw Hname Hop Hps Hcp Hmarker Hob Hinner Hcb.
  destruct res as [[block' this'']|e| |]; [done| |done..].
  cbn [derives]. rewrite Hsuffix. intros H Hmsg ->.
  by apply (Unclosed_prepend_fn _ _ _ _ m _ _ _ _ pin); [..|apply H].
Qed.

(** *** The parameters *)

Lemma failAtPeek_not_Ret {A} msg this (a : A) :
  failAtPeek tokens msg this <> Ret a.
Proof. unfold failAtPeek. by destruct (peek tokens this). Qed.

Lemma expect_inv ty val this ok this' :
  expect tokens ty val this = Ret (ok, this') ->
  this' = increment this
  /\ (ok = true ->
      exists t, tokenAt tokens (pointer this + 1) = Some t
                /\ type t = ty
                /\ match val with
                   | Some v => bool_decide (v = "") || value_is (value t) v
                               = true
                   | None => True
                   end).
Proof.
  unfold expect. destruct (isAtEnd tokens (increment this)) eqn:Hend.
  - intros [= <- <-]. by split.
  - destruct (peek tokens (increment this)) as [t|e| |] eqn:Hpeek;
      cbn [bind]; try discriminate.
    intros [= <- <-]. split; [done|].
    intros [Hty Hval]%andb_true_iff. exists t.
    apply bool_decide_eq_true in Hty. split_and!; [|done|].
    + by apply (peek_tokenAt tokens (increment this)).
    + by destruct val.
Qed.

Ltac zs :=
  cbn [pointer increment decrement setPointer declare fst snd] in *;
  repeat match goal with
    | |- context [suffixAt _ ?z] => progress ring_simplify z
    | |- context [tokenAt _ ?z] => progress ring_simplify z
    | H : context [tokenAt _ ?z] |- _ => progress ring_simplify z in H
    | H : context [suffixAt _ ?z] |- _ => progress ring_simplify z in H
    end.

Lemma parseParams_at_end fuel m this m' this' :
  isAtEnd tokens this = true ->
  parseParams tokens fuel m this = Ret (m', this') -> this' = this.
Proof.
  intros Hend. destruct fuel as [|fuel]; [discriminate|].
  cbn [parseParams]. rewrite Hend. by intros [= _ <-].
Qed.

(** The parameter loop stops on a [)] behind parameters. *)
Lemma parseParams_tokens fuel m this m' this' :
  parseParams tokens fuel m this = Ret (m', this') ->
  isAtEnd tokens this' = false ->
  exists ps cp,
    suffixAt tokens (pointer this + 1)
    = ps ++ cp :: suffixAt tokens (pointer this' + 1)
    /\ type cp = TokenType.CloseParen
    /\ ParamTokens ps m m'.
Proof.
  revert m this. induction fuel as [|fuel IH]; intros m this; [discriminate|].
  cbn [parseParams]. intros Hrun Hmore.
  destruct (isAtEnd tokens this) eqn:Hend; [congruence|].
  destruct (expect tokens TokenType.CloseParen None this)
    as [[closed this1]|e| |] eqn:Hclosed; try discriminate.
  apply expect_inv in Hclosed as [-> Hclosed]. cbn [bind] in Hrun.
  destruct closed.
  { injection Hrun as <- <-. destruct (Hclosed eq_refl) as (cp & Hat & Hcp & _).
    exists [], cp. zs. split_and!; [|done|constructor].
    rewrite (suffixAt_cons _ cp Hat). zs. done. }
  clear Hclosed.
  destruct (expect tokens TokenType.Identifier None _)
    as [[ok this2]|e| |] eqn:Hname; try discriminate.
  apply expect_inv in Hname as [-> Hname]. cbn [bind] in Hrun.
  destruct ok; cbn [negb] in Hrun; [|by apply failAtPeek_not_Ret in Hrun].
  destruct (Hname eq_refl) as (x & Hx & Hident & _). clear Hname.
  zs.
  rewrite (proj2 (on_token tokens (increment (decrement (increment this))) x
                    ltac:(zs; done))) in Hrun.
  cbn [bind] in Hrun.
  destruct (expect tokens TokenType.Colon None _)
    as [[colon this3]|e| |] eqn:Hcolon; try discriminate.
  apply expect_inv in Hcolon as [-> Hcolon]. cbn [bind] in Hrun.
  destruct colon.
  - destruct (Hcolon eq_refl) as (c & Hc & Hcol & _). clear Hcolon. zs.
    set (this4 := increment (increment (increment (decrement
                                                     (increment this)))))
      in *.
    destruct (isAtEnd tokens this4) eqn:Hend4.
    { assert (this' = this4) as ->; [|congruence].
      destruct (peek tokens this4); try discriminate. cbn [bind] in Hrun.
      destruct (_ && _); by eapply parseParams_at_end. }
    destruct (peek tokens this4) as [other| | |] eqn:Hpeek; try discriminate.
    pose proof (peek_tokenAt tokens this4 other Hend4 Hpeek) as Hother.
    cbn [bind] in Hrun. unfold this4 in Hother. zs.
    destruct (bool_decide (type other = TokenType.Keyword)
              && includes ["int"; "str"; "float"; "bool"; "any"]
                   (value other)) eqn:Htest;
      destruct (IH _ _ Hrun Hmore) as (ps & cp & Hsuffix & Hcp & Hps);
      unfold this4 in Hsuffix; zs;
      exists (x :: c :: other :: ps), cp;
      (split_and!; [|done|]).
    + rewrite (suffixAt_cons _ x Hx). zs.
      rewrite (suffixAt_cons _ c Hc). zs.
      rewrite (suffixAt_cons _ other Hother). zs.
      by rewrite Hsuffix.
    + apply andb_true_iff in Htest as [Hkw%bool_decide_eq_true Hty].
      by apply Params_typed.
    + rewrite (suffixAt_cons _ x Hx). zs.
      rewrite (suffixAt_cons _ c Hc). zs.
      rewrite (suffixAt_cons _ other Hother). zs.
      by rewrite Hsuffix.
    + by apply Params_untyped.
  - destruct (IH _ _ Hrun Hmore) as (ps & cp & Hsuffix & Hcp & Hps). zs.
    exists (x :: ps), cp. split_and!; [|done|by apply Params_bare].
    rewrite (suffixAt_cons _ x Hx). zs. by rewrite Hsuffix.
Qed.

(** *** The loop *)

Lemma parseParams_quiet fuel m this e :
  parseParams tokens fuel m this = Fail e ->
  message e <> ExpectedEndingBracketPair.
Proof.
  revert m this. induction fuel as [|fuel IH]; intros m this; [discriminate|].
  cbn [parseParams]. unfold failAtPeek, expect, bind.
  repeat (case_match; try discriminate); try (by intros [= <-]);
    try apply IH.
  all: unfold peek in *; repeat case_match; simplify_eq.
Qed.

Lemma peek_at this t x :
  peek tokens this = Ret t -> tokenAt tokens (pointer this) = Some x ->
  t = x.
Proof.
  intros Hpeek Hat. destruct (on_token tokens this x Hat) as [_ Hx].
  congruence.
Qed.

Ltac walk :=
  lazymatch goal with
  | |- derives _ _ _ _ _ _ (Fail (error _ ?msg)) =>
      lazymatch msg with
      | ExpectedEndingBracketPair => fail
      | _ => by cbn [derives message error]
      end
  | |- derives _ _ _ _ _ _ (if negb ?b then _ else _) =>
      destruct b eqn:?; cbn [negb]
  | |- derives _ _ _ _ _ _ (if ?b then _ else _) => destruct b eqn:?
  | |- derives _ _ _ _ _ _ (bind (peek _ _) _) =>
      apply derives_peek; intros ? ?
  | |- derives _ _ _ _ _ _ (bind (expect _ _ _ _) _) =>
      apply derives_expect; intros ? ?
  | |- derives _ _ _ _ _ _ (failAtPeek _ _ _) =>
      by apply derives_failAtPeek
  end.

(** What the tests of the loop say of the tokens. *)
Ltac facts :=
  repeat match goal with
    | H : true = true -> _ |- _ =>
        let t := fresh "t" in
        destruct (H eq_refl) as (t & ? & ? & ?); clear H
    | H : false = true -> _ |- _ => clear H
    | Hend : isAtEnd tokens ?th = false, H : peek tokens ?th = Ret ?t |- _ =>
        apply (peek_tokenAt tokens th t Hend) in H
    | H : bool_decide (_ = _) = true |- _ => apply bool_decide_eq_true in H
    | H : context [bool_decide (?v = "")] |- _ =>
        eval_test_in (bool_decide (v = "")) H; cbn [orb] in H
    end;
  zs.

Ltac pushed :=
  unfold isPushed, isPlain; cbn [fst snd];
  repeat match goal with
    | H : ?b = true |- context [?b] => rewrite H
    | H : ?b = false |- context [?b] => rewrite H
    end;
  cbn [andb orb]; reflexivity.

Section Step.
Context (fuel : nat).
Hypothesis IH :
  forall r l i f bp block this,
    derives tokens r (l, i, f) bp block this
      (whileLoop tokens fuel r l i f bp block this).

(** A nested call, entered on a [{]: it returns behind the [}] of a
    block, or its error is that of a block left open. *)
Lemma derives_nested r c bp block this0 l i f this ob
  (k : Program * Parser -> Outcome (Program * Parser)) :
  tokenAt tokens (pointer this) = Some ob ->
  (forall inner this' ts cb,
     suffixAt tokens (pointer this + 1)
     = ts ++ cb :: suffixAt tokens (pointer this') ->
     type cb = TokenType.CloseBracket ->
     Block (l, i, f) ts inner ->
     derives tokens r c bp block this0 (k (inner, this'))) ->
  (forall e,
     (message e = ExpectedEndingBracketPair ->
      RunsOff (l, i, f) (Some (startPos ob))
        (suffixAt tokens (pointer this + 1)) (at_ e)) ->
     derives tokens r c bp block this0 (Fail e)) ->
  derives tokens r c bp block this0
    (bind (parseStatementWith tokens (whileLoop tokens fuel) false l i f this)
       k).
Proof.
  intros Hat Hret Hfail. unfold parseStatementWith.
  rewrite (proj2 (on_token tokens this ob Hat)). cbn [bind negb].
  pose proof (IH false l i f (startPos ob) [] (increment this)) as Hnested.
  destruct (whileLoop tokens fuel false l i f (startPos ob) []
              (increment this)) as [[inner this']|e| |]; cbn [bind];
    [| |done..].
  - destruct (Hnested eq_refl) as (ts & p & cb & Hsuffix & Hcb & Hts & ->).
    by apply (Hret _ _ ts cb).
  - by apply Hfail.
Qed.

Lemma derives_params c bp block this0 m this
  (k : gmap string StackType * Parser -> Outcome (Program * Parser)) r :
  (forall m' this',
     parseParams tokens fuel m this = Ret (m', this') ->
     derives tokens r c bp block this0 (k (m', this'))) ->
  derives tokens r c bp block this0
    (bind (parseParams tokens fuel m this) k).
Proof.
  intros Hret.
  destruct (parseParams tokens fuel m this) as [[m' this']|e| |] eqn:Hrun;
    cbn [bind]; [by apply Hret| |done..].
  intros Hmsg. by apply parseParams_quiet in Hrun.
Qed.

(** A loop statement whose [{] is under the cursor of [this']. *)
Lemma derives_loop r l i f bp block this hdr ty ob this' :
  Header hdr ty -> ty <> If ->
  suffixAt tokens (pointer this) = hdr ++ suffixAt tokens (pointer this') ->
  tokenAt tokens (pointer this') = Some ob ->
  type ob = TokenType.OpenBracket ->
  derives tokens r (l, i, f) bp block this
    (bind (parseStatementWith tokens (whileLoop tokens fuel) false i f true
             this')
       (fun '(innerBlock, this) =>
          whileLoop tokens fuel r l i f bp
            (block ++ [Statement ty innerBlock None]) this)).
Proof.
  intros Hhdr Hty Hsuffix Hob Hopen.
  assert (nested ty (l, i, f) = (i, f, true)) as Hflags by (by destruct ty).
  apply (derives_nested _ _ _ _ _ _ _ _ _ ob _ Hob).
  - intros inner this2 ts cb Hinner Hcb Hts.
    apply (derives_chunk _ _ _ _ _ this2 (hdr ++ ob :: ts ++ [cb])
             [Statement ty inner None]); [| |apply IH].
    + rewrite Hsuffix, (suffixAt_cons _ ob Hob), Hinner. regroup.
    + apply Block_statement; [done..| |done|constructor].
      by rewrite Hflags.
  - intros e He.
    apply (derives_open _ _ _ _ _ hdr ty ob
             (suffixAt tokens (pointer this' + 1))); [|done..|].
    + by rewrite Hsuffix, (suffixAt_cons _ ob Hob).
    + by rewrite Hflags.
Qed.

(** An [if] statement whose [{] is next. *)
Lemma derives_if r l i f bp block this kw ob :
  tokenAt tokens (pointer this) = Some kw -> isWord "if" kw ->
  tokenAt tokens (pointer this + 1) = Some ob ->
  type ob = TokenType.OpenBracket ->
  derives tokens r (l, i, f) bp block this
    (bind (parseStatementWith tokens (whileLoop tokens fuel) false true f l
             (increment this))
       (ifTail tokens (whileLoop tokens fuel) r l i f bp block)).
Proof.
  intros Hkw Hif Hob Hopen.
  assert (suffixAt tokens (pointer this)
          = kw :: ob :: suffixAt tokens (pointer this + 2)) as Hsuffix.
  { rewrite (suffixAt_cons _ kw Hkw), (suffixAt_cons _ ob Hob). zs. done. }
  apply (derives_nested _ _ _ _ _ _ _ _ _ ob); [by zs| |].
  - intros inner this2 ts cb Hinner Hcb Hts. zs. unfold ifTail.
    repeat walk; facts.
    + (* an [else] and its block *)
      match goal with
      | Helse : tokenAt tokens (pointer this2) = Some ?kw',
        Hob' : tokenAt tokens (pointer this2 + 1) = Some ?ob' |- _ =>
          apply (derives_nested _ _ _ _ _ _ _ _ _ ob');
            [by zs| |];
            [intros inner' this3 ts' cb' Hinner' Hcb' Hts'; zs;
             apply (derives_chunk _ _ _ _ _ this3
                      (kw :: ob :: ts ++ cb :: kw' :: ob' :: ts' ++ [cb'])
                      [Statement If inner (Some inner')]);
               [|apply Block_if_else|apply IH]
            |intros e He; zs;
             apply (derives_open_else _ _ _ _ _ kw ob ts inner cb kw' ob'
                      (suffixAt tokens (pointer this2 + 2)))];
            try done; try (by apply value_is_word); try constructor;
            rewrite Hsuffix, Hinner, (suffixAt_cons _ kw' Helse),
              (suffixAt_cons _ ob' Hob'); zs; rewrite ?Hinner'; regroup
      end.
    + (* no [else] *)
      apply (derives_chunk _ _ _ _ _ (increment (decrement this2))
               ([kw] ++ ob :: ts ++ [cb]) [Statement If inner None]);
        [| |apply IH].
      * rewrite Hsuffix, Hinner. zs. regroup.
      * by apply Block_statement; [apply Header_if|..|constructor].
  - intros e He. zs.
    apply (derives_open _ _ _ _ _ [kw] If ob
             (suffixAt tokens (pointer this + 2)));
      [done|by apply Header_if|done..].
Qed.
End Step.

Lemma whileLoop_derives fuel r l i f bp block this :
  derives tokens r (l, i, f) bp block this
    (whileLoop tokens fuel r l i f bp block this).
Proof.
  revert r l i f bp block this.
  induction fuel as [|fuel IH]; intros r l i f bp block this; [done|].
  cbn [whileLoop]. repeat walk.
  - (* the end of the input, in a block *)
    destruct r; [by simplify_eq/=|]. intros _.
    rewrite suffixAt_end by (by apply isAtEnd_true).
    exact (RunsOff_end _ _ _ _ (Block_nil _)).
  - (* the end of the input, at the root *)
    intros ->. by simplify_eq/=.
  - apply (derives_push _ _ _ _ _ t); [by apply peek_tokenAt|pushed|apply IH].
  - (* [}] *)
    facts. intros _. exists [], [], t. rewrite app_nil_r.
    split_and!; [|done|constructor|done].
    by rewrite (suffixAt_cons _ t).
  - apply (derives_push _ _ _ _ _ t); [by apply peek_tokenAt|pushed|apply IH].
  - apply (derives_push _ _ _ _ _ t); [by apply peek_tokenAt|pushed|apply IH].
  - apply (derives_push _ _ _ _ _ t); [by apply peek_tokenAt|pushed|apply IH].
  - apply (derives_push _ _ _ _ _ t); [by apply peek_tokenAt|pushed|apply IH].
  - (* [loop] *)
    facts.
    match goal with
    | Hob : tokenAt tokens (pointer this + 1) = Some ?ob |- _ =>
        apply (derives_loop fuel IH _ _ _ _ _ _ _ [t] Loop ob
                 (increment this));
          [by apply Header_loop, value_is_word|done| |by zs|done]
    end.
    by rewrite (suffixAt_cons _ t).
  - (* [for loop] *)
    facts.
    match goal with
    | Hkw : tokenAt tokens (pointer this + 1) = Some ?kw',
      Hob : tokenAt tokens (pointer this + 2) = Some ?ob |- _ =>
        apply (derives_loop fuel IH _ _ _ _ _ _ _ [t; kw'] ForLoop ob
                 (increment (increment this)));
          [apply Header_for; by apply value_is_word|done| |by zs|done];
          rewrite (suffixAt_cons _ t), (suffixAt_cons _ kw' Hkw) by done;
          by zs
    end.
  - (* [while loop] *)
    facts.
    match goal with
    | Hkw : tokenAt tokens (pointer this + 1) = Some ?kw',
      Hob : tokenAt tokens (pointer this + 2) = Some ?ob |- _ =>
        apply (derives_loop fuel IH _ _ _ _ _ _ _ [t; kw'] WhileLoop ob
                 (increment (increment this)));
          [apply Header_while; by apply value_is_word|done| |by zs|done];
          rewrite (suffixAt_cons _ t), (suffixAt_cons _ kw' Hkw) by done;
          by zs
    end.
  - (* [if] *)
    facts.
    match goal with
    | Hob : tokenAt tokens (pointer this + 1) = Some ?ob |- _ =>
        apply (derives_if fuel IH r l i f bp block this t ob);
          [done|by apply value_is_word|done..]
    end.
  - (* [fn] *)
    subst r. facts.
    match goal with
    | Hname : tokenAt tokens (pointer this + 1) = Some ?name,
      Hop : tokenAt tokens (pointer this + 2) = Some ?op,
      Hpeek : peek tokens (increment this) = Ret ?a,
      Hpeek' : peek tokens (increment (increment this)) = Ret ?b |- _ =>
        pose proof (peek_at (increment this) a name Hpeek Hname) as ->;
        pose proof (peek_at (increment (increment this)) b op Hpeek'
                      ltac:(by zs)) as ->;
        clear Hpeek Hpeek'
    end.
    apply derives_params. intros m' this0 Hrun. repeat walk.
    match goal with
    | H : _ && _ && _ = true |- _ =>
        apply andb_true_iff in H as [[Hmore Hkw]%andb_true_iff Hmarker];
        apply negb_true_iff in Hmore
    end.
    facts.
    destruct (parseParams_tokens _ _ _ _ _ Hrun ltac:(done))
      as (ps & cp & Hps & Hcp & Hparams).
    zs.
    lazymatch goal with
    | Hname : tokenAt tokens (pointer this + 1) = Some ?name,
      Hop : tokenAt tokens (pointer this + 2) = Some ?op,
      Hmk : tokenAt tokens (pointer this0 + 1) = Some ?marker,
      Hob : tokenAt tokens (pointer this0 + 2) = Some ?ob |- _ =>
        assert (suffixAt tokens (pointer this)
                = t :: name :: op :: ps ++ cp :: marker :: ob
                    :: suffixAt tokens (pointer this0 + 3)) as Hsuffix
          by (rewrite (suffixAt_cons _ t) by done;
              rewrite (suffixAt_cons _ name Hname); zs;
              rewrite (suffixAt_cons _ op Hop); zs;
              rewrite Hps, (suffixAt_cons _ marker Hmk); zs;
              rewrite (suffixAt_cons _ ob Hob); by zs);
        apply (derives_nested fuel IH _ _ _ _ _ _ _ _
                 (increment (increment this0)) ob _ ltac:(by zs));
          [intros inner this2 ts cb Hinner Hcb Hts; zs;
           apply (derives_fn _ _ _ this
                    (declare (propKey (value name))
                       {| stack := functionTypeOf (value marker);
                          params := m'; body := inner |} this2)
                    t name op ps m' cp marker ob ts inner cb);
             [by rewrite Hsuffix, Hinner|by apply value_is_word|done..
             |apply IH]
          |intros e He; zs;
           apply (derives_open_fn _ _ _ _ t name op ps m' cp marker ob
                    (suffixAt tokens (pointer this0 + 3)));
             [done|by apply value_is_word|done..]]
    end.
Qed.
End Converse.

(** The verifier never reports an open block. *)
Lemma verifier_quiet fs otherIdentifiers p current e :
  traverse fs otherIdentifiers p current = Some e ->
  message e <> ExpectedEndingBracketPair.
Proof.
  intros Herr.
  assert (exists t, t ∈ expressionsOf p /\ blames fs otherIdentifiers e t)
    as (t & _ & _ & _ & _ & Hmsg).
  { revert Herr. apply forOf_blames, Forall_forall. intros item _.
    apply traverseItem_blames. }
  destruct (calleeStack fs _); [destruct Hmsg as (c & Hmsg & _)|];
    by rewrite Hmsg.
Qed.

Lemma checkFunctions_quiet this e :
  checkFunctions this = Fail e -> message e <> ExpectedEndingBracketPair.
Proof.
  unfold checkFunctions.
  destruct (traverse (functions this) ∅ (program this) StackType.Int)
    eqn:Hroot.
  - intros [= ->]. by eapply verifier_quiet.
  - intros (before & fn & decl & rest & _ & _ & _ & Hwalk)
             %checkNewFunctions_Fail.
    by eapply verifier_quiet.
Qed.

(** The error of an open block is only reported on a token sequence with
    an unmatched [{], and at the [{] of its innermost open block. *)
Lemma reported_unclosed tokens functions pos :
  parse tokens (newParser functions)
  = Fail (error pos ExpectedEndingBracketPair) ->
  Unclosed tokens pos.
Proof.
  unfold parse, parseStatement, parseStatementWith. intros Hfail.
  destruct (peek tokens (newParser functions)) as [t|e| |] eqn:Hpeek;
    cbn [bind] in Hfail; try discriminate.
  2: { injection Hfail as ->. unfold peek in Hpeek.
       repeat case_match; simplify_eq. }
  cbn [negb] in Hfail.
  pose proof (whileLoop_derives tokens (S (length tokens)) true false false
                false (startPos t) [] (newParser functions)) as Hd.
  destruct (whileLoop tokens _ _ _ _ _ _ _ _) as [[block this']|e| |];
    cbn [bind] in Hfail; try discriminate.
  - destruct (checkFunctions _) eqn:Hcheck; cbn [bind] in Hfail;
      try discriminate.
    injection Hfail as ->. by apply checkFunctions_quiet in Hcheck.
  - injection Hfail as ->. exact (Hd eq_refl eq_refl).
Qed.



(** Function bodies left open, behind typed parameters and behind a
    parameter whose type is no type keyword, are of the sequences with
    an unmatched [{], and the model computes the same error on them. *)
Lemma unterminated_fn_unclosed :
  Unclosed unterminated_fn {| line := 1; char := 25 |}
  /\ parse unterminated_fn (newParser ∅)
     = Fail (error {| line := 1; char := 25 |} ExpectedEndingBracketPair)
  /\ Unclosed unterminated_untyped {| line := 1; char := 21 |}
  /\ parse unterminated_untyped (newParser ∅)
     = Fail (error {| line := 1; char := 21 |} ExpectedEndingBracketPair).
Proof.
  split_and!; [|vm_compute; reflexivity| |vm_compute; reflexivity].
  - apply (Unclosed_fn [] [] [] (keyword "fn" 1 1 2) (identifier "f" 1 4 4)
             (openParen 1 6 6)
             [identifier "a" 1 8 8; identifier "b" 1 10 10; colon 1 12 12;
              keyword "int" 1 14 16]
             (<["b" := StackType.Int]> (<["a" := StackType.Any]> ∅))
             (closeParen 1 18 18) (keyword "@int" 1 20 23)
             (openBracket 1 25 25) [identifier "a" 1 27 27] _ Toplevel_nil);
      try done.
    + apply Params_bare; [done|]. apply Params_typed; try done.
      apply Params_nil.
    + apply (RunsOff_end _ _ _ [Expression (identifier "a" 1 27 27)]).
      by apply Block_plain; [|constructor].
  - apply (Unclosed_fn [] [] [] (keyword "fn" 1 1 2) (identifier "f" 1 4 4)
             (openParen 1 6 6)
             [identifier "a" 1 8 8; colon 1 10 10; int "5" 1 12 12] ∅
             (closeParen 1 14 14) (keyword "@int" 1 16 19)
             (openBracket 1 21 21) [int "1" 1 23 23] _ Toplevel_nil);
      try done.
    + apply Params_untyped; try done. apply Params_nil.
    + apply (RunsOff_end _ _ _ [Expression (int "1" 1 23 23)]).
      by apply Block_plain; [|constructor].
Qed.
